(** * Skin rig control-node merging: a shallow embedding

    The node merger ([rigs/skin/node_merger.py]) and the control-node layer
    built on top of it ([rigs/skin/skin_rigs.py]) are embedded as Rocq
    functions.  Conventions used throughout:

    - Python objects with identity (nodes, rigs, parent generators) are
      referred to by a natural number: the position of a node in the list
      it is stored in, an identifier for a rig, an address for a parent
      generator.
    - Blender's floating point numbers are idealised as exact rationals
      ([Qc], canonical fractions, so that [=] is Leibniz equality), except
      where the order of the additions is in question: there the
      arithmetic is a parameter, read both as exact rationals and as IEEE
      754 floats ([SpecFloat]).
    - Python exceptions are values of [exn]; a function that may raise
      returns a [result].
    - [set] is [gset], [dict] with hashable keys is [gmap] when the order of
      iteration is irrelevant and an insertion-ordered association list
      when it is not. *)

From Stdlib Require Import QArith Qcanon Qround.
From Stdlib Require SpecFloat.
From stdpp Require Import gmap strings list fin_sets relations.

Local Open Scope string_scope.
Local Open Scope list_scope.
Local Open Scope Z_scope.
Local Open Scope nat_scope.

(** ** Exceptions *)

Inductive exn : Type :=
  | ValueError (msg : string)
  | AssertionError
  | IndexError
  | MetarigError (msg : string)
  | KeyError
  | AttributeError (attr : string)
  (** Not a Python exception: the fuel of a modelled loop ran out. *)
  | OutOfFuel.

Inductive result (A : Type) : Type :=
  | Ok (a : A)
  | Raise (e : exn).
Arguments Ok {A} a.
Arguments Raise {A} e.

Global Instance result_ret : MRet result := fun A a => Ok a.
Global Instance result_bind : MBind result := fun A B k m =>
  match m with
  | Ok a => k a
  | Raise e => Raise e
  end.

Definition py_assert (b : bool) : result unit :=
  if b then Ok tt else Raise AssertionError.

(** ** Rational numbers standing for floats *)

Definition Qcleb (x y : Qc) : bool := Qle_bool x y.

Definition Qc_of_nat (n : nat) : Qc := Q2Qc (inject_Z (Z.of_nat n)).

(** ** Vectors ([mathutils.Vector] of dimension 3) *)

Definition Vector : Type := Qc * Qc * Qc.

Definition vadd (a b : Vector) : Vector :=
  let '(ax, ay, az) := a in
  let '(bx, by_, bz) := b in
  ((ax + bx)%Qc, (ay + by_)%Qc, (az + bz)%Qc).

Definition vdiv (a : Vector) (k : Qc) : Vector :=
  let '(ax, ay, az) := a in ((ax / k)%Qc, (ay / k)%Qc, (az / k)%Qc).

Definition vzero : Vector := (Q2Qc 0, Q2Qc 0, Q2Qc 0).

Global Instance Vector_inhabited : Inhabited Vector := populate vzero.

Definition dist_sq (a b : Vector) : Qc :=
  let '(ax, ay, az) := a in
  let '(bx, by_, bz) := b in
  ((ax - bx) * (ax - bx) + (ay - by_) * (ay - by_) + (az - bz) * (az - bz))%Qc.

(** ** The spatial index

    [mathutils.kdtree.KDTree] belongs to Blender, not to this repository.
    Its documented contract is all the merger relies on: [find_range co r]
    returns every inserted point whose distance to [co] is at most [r].
    Only the index of each hit is used by the caller. *)

Module KDTree.

Definition within (radius : Qc) (a b : Vector) : bool :=
  Qcleb (dist_sq a b) (radius * radius)%Qc.

Definition find_range (tree : list Vector) (co : Vector) (radius : Qc) : list nat :=
  filter (fun idx => (fun p => within radius p co) <$> tree !! idx = Some true)
         (seq 0 (length tree)).

End KDTree.

(** ** NodeMerger: partitioning the registered nodes by location

    [NodeMerger.initialize], lines 55-113.  The registered nodes are
    addressed by their index in [self.nodes]. *)

Module NodeMerger.

(** [epsilon = 1e-5] *)
Definition epsilon : Qc := Q2Qc (1 # 100000).

Section Partition.

(** The points inserted into the tree (lines 59-64): the [point] of every
    node when [initialize] starts. *)
Variable tree : list Vector.

(** The indices returned by
    [tree.find_range(nodes[j].point, self.epsilon)].  The query point is
    read from the node when the query is made, and building a group moves
    its nodes: [point] lists the [point] attributes as they are by then. *)
Definition hits (point : list Vector) (j : nat) : gset nat :=
  match point !! j with
  | Some p => list_to_set (KDTree.find_range tree p epsilon)
  | None => ∅
  end.

(** The [while pending] loop of lines 77-83.  One unit of [fuel] is spent
    per iteration; [None] means the fuel ran out before [pending] emptied. *)
Fixpoint grow (point : list Vector) (fuel : nat) (pending merge_set : gset nat)
    : option (gset nat) :=
  if decide (pending = ∅) then Some merge_set
  else match fuel with
       | O => None
       | S fuel' =>
           let added : gset nat := ⋃ (hits point <$> elements pending) in
           grow point fuel' (added ∖ merge_set) (merge_set ∪ added)
       end.

(** Lines 74-83: [pending = [i]; merge_set = set(pending)] and the loop.
    Every productive iteration adds a fresh index, of which there are at
    most [len(nodes)]. *)
Definition find_merge_set (point : list Vector) (i : nat) : option (gset nat) :=
  grow point (S (length tree)) {[ i ]} {[ i ]}.

(** The [for i in range(len(nodes))] loop, lines 69-110.  What is done
    with each merge set (lines 89-110: sorting, choosing the group class,
    building the group) is the parameter [group_step]; it may move nodes
    but does not touch [processed].  The state is the current points of
    the nodes and what the group steps have accumulated. *)
Fixpoint partition_loop {A : Type}
    (group_step : list Vector * A -> gset nat -> result (list Vector * A))
    (todo : list nat) (processed : gset nat) (state : list Vector * A)
    : result (list Vector * A) :=
  match todo with
  | [] => Ok state
  | i :: todo' =>
      if decide (i ∈ processed) then partition_loop group_step todo' processed state
      else
        match find_merge_set state.1 i with
        | None => Raise OutOfFuel
        | Some merge_set =>
            _ ← py_assert (bool_decide (merge_set ## processed));
            let processed' := processed ∪ merge_set in
            state' ← group_step state merge_set;
            partition_loop group_step todo' processed' state'
        end
  end.

(** The group step that only records the merge set. *)
Definition collect (state : list Vector * list (gset nat)) (merge_set : gset nat)
    : result (list Vector * list (gset nat)) :=
  Ok (state.1, state.2 ++ [merge_set]).

(** The merge sets alone, in the order in which they are found. *)
Definition merge_sets : result (list (gset nat)) :=
  state ← partition_loop collect (seq 0 (length tree)) ∅ (tree, []);
  Ok state.2.

End Partition.

End NodeMerger.

(** ** Python built-ins used by the merger *)

(** [max(l, key=key)]: the first element whose key is maximal; an empty
    argument raises [ValueError]. *)
Fixpoint py_max_from {A : Type} (key : A -> Z) (best : A) (l : list A) : A :=
  match l with
  | [] => best
  | x :: l' => if (key best <? key x)%Z then py_max_from key x l'
               else py_max_from key best l'
  end.

Definition py_max {A : Type} (key : A -> Z) (l : list A) : result A :=
  match l with
  | [] => Raise (ValueError "max() arg is an empty sequence")
  | x :: l' => Ok (py_max_from key x l')
  end.

(** A loop whose body may raise. *)
Fixpoint rfoldl {A B : Type} (f : A -> B -> result A) (acc : A) (l : list B) : result A :=
  match l with
  | [] => Ok acc
  | x :: l' => acc' ← f acc x; rfoldl f acc' l'
  end.

(** [list.sort(key=...)] on string keys: a stable sort. *)
Fixpoint insert_by {A : Type} (key : A -> string) (x : A) (l : list A) : list A :=
  match l with
  | [] => [x]
  | y :: l' => if String.leb (key x) (key y) then x :: y :: l'
               else y :: insert_by key x l'
  end.

Definition sort_by {A : Type} (key : A -> string) (l : list A) : list A :=
  foldr (insert_by key) [] l.

(** ** Classes and rigs *)

(** A Python class, as far as [issubclass] can tell: its name and its
    method resolution order (which starts with the class itself). *)
Record PyClass : Type := {
  cls_name : string;
  cls_mro : list string;
}.

Definition issubclass (c d : PyClass) : bool :=
  bool_decide (cls_name d ∈ cls_mro c).

(** [str(cls)], as substituted for [{}] by [str.format]. *)
Definition cls_repr (c : PyClass) : string :=
  "<class '" +:+ cls_name c +:+ "'>".

(** What the merger reads of a rig: its identity, its base bone and the
    [chain_priority] of [BaseSkinChainRig] (0 unless overridden). *)
Record Rig : Type := {
  rig_id : nat;
  base_bone : string;
  chain_priority : Z;
}.

(** ** The node interface: [BaseMergeNode] and [MainMergeNode] *)

Class MergeNode (N : Type) : Type := {
  node_name : N -> string;
  node_rig : N -> Rig;
  node_point : N -> Vector;
  group_class : N -> PyClass;
  (** [isinstance(node, MainMergeNode)] *)
  is_main : N -> bool;
  can_merge_into : N -> N -> bool;
  get_merge_priority : N -> N -> Z;
  (** What an override of [merge_done] checks after calling [super()],
      given the node and [get_merged_siblings()], each with its identity;
      it may raise. *)
  merge_done_hook : nat * N -> list (nat * N) -> result unit;
}.

(** An object is a value together with its identity. *)
Abbreviation obj N := (nat * N)%type.

Definition objects {N : Type} (l : list N) : list (obj N) := imap (fun i n => (i, n)) l.

(** ** Choosing the group class of a cluster (lines 93-105) *)

Section GroupClass.

Context {N : Type} `{MergeNode N}.

Definition conflict_message (running cls : PyClass) (item : N) : string :=
  "Group class conflict: " +:+ cls_repr running +:+ " and " +:+ cls_repr cls
  +:+ " from " +:+ node_name item +:+ " of " +:+ base_bone (node_rig item).

Definition group_class_step (running : PyClass) (item : N) : result PyClass :=
  let cls := group_class item in
  if issubclass cls running then Ok cls
  else if negb (issubclass running cls)
       then Raise (MetarigError (conflict_message running cls item))
       else Ok running.

(** [merge_list] is never empty when the merger calls this: a merge set
    contains at least the index it was grown from. *)
Definition select_group_class (merge_list : list N) : result PyClass :=
  match merge_list with
  | [] => Raise IndexError
  | first :: rest => rfoldl group_class_step (group_class first) rest
  end.

End GroupClass.

(** ** MergeGroup (lines 116-180) *)

(** The attributes of the nodes of a group that [build] and [merge_done]
    assign, each indexed by the identity of the node. *)
Record Store : Type := {
  st_point : list Vector;
  st_merged_into : list (option nat);
  st_merged : list (list nat);
  st_merged_master : list (option nat);
}.

Record LoopState : Type := {
  ls_pending : gset nat;
  ls_table : gmap nat (gset nat);
  ls_store : Store;
  ls_final : list nat;
}.

Section MergeGroup.

Context {N : Type} `{MergeNode N}.

(** [self.nodes]; a node's identity is its position in this list. *)
Variable nodes : list N.

Definition main_nodes : list (obj N) :=
  filter (fun n => is_main n.2 = true) (objects nodes).

Definition query_nodes : list (obj N) :=
  filter (fun n => is_main n.2 <> true) (objects nodes).

(** The state of the nodes when the group is created: [MainMergeNode.__init__]
    sets [merged_into = None] and [merged = []]; [merged_master] does not
    exist yet. *)
Definition init_store : Store :=
  {| st_point := node_point <$> nodes;
     st_merged_into := (fun _ => None) <$> nodes;
     st_merged := (fun _ => []) <$> nodes;
     st_merged_master := (fun _ => None) <$> nodes |}.

(** [rig_table[node.rig].append(node)] on a [defaultdict(list)]: buckets
    are kept in the order in which their rig first appears. *)
Fixpoint rig_table_append (tbl : list (nat * list (obj N))) (node : obj N)
    : list (nat * list (obj N)) :=
  match tbl with
  | [] => [(rig_id (node_rig node.2), [node])]
  | (rig, bucket) :: tbl' =>
      if decide (rig = rig_id (node_rig node.2)) then (rig, bucket ++ [node]) :: tbl'
      else (rig, bucket) :: rig_table_append tbl' node
  end.

Definition rig_table : list (nat * list (obj N)) :=
  foldl rig_table_append [] main_nodes.

(** [merge_table = { n: set() for n in main_nodes }] *)
Definition merge_table_init : gmap nat (gset nat) :=
  list_to_map ((fun n : obj N => (n.1, ∅ : gset nat)) <$> main_nodes).

(** Lines 145-147, the body of the inner loop. *)
Definition add_edge (node : obj N) (table : gmap nat (gset nat))
    (entry : nat * list (obj N)) : result (gmap nat (gset nat)) :=
  let '(rig, tgt_nodes) := entry in
  if decide (rig <> rig_id (node_rig node.2)) then
    let cands := filter (fun n : obj N => can_merge_into node.2 n.2 = true) tgt_nodes in
    best ← py_max (fun n : obj N => get_merge_priority node.2 n.2) cands;
    Ok (<[best.1 := (table !!! best.1) ∪ {[ node.1 ]}]> table)
  else Ok table.

(** Lines 141-147. *)
Definition build_merge_table : result (gmap nat (gset nat)) :=
  rfoldl (fun table node => rfoldl (add_edge node) table rig_table)
         merge_table_init main_nodes.

(** Lines 164-166, the body of the loop over the children. *)
Definition link_child (best : nat) (st : Store) (child : nat) : Store :=
  {| st_point := <[child := st_point st !!! best]> (st_point st);
     st_merged_into := <[child := Some best]> (st_merged_into st);
     st_merged := <[best := (st_merged st !!! best) ++ [child]]> (st_merged st);
     st_merged_master := st_merged_master st |}.

(** [get_merged_siblings], lines 213-215. *)
Definition get_merged_siblings (st : Store) (self : nat) : list nat :=
  let master := default self (st_merged_master st !!! self) in
  master :: (st_merged st !!! master).

(** [merge_done], lines 226-230, followed by what an override adds.
    [depth] bounds the recursion through [merged]. *)
Fixpoint merge_done (depth : nat) (st : Store) (self : nat) : result Store :=
  let master := default self (st_merged_into st !!! self) in
  let st1 := {| st_point := st_point st;
                st_merged_into := st_merged_into st;
                st_merged := st_merged st;
                st_merged_master := <[self := Some master]> (st_merged_master st) |} in
  st2 ← match depth with
         | O => match st_merged st1 !!! self with
                | [] => Ok st1
                | _ => Raise OutOfFuel
                end
         | S depth' => rfoldl (merge_done depth') st1 (st_merged st1 !!! self)
         end;
  match nodes !! self with
  | Some n =>
      _ ← merge_done_hook (self, n)
            (omap (fun i => (fun m => (i, m)) <$> nodes !! i) (get_merged_siblings st2 self));
      Ok st2
  | None => Ok st2
  end.

(** One iteration of [while pending], lines 155-178. *)
Definition build_step (ls : LoopState) : result LoopState :=
  let cands := filter (fun n : obj N => n.1 ∈ ls_pending ls) main_nodes in
  best ← py_max (fun n : obj N => Z.of_nat (size (ls_table ls !!! n.1))) cands;
  let best := best.1 in
  let child_set : gset nat := ls_table ls !!! best in
  let st := ls_store ls in
  let centre :=
    vdiv (foldl (fun acc c => vadd acc (st_point st !!! c)) (st_point st !!! best)
                (elements child_set))
         (Qc_of_nat (size child_set + 1)) in
  let st1 := {| st_point := <[best := centre]> (st_point st);
                st_merged_into := st_merged_into st;
                st_merged := st_merged st;
                st_merged_master := st_merged_master st |} in
  let children := filter (fun c => c ∈ child_set) (main_nodes.*1) in
  let st2 := foldl (link_child best) st1 children in
  st3 ← merge_done (length nodes) st2 best;
  let pending' := (ls_pending ls ∖ {[ best ]}) ∖ child_set in
  Ok {| ls_pending := pending';
        ls_table := (fun children => children ∩ pending') <$> ls_table ls;
        ls_store := st3;
        ls_final := ls_final ls ++ [best] |}.

Fixpoint build_loop (fuel : nat) (ls : LoopState) : result LoopState :=
  if decide (ls_pending ls = ∅) then Ok ls
  else match fuel with
       | O => Raise OutOfFuel
       | S fuel' => ls' ← build_step ls; build_loop fuel' ls'
       end.

(** [build(final_nodes)]: the store after the merge, [self.final_nodes],
    and the extended output list. *)
Definition build (st : Store) (final_nodes : list nat)
    : result (Store * list nat * list nat) :=
  table ← build_merge_table;
  ls ← build_loop (length main_nodes)
         {| ls_pending := list_to_set (main_nodes.*1);
            ls_table := table;
            ls_store := st;
            ls_final := [] |};
  Ok (ls_store ls, ls_final ls, final_nodes ++ ls_final ls ++ query_nodes.*1).

End MergeGroup.

(** ** NodeMerger.initialize, as a whole (lines 55-113) *)

(** What [initialize] keeps of one cluster: the class of the group, its
    nodes (registration indices, sorted by name), and what [build] left. *)
Record Group : Type := {
  g_class : PyClass;
  g_nodes : list nat;
  g_store : Store;
  g_final : list nat;
}.

Section Initialize.

Context {N : Type} `{MergeNode N}.

(** [self.nodes] *)
Variable nodes : list N.

(** Lines 90-91.  A Python set is listed in no particular order, and so is
    a [gset]; the order matters for nodes of equal name only. *)
Definition merge_list_of (merge_set : gset nat) : list (obj N) :=
  sort_by (fun n : obj N => node_name n.2)
          (omap (fun i => (fun n => (i, n)) <$> nodes !! i) (elements merge_set)).

(** The attributes of the nodes of a cluster when its group is created:
    their points as they are by then, nothing merged yet. *)
Definition group_store (point : list Vector) (ids : list nat) : Store :=
  {| st_point := (fun i => point !!! i) <$> ids;
     st_merged_into := (fun _ => None) <$> ids;
     st_merged := (fun _ => []) <$> ids;
     st_merged_master := (fun _ => None) <$> ids |}.

(** The points of all the nodes once the group has been built. *)
Definition store_points (point : list Vector) (ids : list nat) (st : Store) : list Vector :=
  foldl (fun pt (n : obj nat) => <[n.2 := st_point st !!! n.1]> pt) point (objects ids).

(** Lines 89-110 for one merge set.  [group_class(merge_list)] is built by
    [MergeGroup.build]: no class of the repository overrides it.  Inside
    the group a node is known by its position in [merge_list]; the output
    is translated back to registration indices. *)
Definition group_step (state : list Vector * (list nat * list Group))
    (merge_set : gset nat) : result (list Vector * (list nat * list Group)) :=
  let '(point, acc) := state in
  let merge_list := merge_list_of merge_set in
  cls ← select_group_class merge_list.*2;
  r ← build merge_list.*2 (group_store point merge_list.*1) [];
  let '(st, finals, out) := r in
  let registered := omap (fun k => merge_list.*1 !! k) in
  Ok (store_points point merge_list.*1 st,
      (acc.1 ++ registered out,
       acc.2 ++ [{| g_class := cls; g_nodes := merge_list.*1;
                    g_store := st; g_final := registered finals |}])).

(** [initialize]: [self.final_nodes] and [self.groups]. *)
Definition initialize : result (list nat * list Group) :=
  state ← NodeMerger.partition_loop (node_point <$> nodes) group_step
             (seq 0 (length nodes)) ∅ (node_point <$> nodes, ([], []));
  Ok state.2.

End Initialize.

(** ** Plain [MainMergeNode]s (lines 204-230) *)

(** [group_class] is a class attribute, [MergeGroup] unless a subclass
    declares another one. *)
Record MainMergeNode : Type := {
  mmn_rig : Rig;
  mmn_name : string;
  mmn_point : Vector;
  mmn_group_class : PyClass;
}.

(** [class MergeGroup(object)] *)
Definition MergeGroup_class : PyClass :=
  {| cls_name := "MergeGroup"; cls_mro := ["MergeGroup"; "object"] |}.

Global Instance MainMergeNode_node : MergeNode MainMergeNode := {|
  node_name := mmn_name;
  node_rig := mmn_rig;
  node_point := mmn_point;
  group_class := mmn_group_class;
  is_main := fun _ => true;
  can_merge_into := fun _ _ => true;
  get_merge_priority := fun _ _ => 0%Z;
  merge_done_hook := fun _ _ => Ok tt;
|}.

(** ** Control nodes ([skin_rigs.py]) *)

Module ControlNodeLayer.

Inductive t : Type := FREE | MIDDLE_PIVOT | TWEAK.

Definition value (l : t) : Z :=
  match l with
  | FREE => 0
  | MIDDLE_PIVOT => 10
  | TWEAK => 20
  end%Z.

End ControlNodeLayer.

Module ControlNodeIcon.

Inductive t : Type := TWEAK | MIDDLE_PIVOT | FREE | CUSTOM.

Definition value (i : t) : Z :=
  match i with
  | TWEAK => 0
  | MIDDLE_PIVOT => 1
  | FREE => 2
  | CUSTOM => 3
  end%Z.

End ControlNodeIcon.

(** [mathutils.Quaternion], componentwise, over exact rationals. *)
Definition Quaternion : Type := Qc * Qc * Qc * Qc.

Definition qadd (a b : Quaternion) : Quaternion :=
  let '(aw, ax, ay, az) := a in
  let '(bw, bx, by_, bz) := b in
  ((aw + bw)%Qc, (ax + bx)%Qc, (ay + by_)%Qc, (az + bz)%Qc).

(** [Quaternion((0,0,0,0))] *)
Definition qzero : Quaternion := (Q2Qc 0, Q2Qc 0, Q2Qc 0, Q2Qc 0).




(** [get_name_base_and_sides(name)]: the base name and the two side
    markers (-1, 0 or 1 each). *)
Definition NameSplit : Type := string * Z * Z.

Record ControlBoneNode : Type := {
  cbn_rig : Rig;
  cbn_org : string;
  cbn_name : string;
  cbn_point : Vector;
  cbn_name_split : NameSplit;
  cbn_size : Qc;
  cbn_layer : ControlNodeLayer.t;
  cbn_icon : ControlNodeIcon.t;
  cbn_needs_parent : bool;
  cbn_needs_reparent : bool;
  (** [self.rig.get_final_control_node_rotation()] *)
  cbn_rig_rotation : Quaternion;
}.

Definition name_base (n : ControlBoneNode) : string := (cbn_name_split n).1.1.

(** [can_merge_into], lines 104-111; [super().can_merge_into(other)] is
    [True]. *)
Definition cbn_can_merge_into (self other : ControlBoneNode) : bool :=
  let dprio := (chain_priority (cbn_rig self) - chain_priority (cbn_rig other))%Z in
  (dprio <=? 0)%Z
  && ((ControlNodeLayer.value (cbn_layer self) <=? ControlNodeLayer.value (cbn_layer other))%Z
      || (dprio <? 0)%Z)
  && true.

(** [get_merge_priority], lines 113-118. *)
Definition cbn_get_merge_priority (self other : ControlBoneNode) : Z :=
  let sl := ControlNodeLayer.value (cbn_layer self) in
  let ol := ControlNodeLayer.value (cbn_layer other) in
  if (sl <=? ol)%Z then (- Z.abs (sl - ol))%Z
  else (- Z.abs (sl - ol) - 100)%Z.

(** An insertion-ordered [dict]: assigning to a key that is present keeps
    its place. *)
Fixpoint dict_set {K V : Type} `{EqDecision K} (d : list (K * V)) (k : K) (v : V)
    : list (K * V) :=
  match d with
  | [] => [(k, v)]
  | (k', v') :: d' => if decide (k' = k) then (k', v) :: d'
                      else (k', v') :: dict_set d' k v
  end.

Fixpoint dict_get {K V : Type} `{EqDecision K} (d : list (K * V)) (k : K) : option V :=
  match d with
  | [] => None
  | (k', v') :: d' => if decide (k' = k) then Some v' else dict_get d' k
  end.

(** [find_mirror_siblings], lines 153-162: the dictionary it fills, given
    [get_merged_siblings()]. *)
Definition mirror_siblings (self : ControlBoneNode) (siblings : list (obj ControlBoneNode))
    : list (NameSplit * obj ControlBoneNode) :=
  foldl (fun d node =>
           if decide (name_base node.2 = name_base self)
           then dict_set d (cbn_name_split node.2) node
           else d)
        [] siblings.

(** Line 164: [assert self.mirror_siblings[self.name_split] is self]. *)
Definition find_mirror_siblings (self : obj ControlBoneNode)
    (siblings : list (obj ControlBoneNode)) : result unit :=
  match dict_get (mirror_siblings self.2 siblings) (cbn_name_split self.2) with
  | Some node => py_assert (bool_decide (node.1 = self.1))
  | None => Raise KeyError
  end.

Global Instance ControlBoneNode_node : MergeNode ControlBoneNode := {|
  node_name := cbn_name;
  node_rig := cbn_rig;
  node_point := cbn_point;
  group_class := fun _ => MergeGroup_class;
  is_main := fun _ => true;
  can_merge_into := cbn_can_merge_into;
  get_merge_priority := cbn_get_merge_priority;
  merge_done_hook := find_mirror_siblings;
|}.

(** *** The size and rotation of a master ([initialize], lines 223-238) *)

(** Modelled from the spec: [is_master_node] is read by [skin_rigs.py] but
    defined in no file of [src/]; a node is a master when it has not been
    merged into another one. *)
Definition is_master_node (st : Store) (self : nat) : bool :=
  bool_decide (st_merged_into st !!! self = None).

(** Python's [sum] of numbers starts from the integer 0. *)
Definition py_sum (l : list Qc) : Qc := foldl Qcplus (Q2Qc 0) l.

(** Lines 229-232, given [sibling_list = self.get_merged_siblings()].  The
    [mirror_siblings] of [best] were filled in by its own [merge_done] from
    the same sibling list. *)
Definition initialize_size (sibling_list : list (obj ControlBoneNode)) : result Qc :=
  best ← py_max (fun n : obj ControlBoneNode => ControlNodeIcon.value (cbn_icon n.2)) sibling_list;
  let best_mirror := (mirror_siblings best.2 sibling_list).*2 in
  Ok (py_sum ((fun n : obj ControlBoneNode => cbn_size n.2) <$> best_mirror)
      / Qc_of_nat (length best_mirror))%Qc.

Section Rotation.

(** What lines 217-238 use of [mathutils.Quaternion], for a type [Quat]
    that stands for it: [a + b], [Quaternion((0,0,0,0))] and
    [Quaternion.normalized]; and what
    [self.rig.get_final_control_node_rotation()] returns for a node. *)
Context {Quat : Type}.
Variable add : Quat -> Quat -> Quat.
Variable zero : Quat.
Variable normalized : Quat -> Quat.
Variable rig_rotation : ControlBoneNode -> Quat.

(** [get_rotation], lines 217-221.  [rotation] holds the [rotation]
    attribute of the nodes for which it is not [None]. *)
Definition get_rotation (rotation : gmap nat Quat) (node : obj ControlBoneNode)
    : Quat * gmap nat Quat :=
  match rotation !! node.1 with
  | Some r => (r, rotation)
  | None => (rig_rotation node.2, <[node.1 := rig_rotation node.2]> rotation)
  end.

(** Lines 235-238, given [sibling_list]; [self.mirror_siblings] was filled
    in by [merge_done] from the same list.  [sum] adds from its start
    value on, left to right. *)
Definition initialize_rotation (rotation : gmap nat Quat)
    (self : obj ControlBoneNode) (sibling_list : list (obj ControlBoneNode))
    : Quat * gmap nat Quat :=
  let mirror_sibling_list := (mirror_siblings self.2 sibling_list).*2 in
  let '(total, rotation') :=
    foldl (fun '(acc, rot) node => let '(r, rot') := get_rotation rot node in (add acc r, rot'))
          (zero, rotation) mirror_sibling_list in
  (normalized total, <[self.1 := normalized total]> rotation').

End Rotation.

(** ** Parent mechanism generators *)

(** [LazyRef] (lines 441-469) and other callables: two [LazyRef]s are equal
    when their [first] and [args] are, anything else only to itself. *)
Inductive Lazy : Type :=
  | LazyRef (first : nat) (args : list string)
  | Callable (id : nat).

(** The target of a weighted contribution: a bone name or a deferred one. *)
Inductive Target : Type :=
  | Bone (name : string)
  | Deferred (ref : Lazy).

Global Instance Lazy_eq_dec : EqDecision Lazy.
Proof. solve_decision. Defined.

Global Instance Target_eq_dec : EqDecision Target.
Proof. solve_decision. Defined.

Global Instance Lazy_countable : Countable Lazy.
Proof.
  refine (inj_countable'
    (fun l => match l with LazyRef f a => inl (f, a) | Callable i => inr i end)
    (fun s => match s with inl (f, a) => LazyRef f a | inr i => Callable i end) _).
  intros []; reflexivity.
Defined.

Global Instance Target_countable : Countable Target.
Proof.
  refine (inj_countable'
    (fun t => match t with Bone n => inl n | Deferred r => inr r end)
    (fun s => match s with inl n => Bone n | inr r => Deferred r end) _).
  intros []; reflexivity.
Defined.

(** A driver term: an expression template and its variables (name to
    descriptor, an opaque comparable value). *)
Definition Driver : Type := string * gmap string string.

(** An entry [[influence, drivers, lazy_influences]] of [copy_local]. *)
Definition CopyLocal : Type := Qc * list Driver * list Lazy.

(** An entry of [add_local]: one list of driver terms per axis. *)
Definition AddLocal : Type := list Driver * list Driver * list Driver.

(** The key of [add_local]: the orientation, quantized. *)
Definition OrientKey : Type := list Z.

Record OffsetData : Type := {
  off_owner : nat;
  off_node : string;
  off_copy_local : gmap Target CopyLocal;
  off_add_local : gmap OrientKey AddLocal;
  (** [add_orientations]; it has the keys of [add_local], in the order in
      which they were first used. *)
  off_add_orientations : list (OrientKey * list Qc);
  (** [None] until [generate_bones] has run. *)
  off_mch_bones : option (list string);
}.

Inductive ParentGen : Type :=
  | ControlBoneParentOrg (output_bone : string)
  | ControlBoneParentOffset (parent : ParentGen) (data : OffsetData).

(** [__init__], lines 488-494: the attributes other than [parent]. *)
Definition offset_init_data (rig : nat) (node : string) : OffsetData :=
  {| off_owner := rig; off_node := node;
     off_copy_local := ∅; off_add_local := ∅; off_add_orientations := [];
     off_mch_bones := None |}.

Definition offset_init (rig : nat) (parent : ParentGen) (node : string) : ParentGen :=
  ControlBoneParentOffset parent (offset_init_data rig node).

(** [wrap], lines 481-486. *)
Definition offset_wrap (owner : nat) (parent : ParentGen) (node : string) : ParentGen :=
  match parent with
  | ControlBoneParentOffset _ _ => parent
  | _ => offset_init owner parent node
  end.

(** The three ways of passing an influence to [add_copy_local_location]. *)
Inductive Influence : Type :=
  | InfluenceExpr (expr : string) (vars : gmap string string)
  | InfluenceLazy (f : Lazy)
  | InfluenceConst (x : Qc).

(** [add_copy_local_location], lines 496-505. *)
Definition add_copy_local_location (d : OffsetData) (target : Target) (inf : Influence)
    : OffsetData :=
  let '(const, drivers, lazies) := default (Q2Qc 0, [], []) (off_copy_local d !! target) in
  let entry : CopyLocal :=
    match inf with
    | InfluenceExpr e vs => (const, drivers ++ [(e, vs)], lazies)
    | InfluenceLazy f => (const, drivers, lazies ++ [f])
    | InfluenceConst x => ((const + x)%Qc, drivers, lazies)
    end in
  {| off_owner := off_owner d; off_node := off_node d;
     off_copy_local := <[target := entry]> (off_copy_local d);
     off_add_local := off_add_local d;
     off_add_orientations := off_add_orientations d;
     off_mch_bones := off_mch_bones d |}.

(** [round(x)]: to the nearest integer, halves to the even one. *)
Definition py_round (x : Qc) : Z :=
  let f := Qfloor x in
  let twice := Qfloor (x + x)%Qc in
  if (twice =? 2 * f)%Z then f
  else if bool_decide ((x + x)%Qc = Q2Qc (inject_Z (2 * f + 1))) then
         (if Z.even f then f else f + 1)%Z
       else (f + 1)%Z.

(** [add_location_driver], lines 507-516. *)
Definition add_location_driver (d : OffsetData) (orientation : list Qc) (index : nat)
    (expression : string) (variables : gmap string string) : result OffsetData :=
  let key := (fun x => py_round (x * Q2Qc 10000)%Qc) <$> orientation in
  let '(orients, entry) :=
    match off_add_local d !! key with
    | Some e => (off_add_orientations d, e)
    | None => (dict_set (off_add_orientations d) key orientation, ([], [], []))
    end in
  let '(xs, ys, zs) := entry in
  entry' ← match index with
            | 0 => Ok (xs ++ [(expression, variables)], ys, zs)
            | 1 => Ok (xs, ys ++ [(expression, variables)], zs)
            | 2 => Ok (xs, ys, zs ++ [(expression, variables)])
            | _ => Raise IndexError
            end;
  Ok {| off_owner := off_owner d; off_node := off_node d;
        off_copy_local := off_copy_local d;
        off_add_local := <[key := entry']> (off_add_local d);
        off_add_orientations := orients;
        off_mch_bones := off_mch_bones d |}.

(** [__eq__] of the two generator classes, lines 437-438 and 518-524. *)
Fixpoint parent_eqb (self other : ParentGen) : bool :=
  match self, other with
  | ControlBoneParentOrg a, ControlBoneParentOrg b => bool_decide (a = b)
  | ControlBoneParentOffset p d, ControlBoneParentOffset p' d' =>
      parent_eqb p p'
      && bool_decide (off_copy_local d = off_copy_local d')
      && bool_decide (off_add_local d = off_add_local d')
  | _, _ => false
  end.

(** The [output_bone] property, lines 430-432 and 526-528. *)
Fixpoint output_bone (p : ParentGen) : result string :=
  match p with
  | ControlBoneParentOrg b => Ok b
  | ControlBoneParentOffset parent d =>
      match off_mch_bones d with
      | None => Raise (AttributeError "mch_bones")
      | Some [] => output_bone parent
      | Some (b :: bs) => Ok (List.last bs b)
      end
  end.

Section GenerateBones.

(** The armature being generated and the two operations on it that
    [generate_bones] calls; they belong to Rigify and Blender. *)
Variable Armature : Type.
Variable make_derived_name : string -> string -> string -> string.
Variable make_bone : Armature -> string -> Qc -> nat -> option (list Qc) -> string * Armature.

(** [generate_bones], lines 530-540: [make_bone name scale rig orientation]
    with scale 1/4, on behalf of [self.owner]. *)
Definition generate_bones (arm : Armature) (d : OffsetData) : OffsetData * Armature :=
  let '(mch_bones, arm') :=
    if bool_decide (off_copy_local d <> ∅) || bool_decide (off_add_local d <> ∅) then
      let mch_name := make_derived_name (off_node d) "mch" "_poffset" in
      if bool_decide (off_add_local d <> ∅) then
        foldl (fun '(bones, a) entry =>
                 let '(b, a') := make_bone a mch_name (Q2Qc (1 # 4)) (off_owner d) (Some entry.2) in
                 (bones ++ [b], a'))
              ([], arm) (off_add_orientations d)
      else
        let '(b, a') := make_bone arm mch_name (Q2Qc (1 # 4)) (off_owner d) None in ([b], a')
    else ([], arm) in
  ({| off_owner := off_owner d; off_node := off_node d;
      off_copy_local := off_copy_local d;
      off_add_local := off_add_local d;
      off_add_orientations := off_add_orientations d;
      off_mch_bones := Some mch_bones |}, arm').

End GenerateBones.

(** *** The cache of parents of a master (lines 183-204) *)

(** The caches a master gets in [merge_done] (lines 145-146), and the
    components enabled so far. *)
Record MasterCaches : Type := {
  parent_subrig_cache : list nat;
  parent_subrig_names : gmap nat string;
  enabled_components : list nat;
}.

(** Parent generators live in a heap; an address is an identity. *)
Definition py_eq (heap : list ParentGen) (a b : nat) : bool :=
  match heap !! a, heap !! b with
  | Some x, Some y => parent_eqb x y
  | _, _ => false
  end.

(** Lines 192-204, given the object [result] that the rigs have built. *)
Definition dedup_parent (heap : list ParentGen) (m : MasterCaches)
    (result : nat) (node_name : string) : nat * MasterCaches :=
  match List.find (fun previous => py_eq heap previous result) (parent_subrig_cache m) with
  | Some previous => (previous, m)
  | None =>
      (result, {| parent_subrig_cache := parent_subrig_cache m ++ [result];
                  parent_subrig_names := <[result := node_name]> (parent_subrig_names m);
                  enabled_components := enabled_components m ++ [result] |})
  end.

(** [build_parent_for_node].  Lines 187-190 call into the rigs of the
    hierarchy; whatever they do, the outcome is a generator [built] held by
    a new object. *)
Definition build_parent_for_node (stage : string) (heap : list ParentGen)
    (m : MasterCaches) (built : ParentGen) (node_name : string)
    : result (nat * list ParentGen * MasterCaches) :=
  _ ← py_assert (bool_decide (stage = "initialize"));
  let result := length heap in
  let heap' := heap ++ [built] in
  let '(parent, m') := dedup_parent heap' m result node_name in
  Ok (parent, heap', m').

(** ** Query nodes *)

(** [list.sort(key=..., reverse=True)] on integer keys: by descending key,
    elements of equal key in their original order (the sort is stable,
    also when reversed). *)
Fixpoint insert_desc {A : Type} (key : A -> Z) (x : A) (l : list A) : list A :=
  match l with
  | [] => [x]
  | y :: l' => if (key y <=? key x)%Z then x :: y :: l'
               else y :: insert_desc key x l'
  end.

Definition sort_desc {A : Type} (key : A -> Z) (l : list A) : list A :=
  foldr (insert_desc key) [] l.

Section QueryMergeNode.

Context {Q N : Type}.

(** The two methods of [BaseMergeNode] that the class of the query node
    provides. *)
Variable q_can_merge_into : Q -> N -> bool.
Variable q_get_merge_priority : Q -> N -> Z.

(** [QueryMergeNode.initialize] ([node_merger.py], lines 236-238), given
    [self.group.final_nodes]: the value of [self.matched_nodes]. *)
Definition matched_nodes (self : Q) (final_nodes : list (obj N)) : list (obj N) :=
  sort_desc (fun n : obj N => q_get_merge_priority self n.2)
            (filter (fun n : obj N => q_can_merge_into self n.2 = true) final_nodes).

End QueryMergeNode.

(** The query nodes of [skin_rigs.py], lines 347-388: [can_merge_into] is
    [True] for the three classes, the priority is [other.layer] unless
    [ControlQueryNode] overrides it with [-other.layer]. *)
Inductive ControlQueryClass : Type :=
  | BaseControlQueryNode
  | ControlQueryNode
  | PositionQueryNode.

Definition query_can_merge_into (self : ControlQueryClass) (other : ControlBoneNode) : bool :=
  true.

Definition query_get_merge_priority (self : ControlQueryClass) (other : ControlBoneNode) : Z :=
  match self with
  | ControlQueryNode => (- ControlNodeLayer.value (cbn_layer other))%Z
  | _ => ControlNodeLayer.value (cbn_layer other)
  end.

(** The [merged_master] property, lines 365-367: [self.matched_nodes[0]]. *)
Definition query_merged_master (self : ControlQueryClass)
    (final_nodes : list (obj ControlBoneNode)) : result (obj ControlBoneNode) :=
  match matched_nodes query_can_merge_into query_get_merge_priority self final_nodes with
  | [] => Raise IndexError
  | master :: _ => Ok master
  end.

(** ** Mirrors of a control node *)

(** [get_best_mirror], lines 173-181; [self.mirror_siblings] was filled in
    by [merge_done] from [get_merged_siblings()]. *)
Definition get_best_mirror (self : obj ControlBoneNode)
    (siblings : list (obj ControlBoneNode)) : option (obj ControlBoneNode) :=
  let '(base, side, sidez) := cbn_name_split self.2 in
  head (omap (fun flip : NameSplit =>
                match dict_get (mirror_siblings self.2 siblings) flip with
                | Some mirror => if decide (mirror.1 <> self.1) then Some mirror else None
                | None => None
                end)
             [(base, - side, - sidez)%Z; (base, - side, sidez)%Z; (base, side, - sidez)%Z]).

(** ** Parents and reparent requests of a merged group ([skin_rigs.py]) *)

(** [x in l] on a list of parent generators: identity first, then [==]. *)
Definition py_in (heap : list ParentGen) (x : nat) (l : list nat) : bool :=
  existsb (fun item => bool_decide (item = x) || py_eq heap item x) l.

(** [request_reparent], lines 212-215: the new value of
    [self.merged_master.reparent_requests]. *)
Definition request_reparent (heap : list ParentGen) (requests : list nat) (parent : nat)
    : list nat :=
  if py_in heap parent requests then requests else requests ++ [parent].

(** What the nodes of a merged group share while they are initialized:
    the heap of parent generators, the caches and the [reparent_requests]
    of the master, and the [node_parent] of the nodes that have one. *)
Record ParentState : Type := {
  ps_heap : list ParentGen;
  ps_caches : MasterCaches;
  ps_requests : list nat;
  ps_node_parent : gmap nat nat;
}.

(** [build_parent], lines 206-210, for the node [node]; [built] is what
    the rigs would build for it. *)
Definition build_parent (stage : string) (s : ParentState) (node : nat) (node_name : string)
    (built : ParentGen) : result (nat * ParentState) :=
  match ps_node_parent s !! node with
  | Some parent => Ok (parent, s)
  | None =>
      r ← build_parent_for_node stage (ps_heap s) (ps_caches s) built node_name;
      Ok (r.1.1, {| ps_heap := r.1.2; ps_caches := r.2; ps_requests := ps_requests s;
                    ps_node_parent := <[node := r.1.1]> (ps_node_parent s) |})
  end.

(** The end of [ControlBoneNode.initialize], lines 252-256 ("all nodes"). *)
Definition initialize_node_parent (stage : string) (s : ParentState) (node : nat)
    (n : ControlBoneNode) (built : ParentGen) : result ParentState :=
  if cbn_needs_parent n || cbn_needs_reparent n then
    r ← build_parent stage s node (cbn_name n) built;
    if cbn_needs_reparent n then
      Ok {| ps_heap := ps_heap r.2; ps_caches := ps_caches r.2;
            ps_requests := request_reparent (ps_heap r.2) (ps_requests r.2) r.1;
            ps_node_parent := ps_node_parent r.2 |}
    else Ok r.2
  else Ok s.

(** [PositionQueryNode.initialize], lines 399-404: the query node keeps its
    parent for itself and bypasses [build_parent]. *)
Definition position_query_initialize (stage : string) (s : ParentState) (name : string)
    (needs_reparent rig_org : bool) (built : ParentGen) : result (option nat * ParentState) :=
  if needs_reparent then
    r ← build_parent_for_node stage (ps_heap s) (ps_caches s) built name;
    Ok (Some r.1.1,
        {| ps_heap := r.1.2; ps_caches := r.2;
           ps_requests := if negb rig_org
                          then request_reparent r.1.2 (ps_requests s) r.1.1
                          else ps_requests s;
           ps_node_parent := ps_node_parent s |})
  else Ok (None, s).

(** The parents of a master, lines 243-250: [node_parent_list] and
    [use_mix_parent].  Every mirror sibling comes with what the rigs would
    build for it; a [node_parent] that was never assigned is [None], which
    no generator equals. *)
Definition initialize_parents (stage : string) (s : ParentState) (self : nat)
    (mirror_sibling_list : list (nat * string * ParentGen))
    : result (list (option nat) * bool * ParentState) :=
  r ← rfoldl (fun (acc : list nat * ParentState) (node : nat * string * ParentGen) =>
                p ← build_parent stage acc.2 node.1.1 node.1.2 node.2;
                Ok (acc.1 ++ [p.1], p.2))
             ([], s) mirror_sibling_list;
  let node_parent := ps_node_parent r.2 !! self in
  if forallb (fun parent => match node_parent with
                            | Some own => py_eq (ps_heap r.2) parent own
                            | None => false
                            end) r.1
  then Ok ([node_parent], false, r.2)
  else Ok (Some <$> r.1, true, r.2).

Section ControlGenerateBones.

(** The armature and the two operations on it that the master calls:
    [make_derived_name] of Rigify (a suffix left out is the empty one) and
    [self.make_bone(name, scale)], which returns the name the new bone
    got. *)
Variable Armature : Type.
Variable make_derived_name : string -> string -> string -> string.
Variable node_make_bone : Armature -> string -> Qc -> string * Armature.

(** [ControlBoneNode.generate_bones] of a master, lines 284-306:
    [_control_bone], [mix_parent_bone] if there is one, [reparent_bones]. *)
Definition control_generate_bones (name_merged : string)
    (hide_lone_control has_merged use_mix_parent : bool) (node_parent : nat)
    (m : MasterCaches) (reparent_requests : list nat) (arm : Armature)
    : result (string * option string * gmap nat string * Armature) :=
  let name := if hide_lone_control && negb has_merged
              then make_derived_name name_merged "mch" ""
              else name_merged in
  let '(control_bone, arm1) := node_make_bone arm name (Q2Qc 1) in
  let '(mix_parent_bone, reparent_bones, arm2) :=
    if use_mix_parent then
      let '(mix, a) := node_make_bone arm1 (make_derived_name control_bone "mch" "_mix_parent")
                                      (Q2Qc (1 # 2)) in
      (Some mix, (∅ : gmap nat string), a)
    else (None, {[ node_parent := control_bone ]}, arm1) in
  r ← rfoldl (fun (acc : gmap nat string * Armature) (parent : nat) =>
                match acc.1 !! parent with
                | Some _ => Ok acc
                | None =>
                    match parent_subrig_names m !! parent with
                    | None => Raise KeyError
                    | Some parent_name =>
                        let '(bone, a) :=
                          node_make_bone acc.2 (make_derived_name parent_name "mch" "_reparent")
                                         (Q2Qc (1 # 3)) in
                        Ok (<[parent := bone]> acc.1, a)
                    end
                end)
             (reparent_bones, arm2) reparent_requests;
  Ok (control_bone, mix_parent_bone, r.1, r.2).

End ControlGenerateBones.

(** [get_reparent_bone], lines 262-263. *)
Definition get_reparent_bone (reparent_bones : gmap nat string) (parent : nat) : result string :=
  match reparent_bones !! parent with
  | Some bone => Ok bone
  | None => Raise KeyError
  end.

(** ** The hierarchy of rigs ([skin_rigs.py]) *)

(** A rig object, as far as the skin system reads it: its identity,
    whether it is an instance of [BaseSkinRig], what
    [get_control_node_rotation()] returns for it, the rotation of its base
    bone, its [rig_parent_bone], and its [rigify_parent] ([None] for a
    root). *)
#[warnings="-register-all"]
Inductive RigObj : Type :=
  | MkRigObj (id : nat) (is_skin : bool) (control_node_rotation bone_rotation : Quaternion)
             (rig_parent_bone : string) (rigify_parent : option RigObj).

Definition ro_id (rig : RigObj) : nat :=
  match rig with MkRigObj id _ _ _ _ _ => id end.
Definition ro_is_skin (rig : RigObj) : bool :=
  match rig with MkRigObj _ is_skin _ _ _ _ => is_skin end.
Definition ro_control_node_rotation (rig : RigObj) : Quaternion :=
  match rig with MkRigObj _ _ rotation _ _ _ => rotation end.
Definition ro_bone_rotation (rig : RigObj) : Quaternion :=
  match rig with MkRigObj _ _ _ rotation _ _ => rotation end.
Definition ro_rig_parent_bone (rig : RigObj) : string :=
  match rig with MkRigObj _ _ _ _ bone _ => bone end.
Definition ro_rigify_parent (rig : RigObj) : option RigObj :=
  match rig with MkRigObj _ _ _ _ _ parent => parent end.

(** The loop of [_get_parent_rigs], lines 55-60, from a rig that is not
    [None]. *)
Fixpoint parent_rigs_from (rig : RigObj) : list RigObj :=
  match rig with
  | MkRigObj _ _ _ _ _ parent =>
      rig :: match parent with
             | Some p => parent_rigs_from p
             | None => []
             end
  end.

Definition _get_parent_rigs (rig : option RigObj) : list RigObj :=
  match rig with
  | Some r => parent_rigs_from r
  | None => []
  end.

(** The loop of [get_parent_skin_rig], lines 624-632, from [parent]. *)
Fixpoint first_skin_rig (parent : RigObj) : option RigObj :=
  match parent with
  | MkRigObj _ is_skin _ _ _ grandparent =>
      if is_skin then Some parent
      else match grandparent with
           | Some g => first_skin_rig g
           | None => None
           end
  end.

Definition get_parent_skin_rig (self : RigObj) : option RigObj :=
  match ro_rigify_parent self with
  | Some parent => first_skin_rig parent
  | None => None
  end.

(** [get_all_parent_skin_rigs], lines 634-640.  One unit of [fuel] is
    spent per iteration of [while current]. *)
Fixpoint all_parent_skin_rigs_loop (fuel : nat) (current : option RigObj)
    : result (list RigObj) :=
  match current with
  | None => Ok []
  | Some c =>
      match fuel with
      | O => Raise OutOfFuel
      | S fuel' =>
          items ← all_parent_skin_rigs_loop fuel' (get_parent_skin_rig c);
          Ok (c :: items)
      end
  end.

Definition get_all_parent_skin_rigs (self : RigObj) : result (list RigObj) :=
  all_parent_skin_rigs_loop (length (parent_rigs_from self)) (Some self).

(** [BaseSkinChainRigWithRotationOption.get_final_control_node_rotation],
    lines 703-717: the rig the loop stops at, and the rotation read from
    it.  [index] is the raw value of [skin_control_rotation_index]. *)
Fixpoint rotation_rig (rig : RigObj) (index : Z) : RigObj :=
  match rig with
  | MkRigObj _ _ _ _ _ parent =>
      if (0 <? index)%Z then
        match parent with
        | Some p => rotation_rig p (index - 1)
        | None => rig
        end
      else rig
  end.

Definition get_final_control_node_rotation (self : RigObj) (index : Z) : Quaternion :=
  let rig := rotation_rig self index in
  if ro_is_skin rig then ro_control_node_rotation rig else ro_bone_rotation rig.

(** What [is_better_cluster] reads of a control node: [self.rig] and
    [self.name_split]. *)
Record ClusterNode : Type := {
  cn_rig : RigObj;
  cn_name_split : NameSplit;
}.

(** [==] on two lists of rigs: rigs are compared by identity. *)
Definition rigs_eqb (l l' : list RigObj) : bool :=
  bool_decide (ro_id <$> l = ro_id <$> l').

(** [is_better_cluster], lines 120-141. *)
Definition is_better_cluster (self other : ClusterNode) : bool :=
  let my_parents := reverse (_get_parent_rigs (ro_rigify_parent (cn_rig self))) in
  let other_parents := reverse (_get_parent_rigs (ro_rigify_parent (cn_rig other))) in
  if (length other_parents <? length my_parents)
     && rigs_eqb (take (length other_parents) my_parents) other_parents then true
  else if (length my_parents <? length other_parents)
          && rigs_eqb (take (length other_parents) other_parents) my_parents then false
  else
    let side_x_my := Z.abs (cn_name_split self).1.2 in
    let side_z_my := Z.abs (cn_name_split self).2 in
    let side_x_other := Z.abs (cn_name_split other).1.2 in
    let side_z_other := Z.abs (cn_name_split other).2 in
    if ((side_x_my <? side_x_other) && (side_z_my <=? side_z_other)
        || (side_x_my <=? side_x_other) && (side_z_my <? side_z_other))%Z then true
    else if ((side_x_other <? side_x_my) && (side_z_other <=? side_z_my)
             || (side_x_other <=? side_x_my) && (side_z_other <? side_z_my))%Z then false
    else false.

(** ** The choice of the parent rig in the UI ([skin_rigs.py], lines 719-817) *)

(** A pose bone: its name, what [get_rigify_type] returns for it (the
    empty string if it has no rig type), the raw value of its
    [skin_control_rotation_index] parameter (0 if absent), and its
    parent. *)
#[warnings="-register-all"]
Inductive PoseBone : Type :=
  | MkPoseBone (name rigify_type : string) (rotation_index : Z) (parent : option PoseBone).

Definition pb_name (pbone : PoseBone) : string :=
  match pbone with MkPoseBone name _ _ _ => name end.
Definition pb_rigify_type (pbone : PoseBone) : string :=
  match pbone with MkPoseBone _ rigify_type _ _ => rigify_type end.
Definition pb_rotation_index (pbone : PoseBone) : Z :=
  match pbone with MkPoseBone _ _ index _ => index end.
Definition pb_parent (pbone : PoseBone) : option PoseBone :=
  match pbone with MkPoseBone _ _ _ parent => parent end.

(** An item of an enum property: identifier, name, description. *)
Definition EnumItem : Type := string * string * string.

(** [list_parent_enum_items], lines 719-729, from a bone that is not
    [None]; the name of an item is ['%s (%s)' % (pbone.name, rtype)]. *)
Fixpoint list_parent_enum_items (pbone : PoseBone) : list EnumItem :=
  match pbone with
  | MkPoseBone name rtype _ parent =>
      (if decide (rtype = "") then []
       else [(name, name +:+ " (" +:+ rtype +:+ ")", "")])
      ++ match parent with
         | Some p => list_parent_enum_items p
         | None => []
         end
  end.

(** Exceptions that the functions below raise beside those of [exn]. *)
Inductive exn_ext : Type :=
  | Exn (e : exn)
  | ZeroDivisionError
  | OverflowError
  | UnboundLocalError (variable : string).

Inductive outcome (A : Type) : Type :=
  | Done (a : A)
  | Raised (e : exn_ext).
Arguments Done {A} a.
Arguments Raised {A} e.

(** [parent_enum_items], lines 733-746: what is returned, which is also
    the new content of the list [__enum_items] that all calls share.
    [items] is a local variable of the function, read on line 737 before
    it is assigned. *)
Definition parent_enum_items (enum_items : list EnumItem) (active_pose_bone : option PoseBone)
    : outcome (list EnumItem) :=
  match active_pose_bone with
  | None => Raised (UnboundLocalError "items")
  | Some pbone =>
      let items := list_parent_enum_items pbone in
      Done (if decide (items = []) then [("unknown", "unknown", "")] else items)
  end.

(** [l[i]] for an integer [i]: negative indices count from the end. *)
Definition py_index {A : Type} (l : list A) (i : Z) : result A :=
  let n := Z.of_nat (length l) in
  let j := if (i <? 0)%Z then (i + n)%Z else i in
  if (j <? 0)%Z then Raise IndexError
  else match l !! Z.to_nat j with
       | Some x => Ok x
       | None => Raise IndexError
       end.

(** [names.index(x)]: the position of the first element equal to [x]. *)
Fixpoint list_index (names : list string) (x : string) : option nat :=
  match names with
  | [] => None
  | y :: names' => if decide (y = x) then Some 0 else S <$> list_index names' x
  end.

(** What [execute] returns, with what it reports. *)
Inductive OperatorResult : Type :=
  | FINISHED
  | CANCELLED (report : string) (index : Z).

(** [POSE_OT_RigifySkinSyncRotationIndex.execute], lines 785-817.
    [has_rotation_option rig_type] tells whether [rig_lists.rigs] has a rig
    class for the type that is a subclass of
    [BaseSkinChainRigWithRotationOption]; bones are compared by name.  The
    result lists the assignments made to [skin_control_rotation_index], in
    order. *)
Definition execute (has_rotation_option : string -> bool) (pbone : PoseBone)
    (selected_pose_bones : list PoseBone) : result (OperatorResult * list (string * Z)) :=
  let index := pb_rotation_index pbone in
  let items := list_parent_enum_items pbone in
  if (Z.of_nat (length items) <=? index)%Z then Ok (CANCELLED "Invalid index: " index, [])
  else
    item ← py_index items index;
    let parent_name := (item : EnumItem).1.1 in
    Ok (FINISHED,
        omap (fun sel_pbone =>
                let rig_type := pb_rigify_type sel_pbone in
                if bool_decide (rig_type <> "")
                   && bool_decide (pb_name sel_pbone <> pb_name pbone)
                then
                  if has_rotation_option rig_type then
                    let names := (fun item : EnumItem => item.1.1)
                                   <$> list_parent_enum_items sel_pbone in
                    match list_index names parent_name with
                    | Some index => Some (pb_name sel_pbone, Z.of_nat index)
                    | None => None
                    end
                  else None
                else None)
             selected_pose_bones).

(** ** Splitting a spine ([rigs/spines/super_spine2.py]) *)

(** A bound of a slice of a list of length [n]: a negative bound counts
    from the end, and a bound beyond an end is clipped to it. *)
Definition py_slice_bound (n : nat) (i : Z) : nat :=
  Z.to_nat (if (i <? 0)%Z then Z.max (i + Z.of_nat n) 0 else Z.min i (Z.of_nat n)).

(** [l[start:stop]] *)
Definition py_slice {A : Type} (l : list A) (start stop : Z) : list A :=
  let a := py_slice_bound (length l) start in
  let b := py_slice_bound (length l) stop in
  take (b - a) (drop a l).

(** [l[start:]] *)
Definition py_slice_from {A : Type} (l : list A) (start : Z) : list A :=
  drop (py_slice_bound (length l) start) l.

(** The parameters [substitute] reads. *)
Record SuperSpineParams : Type := {
  use_head : bool;
  neck_pos : Z;
  use_tail : bool;
  tail_pos : Z;
  pivot_pos : Z;
}.

(** The edits made to the bones in edit mode, lines 71-90. *)
Inductive BoneEdit : Type :=
  (** [set_bone_parent(bone, get_bone_parent(other))] *)
  | SetParentToParentOf (bone other : string)
  (** [set_bone_parent(bone, parent)] *)
  | SetParent (bone : string) (parent : option string)
  (** [get_bone(bone).use_connect = False] *)
  | Disconnect (bone : string)
  (** [flip_bone(obj, bone)] *)
  | FlipBone (bone : string)
  (** [parent_bone_chain(bones, use_connect=True)] *)
  | ParentBoneChain (bones : list string).

Inductive SubRigClass : Type := BasicSpineRig | BasicTailRig | SuperHeadRig.

(** The parameter [assign_params] overrides for a part. *)
Inductive ParamOverride : Type :=
  | PivotPos (pivot_pos : Z)
  | ConnectChain.

(** A list that may be [None], as a condition. *)
Definition truthy {A : Type} (l : option (list A)) : bool :=
  match l with
  | Some (_ :: _) => true
  | _ => false
  end.

(** [l[0]] *)
Definition first_item {A : Type} (l : list A) : result A :=
  match l with
  | x :: _ => Ok x
  | [] => Raise IndexError
  end.

(** Lines 43-68: [spine_orgs], [head_orgs], [tail_orgs] and the pivot
    position of the spine. *)
Definition split_orgs (params : SuperSpineParams) (orgs : list string)
    : result (list string * option (list string) * option (list string) * Z) :=
  head_split ←
    (if use_head params then
       if (neck_pos params <=? pivot_pos params)%Z then
         Raise (MetarigError "RIGIFY ERROR: Neck cannot be below or the same as pivot.")
       else if (Z.of_nat (length orgs) <=? neck_pos params)%Z then
         Raise (MetarigError "RIGIFY ERROR: Neck is too short.")
       else Ok (py_slice orgs 0 (neck_pos params - 1),
                Some (py_slice_from orgs (neck_pos params - 1)))
     else Ok (orgs, None));
  let spine_orgs : list string := head_split.1 in
  let head_orgs : option (list string) := head_split.2 in
  if use_tail params then
    if (tail_pos params <? 2)%Z then
      Raise (MetarigError "RIGIFY ERROR: Tail is too short.")
    else if (pivot_pos params <=? tail_pos params)%Z then
      Raise (MetarigError "RIGIFY ERROR: Tail cannot be above or the same as pivot.")
    else Ok (py_slice_from spine_orgs (tail_pos params), head_orgs,
             Some (reverse (py_slice spine_orgs 0 (tail_pos params))),
             (pivot_pos params - tail_pos params)%Z)
  else Ok (spine_orgs, head_orgs, None, pivot_pos params).

(** [substitute], lines 38-107, for a rig on [base_bone] whose connected
    children are [children]: the edits made to the bones and the rigs
    instantiated, each with its bone and the parameter it overrides. *)
Definition substitute (params : SuperSpineParams) (base_bone : string) (children : list string)
    : result (list BoneEdit * list (SubRigClass * string * ParamOverride)) :=
  let orgs := base_bone :: children in
  parts ← split_orgs params orgs;
  let spine_orgs := parts.1.1.1 in
  let head_orgs := parts.1.1.2 in
  let tail_orgs := parts.1.2 in
  edits ←
    (if truthy head_orgs || truthy tail_orgs then
       spine_first ← first_item spine_orgs;
       let reparent := if decide (spine_first <> base_bone)
                       then [SetParentToParentOf spine_first base_bone] else [] in
       let disconnect := match head_orgs with
                         | Some (head_first :: _) => [Disconnect head_first]
                         | _ => []
                         end in
       let flip := match tail_orgs with
                   | Some (tail_first :: tail_rest) =>
                       ((fun org => SetParent org None) <$> tail_first :: tail_rest)
                       ++ (FlipBone <$> tail_first :: tail_rest)
                       ++ [SetParent tail_first (Some spine_first);
                           ParentBoneChain (tail_first :: tail_rest)]
                   | _ => []
                   end in
       Ok (reparent ++ disconnect ++ flip)
     else Ok []);
  spine_first ← first_item spine_orgs;
  Ok (edits,
      [(BasicSpineRig, spine_first, PivotPos parts.2)]
      ++ match tail_orgs with
         | Some (tail_first :: _) => [(BasicTailRig, tail_first, ConnectChain)]
         | _ => []
         end
      ++ match head_orgs with
         | Some (head_first :: _) => [(SuperHeadRig, head_first, ConnectChain)]
         | _ => []
         end).

(** ** Stretchy chains ([rigs/skin/stretchy_chain.py]) *)

Global Instance outcome_ret : MRet outcome := fun A a => Done a.
Global Instance outcome_bind : MBind outcome := fun A B k m =>
  match m with
  | Done a => k a
  | Raised e => Raised e
  end.

(** [x / y] on floats *)
Definition py_div (x y : Qc) : outcome Qc :=
  if decide (y = Q2Qc 0) then Raised ZeroDivisionError else Done (x / y)%Qc.

(** [bl_math.clamp(x)]: to the range from 0 to 1. *)
Definition clamp (x : Qc) : Qc :=
  if Qcleb x (Q2Qc 0) then Q2Qc 0 else if Qcleb (Q2Qc 1) x then Q2Qc 1 else x.

(** [self.chain_lengths], line 76:
    [[sum(bone_lengths[0:i]) for i in range(len(orgs)+1)]]. *)
Definition chain_lengths (bone_lengths : list Qc) : list Qc :=
  (fun i => py_sum (take i bone_lengths)) <$> seq 0 (length bone_lengths + 1).

(** What the methods below read of a stretchy chain rig: its identity,
    [num_orgs], [pivot_pos] (which [initialize] has checked to be at least
    0 and less than [num_orgs]), the parameters [skin_chain_falloff],
    [skin_chain_falloff_spherical] (vectors of three entries, read at the
    indices 0, 1 and 2) and [skin_chain_falloff_length], [chain_lengths],
    [middle_pivot_factor] and the identities of its [control_nodes]. *)
Record StretchyChain : Type := {
  sc_rig : nat;
  sc_num_orgs : nat;
  sc_pivot_pos : nat;
  sc_falloff : nat -> Qc;
  sc_falloff_spherical : nat -> bool;
  sc_falloff_length : bool;
  sc_chain_lengths : list Qc;
  sc_middle_pivot_factor : Qc;
  sc_control_nodes : list nat;
}.

(** [use_falloff_curve], lines 117-118. *)
Definition use_falloff_curve (self : StretchyChain) (idx : nat) : bool :=
  negb (Qcleb (sc_falloff self idx) (Q2Qc (-10))).

(** [make_control_node], lines 97-115, given the node that
    [super().make_control_node] has made. *)
Definition stretchy_make_control_node (self : StretchyChain) (node : ControlBoneNode)
    (i : nat) : ControlBoneNode :=
  let '(layer, icon, needs_reparent) :=
    if bool_decide (i = 0) || bool_decide (i = sc_num_orgs self) then
      (ControlNodeLayer.FREE, ControlNodeIcon.FREE,
       if bool_decide (i = 0) then use_falloff_curve self 0 else use_falloff_curve self 2)
    else if bool_decide (i = sc_pivot_pos self) then
      (ControlNodeLayer.MIDDLE_PIVOT, ControlNodeIcon.MIDDLE_PIVOT, use_falloff_curve self 1)
    else (ControlNodeLayer.TWEAK, ControlNodeIcon.TWEAK, cbn_needs_reparent node) in
  {| cbn_rig := cbn_rig node; cbn_org := cbn_org node; cbn_name := cbn_name node;
     cbn_point := cbn_point node; cbn_name_split := cbn_name_split node;
     cbn_size := cbn_size node; cbn_layer := layer; cbn_icon := icon;
     cbn_needs_parent := cbn_needs_parent node; cbn_needs_reparent := needs_reparent;
     cbn_rig_rotation := cbn_rig_rotation node |}.

Section StretchyChain.

(** The projection on the axis from the start of the chain to its end
    (line 92, computed with the vectors of [mathutils]), and [x ** y] on
    floats, a built-in: it raises [OverflowError] when the result is out
    of range.  (The bases of the powers below lie between 0 and 1 when the
    factors do, as the projections of line 90 and the clamped ones do; a
    negative base is not provided for.) *)
Variable axis_projection : Vector -> outcome Qc.
Variable float_pow : Qc -> Qc -> outcome Qc.

(** [apply_falloff_curve], lines 120-133. *)
Definition apply_falloff_curve (self : StretchyChain) (factor : Qc) (idx : nat)
    : outcome Qc :=
  let weight := sc_falloff self idx in
  if sc_falloff_spherical self idx then
    if Qcleb (Q2Qc 0) weight then
      p ← float_pow (Q2Qc 2) weight;
      a ← float_pow (Q2Qc 1 - factor)%Qc p;
      e ← py_div (Q2Qc 1) p;
      float_pow (Q2Qc 1 - a)%Qc e
    else
      p ← float_pow (Q2Qc 2) (- weight)%Qc;
      a ← float_pow factor p;
      e ← py_div (Q2Qc 1) p;
      b ← float_pow (Q2Qc 1 - a)%Qc e;
      Done (Q2Qc 1 - b)%Qc
  else
    p ← float_pow (Q2Qc 2) weight;
    a ← float_pow (Q2Qc 1 - factor)%Qc p;
    Done (Q2Qc 1 - a)%Qc.

(** [get_pivot_projection], lines 88-92. *)
Definition get_pivot_projection (self : StretchyChain) (pos : Vector) (index : nat)
    : outcome Qc :=
  if sc_falloff_length self then
    match sc_chain_lengths self !! index, last (sc_chain_lengths self) with
    | Some before, Some total => py_div before total
    | _, _ => Raised (Exn IndexError)
    end
  else axis_projection pos.

(** [parent.add_copy_local_location(LazyRef(node, 'reparent_bone'),
    influence=x)] on what [wrap] has returned. *)
Definition add_reparent_bone_location (parent : ParentGen) (node : nat) (x : Qc)
    : outcome ParentGen :=
  match parent with
  | ControlBoneParentOffset p d =>
      Done (ControlBoneParentOffset p
              (add_copy_local_location d (Deferred (LazyRef node ["reparent_bone"]))
                                       (InfluenceConst x)))
  | ControlBoneParentOrg _ => Raised (Exn (AttributeError "add_copy_local_location"))
  end.

(** [self.control_nodes[i]] *)
Definition control_node_at (self : StretchyChain) (i : nat) : outcome nat :=
  match sc_control_nodes self !! i with
  | Some node => Done node
  | None => Raised (Exn IndexError)
  end.

(** [extend_control_node_parent], lines 144-174, for the node of index
    [node_index] and name [node_name] at [node_point], owned by the rig
    [node_rig]. *)
Definition extend_control_node_parent (self : StretchyChain) (parent : ParentGen)
    (node_rig node_index : nat) (node_name : string) (node_point : Vector)
    : outcome ParentGen :=
  if bool_decide (node_rig <> sc_rig self)
     || bool_decide (node_index = 0) || bool_decide (node_index = sc_num_orgs self)
  then Done parent
  else
    let parent := offset_wrap (sc_rig self) parent node_name in
    factor ← get_pivot_projection self node_point node_index;
    parent ← (if use_falloff_curve self 0 then
                first ← control_node_at self 0;
                influence ← apply_falloff_curve self (Q2Qc 1 - factor)%Qc 0;
                add_reparent_bone_location parent first influence
              else Done parent);
    parent ← (if use_falloff_curve self 2 then
                final ← match last (sc_control_nodes self) with
                         | Some node => Done node
                         | None => Raised (Exn IndexError)
                         end;
                influence ← apply_falloff_curve self factor 2;
                add_reparent_bone_location parent final influence
              else Done parent);
    if negb (bool_decide (sc_pivot_pos self = 0))
       && negb (bool_decide (node_index = sc_pivot_pos self))
       && use_falloff_curve self 1
    then
      factor ← (if bool_decide (node_index < sc_pivot_pos self)
                then py_div factor (sc_middle_pivot_factor self)
                else py_div (Q2Qc 1 - factor)%Qc (Q2Qc 1 - sc_middle_pivot_factor self)%Qc);
      middle ← control_node_at self (sc_pivot_pos self);
      influence ← apply_falloff_curve self (clamp factor) 1;
      add_reparent_bone_location parent middle influence
    else Done parent.

End StretchyChain.

(** * Properties *)

(** ** Clustering *)

(** Two registered nodes are one step apart when their points are at most
    [epsilon] from each other; they are chained when a sequence of such
    steps leads from one to the other. *)
Definition step (points : list Vector) (i j : nat) : Prop :=
  exists p q, points !! i = Some p /\ points !! j = Some q /\
              (dist_sq p q <= NodeMerger.epsilon * NodeMerger.epsilon)%Qc.

Definition chained (points : list Vector) : nat -> nat -> Prop := rtc (step points).

Lemma Qcleb_le (x y : Qc) : Qcleb x y = true <-> (x <= y)%Qc.
Proof. unfold Qcleb, Qcle. apply Qle_bool_iff. Qed.

Lemma dist_sq_sym (a b : Vector) : dist_sq a b = dist_sq b a.
Proof. destruct a as [[ax ay] az], b as [[bx by_] bz]. unfold dist_sq. ring. Qed.

Lemma dist_sq_refl (a : Vector) : dist_sq a a = Q2Qc 0.
Proof. destruct a as [[ax ay] az]. unfold dist_sq. ring. Qed.

Section PartitionFacts.

Variable points : list Vector.

Lemma elem_of_hits (i j : nat) : j ∈ NodeMerger.hits points points i <-> step points i j.
Proof.
  unfold NodeMerger.hits, step.
  destruct (points !! i) as [p|] eqn:Hi.
  - rewrite elem_of_list_to_set. unfold KDTree.find_range.
    rewrite list_elem_of_filter, elem_of_seq. split.
    + intros [Hw _]. destruct (points !! j) as [q|] eqn:Hj; simpl in Hw; [|discriminate].
      exists p, q. repeat split; auto. injection Hw as Hw.
      unfold KDTree.within in Hw. apply Qcleb_le in Hw. by rewrite dist_sq_sym.
    + intros (p' & q & Hp & Hq & Hd). injection Hp as <-. split.
      * rewrite Hq. simpl. f_equal. unfold KDTree.within. apply Qcleb_le.
        by rewrite dist_sq_sym.
      * apply lookup_lt_Some in Hq. lia.
  - split; [set_solver|]. intros (p & q & Hp & _). discriminate.
Qed.

Lemma step_sym (i j : nat) : step points i j -> step points j i.
Proof.
  intros (p & q & Hp & Hq & Hd). exists q, p. repeat split; auto.
  by rewrite dist_sq_sym.
Qed.

Lemma step_refl (i : nat) : i < length points -> step points i i.
Proof.
  intros Hi. destruct (lookup_lt_is_Some_2 _ _ Hi) as [p Hp].
  exists p, p. repeat split; auto. rewrite dist_sq_refl. by vm_compute.
Qed.

Lemma step_lt (i j : nat) : step points i j -> i < length points /\ j < length points.
Proof.
  intros (p & q & Hp & Hq & _). split; eapply lookup_lt_Some; eauto.
Qed.

Lemma chained_sym (i j : nat) : chained points i j -> chained points j i.
Proof.
  induction 1 as [|x y z Hxy _ IH]; [apply rtc_refl|].
  eapply rtc_r; [exact IH|]. by apply step_sym.
Qed.

Lemma chained_lt (i j : nat) : chained points i j -> i < length points -> j < length points.
Proof.
  induction 1 as [|x y z Hxy _ IH]; auto. intros _. apply IH. by apply step_lt in Hxy as [_ ?].
Qed.

End PartitionFacts.

Section GrowFacts.

Variable points : list Vector.

Local Abbreviation hits := (NodeMerger.hits points points).
Local Abbreviation grow := (NodeMerger.grow points points).

Lemma elem_of_added (pending : gset nat) (y : nat) :
  y ∈ (⋃ (hits <$> elements pending) : gset nat) <-> exists x, x ∈ pending /\ step points x y.
Proof.
  rewrite elem_of_union_list. split.
  - intros (X & HX & Hy). apply list_elem_of_fmap in HX as (x & -> & Hx).
    exists x. split; [by apply elem_of_elements|]. by apply elem_of_hits.
  - intros (x & Hx & Hs). exists (hits x). split; [|by apply elem_of_hits].
    apply list_elem_of_fmap. exists x. split; auto. by apply elem_of_elements.
Qed.

(** The loop stops before its fuel is spent: whenever it goes round again
    with something pending, the merge set has grown. *)
Lemma grow_terminates (universe : gset nat) (fuel : nat) (pending merge_set : gset nat) :
  merge_set ⊆ universe ->
  (forall x y, step points x y -> y ∈ universe) ->
  size universe - size merge_set < fuel ->
  is_Some (grow fuel pending merge_set).
Proof.
  revert pending merge_set. induction fuel as [|fuel IH]; intros pending ms Hsub Hu Hlt; [lia|].
  simpl. destruct (decide (pending = ∅)) as [|Hne]; [eauto|].
  set (added := ⋃ (hits <$> elements pending) : gset nat).
  destruct (decide (added ∖ ms = ∅)) as [Hemp|Hnew].
  - rewrite Hemp. destruct fuel; simpl; eauto.
  - assert (Hadd : added ⊆ universe).
    { intros y Hy. apply elem_of_added in Hy as (x & _ & Hs). eauto. }
    apply IH; auto; [set_solver|].
    assert (size ms < size (ms ∪ added)).
    { apply subset_size. apply set_choose_L in Hnew as [y Hy]. set_solver. }
    assert (size (ms ∪ added) <= size universe) by (apply subseteq_size; set_solver).
    lia.
Qed.

(** What the loop returns is closed under [step] and made of nodes chained
    to those it started from. *)
Lemma grow_closed (fuel : nat) (pending merge_set result : gset nat) :
  grow fuel pending merge_set = Some result ->
  pending ⊆ merge_set ->
  (forall x y, x ∈ merge_set -> x ∉ pending -> step points x y -> y ∈ merge_set) ->
  merge_set ⊆ result /\
  (forall x y, x ∈ result -> step points x y -> y ∈ result) /\
  (forall y, y ∈ result -> exists x, x ∈ merge_set /\ chained points x y).
Proof.
  revert pending merge_set. induction fuel as [|fuel IH]; intros pending ms; simpl.
  - destruct (decide (pending = ∅)) as [->|]; [|discriminate].
    intros [= <-] _ Hcl. repeat split; auto.
    + intros x y Hx. apply Hcl; set_solver.
    + intros y Hy. exists y. split; auto. apply rtc_refl.
  - destruct (decide (pending = ∅)) as [->|Hne].
    + intros [= <-] _ Hcl. repeat split; auto.
      * intros x y Hx. apply Hcl; set_solver.
      * intros y Hy. exists y. split; auto. apply rtc_refl.
    + set (added := ⋃ (hits <$> elements pending) : gset nat).
      intros Hg Hsub Hcl. apply IH in Hg as (H1 & H2 & H3).
      * repeat split; [set_solver|exact H2|].
        intros y Hy. apply H3 in Hy as (x & Hx & Hxy).
        apply elem_of_union in Hx as [Hx|Hx]; [eauto|].
        apply elem_of_added in Hx as (x0 & Hx0 & Hs).
        exists x0. split; [set_solver|]. eapply rtc_l; eauto.
      * set_solver.
      * intros x y Hx Hnp Hs.
        assert (Hxms : x ∈ ms) by set_solver.
        destruct (decide (x ∈ pending)) as [Hp|Hp].
        -- apply elem_of_union. right. apply elem_of_added. eauto.
        -- apply elem_of_union. left. eauto.
Qed.

(** The merge set grown from a node is the set of the nodes chained to it. *)
Lemma find_merge_set_spec (i : nat) :
  i < length points ->
  exists merge_set, NodeMerger.find_merge_set points points i = Some merge_set /\
    forall j, j ∈ merge_set <-> chained points i j.
Proof.
  intros Hi. unfold NodeMerger.find_merge_set.
  destruct (grow_terminates (list_to_set (seq 0 (length points))) (S (length points))
              {[ i ]} {[ i ]}) as [ms Hms].
  - intros x ->%elem_of_singleton. apply elem_of_list_to_set, elem_of_seq. lia.
  - intros x y [_ Hy]%step_lt. apply elem_of_list_to_set, elem_of_seq. lia.
  - rewrite size_list_to_set by apply NoDup_seq. rewrite length_seq. lia.
  - exists ms. split; [exact Hms|].
    apply grow_closed in Hms as (H1 & H2 & H3); [| set_solver | set_solver].
    intros j. split.
    + intros Hj. apply H3 in Hj as (x & ->%elem_of_singleton & Hc). exact Hc.
    + intros Hc. assert (Hin : i ∈ ms) by set_solver.
      clear H3 H1 Hi. induction Hc as [x|x y z Hxy _ IH]; [exact Hin|].
      apply IH. eapply H2; eauto.
Qed.

End GrowFacts.

Section LoopFacts.

Variable points : list Vector.

(** [c] is the set of the nodes chained to node [i]. *)
Definition is_class (i : nat) (c : gset nat) : Prop :=
  i < length points /\ forall j, j ∈ c <-> chained points i j.

(** What holds of [processed] and of the merge sets found so far each
    time round the outer loop. *)
Record partition_inv (processed : gset nat) (acc : list (gset nat)) : Prop := {
  inv_cover : forall j, j ∈ processed <-> exists c, c ∈ acc /\ j ∈ c;
  inv_class : forall c, c ∈ acc -> exists i, is_class i c;
  inv_disjoint : forall a b ca cb,
    acc !! a = Some ca -> acc !! b = Some cb -> a <> b -> ca ## cb;
}.

Lemma partition_inv_empty : partition_inv ∅ [].
Proof.
  split.
  - intros j. split; [set_solver|]. intros (c & Hc & _). by apply elem_of_nil in Hc.
  - intros c Hc. by apply elem_of_nil in Hc.
  - intros a b ca cb Ha. by rewrite lookup_nil in Ha.
Qed.

Lemma class_disjoint_processed processed acc i merge_set :
  partition_inv processed acc -> i ∉ processed -> is_class i merge_set ->
  merge_set ## processed.
Proof.
  intros Hinv Hi [_ Hms] j Hj Hp.
  apply (inv_cover _ _ Hinv) in Hp as (c & Hc & Hjc).
  destruct (inv_class _ _ Hinv c Hc) as (k & _ & Hk).
  apply Hi, (inv_cover _ _ Hinv). exists c. split; auto.
  apply Hk. etrans; [by apply Hk|]. apply chained_sym. by apply Hms.
Qed.

Lemma partition_inv_snoc processed acc i merge_set :
  partition_inv processed acc -> is_class i merge_set -> merge_set ## processed ->
  partition_inv (processed ∪ merge_set) (acc ++ [merge_set]).
Proof.
  intros Hinv Hcl Hdisj. split.
  - intros j. rewrite elem_of_union, (inv_cover _ _ Hinv). split.
    + intros [(c & Hc & Hj)|Hj].
      * exists c. split; auto. apply elem_of_app. by left.
      * exists merge_set. split; auto. apply elem_of_app. right. by apply list_elem_of_singleton.
    + intros (c & [Hc| ->%list_elem_of_singleton]%elem_of_app & Hj); eauto.
  - intros c [Hc| ->%list_elem_of_singleton]%elem_of_app; eauto using inv_class.
  - assert (Hold : forall a ca, acc !! a = Some ca -> ca ⊆ processed).
    { intros a ca Ha j Hj. apply (inv_cover _ _ Hinv). exists ca. split; auto.
      eapply list_elem_of_lookup_2; eauto. }
    intros a b ca cb Ha Hb Hab.
    apply lookup_snoc_Some in Ha as [[_ Ha]|[Ha <-]];
    apply lookup_snoc_Some in Hb as [[_ Hb]|[Hb <-]].
    + eapply (inv_disjoint _ _ Hinv); eauto.
    + apply Hold in Ha. set_solver.
    + apply Hold in Hb. set_solver.
    + lia.
Qed.

Lemma partition_loop_spec (todo : list nat) (processed : gset nat) (acc : list (gset nat)) :
  partition_inv processed acc ->
  Forall (fun i => i < length points) todo ->
  exists processed' clusters,
    NodeMerger.partition_loop points (NodeMerger.collect) todo processed (points, acc)
      = Ok (points, clusters) /\
    partition_inv processed' clusters /\
    processed ⊆ processed' /\
    (forall i, i ∈ todo -> i ∈ processed').
Proof.
  revert processed acc. induction todo as [|i todo IH]; intros processed acc Hinv Hlt; simpl.
  - exists processed, acc. split_and!; auto. intros i Hi. by apply elem_of_nil in Hi.
  - apply Forall_cons in Hlt as [Hi Hlt].
    destruct (decide (i ∈ processed)) as [Hin|Hnin].
    + destruct (IH processed acc Hinv Hlt) as (p' & cs & Heq & Hinv' & Hsub & Hall).
      exists p', cs. split_and!; auto.
      intros j [->|Hj]%elem_of_cons; auto.
    + destruct (find_merge_set_spec points i Hi) as (ms & -> & Hms).
      assert (Hcl : is_class i ms) by (split; auto).
      assert (Hdisj : ms ## processed) by eauto using class_disjoint_processed.
      rewrite bool_decide_eq_true_2 by exact Hdisj. simpl.
      assert (Hinv1 : partition_inv (processed ∪ ms) (acc ++ [ms]))
        by (eapply partition_inv_snoc; eauto).
      destruct (IH (processed ∪ ms) (acc ++ [ms]) Hinv1 Hlt)
        as (p' & cs & Heq & Hinv' & Hsub & Hall).
      exists p', cs. split_and!; auto; [set_solver|].
      intros j [->|Hj]%elem_of_cons; auto.
      apply Hsub, elem_of_union. right. apply Hms, rtc_refl.
Qed.

End LoopFacts.

(** C3.  Clustering always succeeds, and the merge sets it finds are the
    classes of the nodes under "chained by steps of at most epsilon": two
    registered nodes are chained exactly when one merge set holds both,
    merge sets found at different times are disjoint (so none holds a node
    chained to a node of another), all their members are registered nodes,
    and every registered node is in one of them. *)
Theorem merge_sets_partition (points : list Vector) :
  exists clusters,
    NodeMerger.merge_sets points = Ok clusters /\
    (forall i j, i < length points -> j < length points ->
       (chained points i j <-> exists c, c ∈ clusters /\ i ∈ c /\ j ∈ c)) /\
    (forall a b ca cb,
       clusters !! a = Some ca -> clusters !! b = Some cb -> a <> b ->
       ca ## cb /\ forall i j, i ∈ ca -> j ∈ cb -> ~ chained points i j) /\
    (forall c i, c ∈ clusters -> i ∈ c -> i < length points) /\
    (forall i, i < length points -> exists c, c ∈ clusters /\ i ∈ c).
Proof.
  destruct (partition_loop_spec points (seq 0 (length points)) ∅ [])
    as (processed & clusters & Heq & Hinv & _ & Hall).
  { apply partition_inv_empty. }
  { apply Forall_forall. intros i Hi%elem_of_seq. lia. }
  assert (Hcover : forall i, i < length points -> exists c, c ∈ clusters /\ i ∈ c).
  { intros i Hi. apply (inv_cover _ _ _ Hinv), Hall, elem_of_seq. lia. }
  assert (Hsame : forall c i j, c ∈ clusters -> i ∈ c -> j ∈ c -> chained points i j).
  { intros c i j Hc Hi Hj. destruct (inv_class _ _ _ Hinv c Hc) as (k & _ & Hk).
    etrans; [apply chained_sym|]; by apply Hk. }
  assert (Hclosed : forall c i j, c ∈ clusters -> i ∈ c -> chained points i j -> j ∈ c).
  { intros c i j Hc Hi Hij. destruct (inv_class _ _ _ Hinv c Hc) as (k & _ & Hk).
    apply Hk. etrans; [by apply Hk|]. exact Hij. }
  exists clusters. split; [unfold NodeMerger.merge_sets; by rewrite Heq|]. split_and!.
  - intros i j Hi Hj. split.
    + intros Hij. destruct (Hcover i) as (c & Hc & Hic); auto.
      exists c. eauto.
    + intros (c & Hc & Hic & Hjc). eauto.
  - intros a b ca cb Ha Hb Hab. split.
    + eapply (inv_disjoint _ _ _ Hinv); eauto.
    + intros i j Hi Hj Hij.
      assert (Hca : ca ∈ clusters) by (eapply list_elem_of_lookup_2; eauto).
      assert (j ∈ ca) by eauto.
      eapply (inv_disjoint _ _ _ Hinv a b ca cb); eauto.
  - intros c i Hc Hi. destruct (inv_class _ _ _ Hinv c Hc) as (k & Hk & Hcl).
    eapply chained_lt; [by apply Hcl|exact Hk].
  - exact Hcover.
Qed.

(** ** The group class of a cluster *)

(** [needle in hay] on strings. *)
Fixpoint contains (needle hay : string) : bool :=
  String.prefix needle hay
  || match hay with
     | EmptyString => false
     | String _ hay' => contains needle hay'
     end.

Definition incomparable (c d : PyClass) : Prop :=
  issubclass c d = false /\ issubclass d c = false.

(** The classes of [cs] form a single-inheritance hierarchy: a method
    resolution order starts with the class itself and ends with the order
    of each of its ancestors. *)
Definition single_inheritance (cs : list PyClass) : Prop :=
  Forall (fun c =>
            head (cls_mro c) = Some (cls_name c) /\
            Forall (fun d => issubclass c d = true -> cls_mro d `suffix_of` cls_mro c) cs)
         cs.

Lemma prefix_refl_string (s : string) : String.prefix s s = true.
Proof.
  induction s as [|a s IH]; simpl; auto. destruct (Ascii.ascii_dec a a); congruence.
Qed.

Lemma contains_append_r (s t u : string) : contains s u = true -> contains s (t +:+ u) = true.
Proof.
  intros Hu. induction t as [|a t IH]; simpl; auto.
  rewrite IH. apply orb_true_r.
Qed.

Lemma contains_append_l (s t u : string) : contains s t = true -> contains s (t +:+ u) = true.
Proof.
  revert s. induction t as [|a t IH]; intros s; simpl.
  - destruct s; simpl; [by destruct u|discriminate].
  - intros [Hp|Hc]%orb_true_iff.
    + apply orb_true_iff. left. clear IH. revert a t Hp.
      induction s as [|b s IHs]; intros a t; simpl; auto.
      destruct (Ascii.ascii_dec b a); [|discriminate]. destruct t as [|a' t]; simpl.
      * destruct s; [by destruct u|discriminate].
      * apply IHs.
    + rewrite IH by exact Hc. apply orb_true_r.
Qed.

Lemma contains_refl (s : string) : contains s s = true.
Proof. destruct s; simpl; auto. destruct (Ascii.ascii_dec a a); [|congruence]. by rewrite prefix_refl_string. Qed.

Section GroupClassFacts.

Context {N : Type} `{MergeNode N}.

(** The message names the member at which the conflict was found and the
    base bone of its rig. *)
Lemma conflict_message_names_item (running cls : PyClass) (item : N) :
  contains (node_name item) (conflict_message running cls item) = true /\
  contains (base_bone (node_rig item)) (conflict_message running cls item) = true /\
  contains (cls_repr running) (conflict_message running cls item) = true /\
  contains (cls_repr cls) (conflict_message running cls item) = true.
Proof.
  unfold conflict_message. split_and!.
  - do 5 apply contains_append_r. apply contains_append_l, contains_refl.
  - do 7 apply contains_append_r. apply contains_refl.
  - apply contains_append_r, contains_append_l, contains_refl.
  - do 3 apply contains_append_r. apply contains_append_l, contains_refl.
Qed.

Lemma issubclass_refl_in (cs : list PyClass) (c : PyClass) :
  single_inheritance cs -> c ∈ cs -> issubclass c c = true.
Proof.
  intros Hsi Hc. apply (proj1 (Forall_forall _ _) Hsi) in Hc as [Hhd _].
  apply bool_decide_eq_true. destruct (cls_mro c) as [|a l]; simplify_eq/=.
  apply elem_of_cons. by left.
Qed.

Lemma issubclass_trans_in (cs : list PyClass) (c d e : PyClass) :
  single_inheritance cs -> c ∈ cs -> d ∈ cs ->
  issubclass c d = true -> issubclass d e = true -> issubclass c e = true.
Proof.
  intros Hsi Hc Hd Hcd Hde.
  apply (proj1 (Forall_forall _ _) Hsi) in Hc as [_ Hsuf].
  pose proof (proj1 (Forall_forall _ _) Hsuf d Hd Hcd) as [k Hk].
  apply bool_decide_eq_true. apply bool_decide_eq_true in Hde.
  rewrite Hk. apply elem_of_app. by right.
Qed.

(** Two ancestors of one class are comparable. *)
Lemma ancestors_comparable (cs : list PyClass) (g c d : PyClass) :
  single_inheritance cs -> g ∈ cs -> c ∈ cs -> d ∈ cs ->
  issubclass g c = true -> issubclass g d = true ->
  issubclass c d = true \/ issubclass d c = true.
Proof.
  intros Hsi Hg Hc Hd Hgc Hgd.
  pose proof (proj1 (Forall_forall _ _) Hsi g Hg) as [_ Hsuf].
  pose proof (proj1 (Forall_forall _ _) Hsuf c Hc Hgc) as Hsc.
  pose proof (proj1 (Forall_forall _ _) Hsuf d Hd Hgd) as Hsd.
  pose proof (issubclass_refl_in cs c Hsi Hc) as Hcc.
  pose proof (issubclass_refl_in cs d Hsi Hd) as Hdd.
  apply bool_decide_eq_true in Hcc, Hdd.
  destruct (suffix_weak_total _ _ _ Hsc Hsd) as [[k Hk]|[k Hk]].
  - right. apply bool_decide_eq_true. rewrite Hk. apply elem_of_app. by right.
  - left. apply bool_decide_eq_true. rewrite Hk. apply elem_of_app. by right.
Qed.

Lemma group_class_step_ok (g g1 : PyClass) (x : N) :
  group_class_step g x = Ok g1 ->
  (issubclass (group_class x) g = true /\ g1 = group_class x) \/
  (issubclass g (group_class x) = true /\ g1 = g).
Proof.
  unfold group_class_step.
  destruct (issubclass (group_class x) g); [intros [= <-]; by left|].
  destruct (issubclass g (group_class x)); simpl; [intros [= <-]; by right|discriminate].
Qed.

Lemma group_class_step_raise (g : PyClass) (x : N) (e : exn) :
  group_class_step g x = Raise e ->
  incomparable g (group_class x) /\
  e = MetarigError (conflict_message g (group_class x) x).
Proof.
  unfold group_class_step, incomparable.
  destruct (issubclass (group_class x) g); [discriminate|].
  destruct (issubclass g (group_class x)); simpl; [discriminate|]. by intros [= <-].
Qed.

(** When the walk over a cluster ends without an error, the class it ends
    on derives from the class of every member. *)
Lemma group_class_walk_ok (cs : list PyClass) (rest : list N) (g g' : PyClass) :
  single_inheritance cs -> g ∈ cs -> Forall (fun x => group_class x ∈ cs) rest ->
  rfoldl group_class_step g rest = Ok g' ->
  g' ∈ cs /\ issubclass g' g = true /\
  Forall (fun x => issubclass g' (group_class x) = true) rest.
Proof.
  intros Hsi. revert g. induction rest as [|x rest IH]; intros g Hg Hall; simpl.
  - intros [= <-]. split_and!; eauto using issubclass_refl_in.
  - apply Forall_cons in Hall as [Hx Hall].
    destruct (group_class_step g x) as [g1|e] eqn:Hstep; simpl; [|discriminate].
    intros Hr.
    apply group_class_step_ok in Hstep as [[Hxg ->]|[Hgx ->]].
    + destruct (IH _ Hx Hall Hr) as (Hg' & Hsub & Hrest).
      split; [exact Hg'|]. split; [eauto using issubclass_trans_in|].
      apply Forall_cons. split; [exact Hsub|exact Hrest].
    + destruct (IH _ Hg Hall Hr) as (Hg' & Hsub & Hrest).
      split; [exact Hg'|]. split; [exact Hsub|].
      apply Forall_cons. split; [eauto using issubclass_trans_in|exact Hrest].
Qed.

(** The only error of the walk is the conflict error, raised at a member
    whose class is incomparable with the running one. *)
Lemma group_class_walk_raise (rest : list N) (g : PyClass) (e : exn) :
  rfoldl group_class_step g rest = Raise e ->
  exists running item,
    e = MetarigError (conflict_message running (group_class item) item) /\
    item ∈ rest /\
    (running = g \/ exists earlier, earlier ∈ rest /\ running = group_class earlier) /\
    incomparable running (group_class item).
Proof.
  revert g. induction rest as [|x rest IH]; intros g; simpl; [discriminate|].
  destruct (group_class_step g x) as [g1|e1] eqn:Hstep; simpl.
  - intros Hr. destruct (IH _ Hr) as (running & item & -> & Hitem & Hrun & Hinc).
    exists running, item. split; [reflexivity|].
    split; [by apply elem_of_cons; right|]. split; [|exact Hinc].
    destruct Hrun as [->|(earlier & Hin & ->)].
    + apply group_class_step_ok in Hstep as [[_ ->]|[_ ->]]; [|by left].
      right. exists x. split; auto. apply elem_of_cons. by left.
    + right. exists earlier. split; auto. apply elem_of_cons. by right.
  - intros [= <-]. apply group_class_step_raise in Hstep as [Hinc ->].
    exists g, x. split; [reflexivity|]. split; [by apply elem_of_cons; left|].
    split; [by left|exact Hinc].
Qed.

End GroupClassFacts.

(** In a cluster whose group classes form a single-inheritance hierarchy
    and two of whose members have incomparable group classes, choosing the
    group class raises [MetarigError].  The error is raised at a member
    [item] whose class is incomparable with the running class, which is
    the class of another member; its message names these two classes, the
    name of [item] and the base bone of the rig of [item]. *)
Lemma select_group_class_conflict {N : Type} `{MergeNode N}
    (merge_list : list N) (x y : N) :
  single_inheritance (group_class <$> merge_list) ->
  x ∈ merge_list -> y ∈ merge_list ->
  incomparable (group_class x) (group_class y) ->
  exists running item earlier,
    select_group_class merge_list
      = Raise (MetarigError (conflict_message running (group_class item) item)) /\
    item ∈ merge_list /\ earlier ∈ merge_list /\ running = group_class earlier /\
    incomparable running (group_class item) /\
    contains (cls_repr running) (conflict_message running (group_class item) item) = true /\
    contains (cls_repr (group_class item))
             (conflict_message running (group_class item) item) = true /\
    contains (node_name item) (conflict_message running (group_class item) item) = true /\
    contains (base_bone (node_rig item))
             (conflict_message running (group_class item) item) = true.
Proof.
  intros Hsi Hx Hy [Hxy Hyx].
  assert (Hin : forall z, z ∈ merge_list -> group_class z ∈ group_class <$> merge_list).
  { intros z Hz. apply list_elem_of_fmap. eauto. }
  destruct merge_list as [|first rest]; [by apply elem_of_nil in Hx|].
  unfold select_group_class.
  destruct (rfoldl group_class_step (group_class first) rest) as [g'|e] eqn:Hwalk.
  - exfalso.
    assert (Hf : group_class first ∈ group_class <$> first :: rest)
      by (apply Hin, elem_of_cons; by left).
    assert (Hr : Forall (fun z => group_class z ∈ group_class <$> first :: rest) rest).
    { apply Forall_forall. intros z Hz. apply Hin, elem_of_cons. by right. }
    destruct (group_class_walk_ok _ _ _ _ Hsi Hf Hr Hwalk) as (Hg' & Hfirst & Hrest).
    assert (Hall : forall z, z ∈ first :: rest -> issubclass g' (group_class z) = true).
    { intros z [->|Hz]%elem_of_cons; auto. by apply (proj1 (Forall_forall _ _) Hrest). }
    destruct (ancestors_comparable _ g' (group_class x) (group_class y) Hsi); auto; congruence.
  - apply group_class_walk_raise in Hwalk as (running & item & -> & Hitem & Hrun & Hinc).
    destruct (conflict_message_names_item running (group_class item) item)
      as (Hn & Hb & Hr & Hc).
    assert (Hearlier : exists earlier, earlier ∈ first :: rest /\ running = group_class earlier).
    { destruct Hrun as [->|(earlier & Hin' & ->)].
      - exists first. split; auto. apply elem_of_cons. by left.
      - exists earlier. split; auto. apply elem_of_cons. by right. }
    destruct Hearlier as (earlier & Hearlier & Hrunning).
    exists running, item, earlier. split_and!; auto. apply elem_of_cons. by right.
Qed.

(** *** Examples: nodes of two rigs with unrelated group classes *)

Definition q (z : Z) : Qc := Q2Qc (inject_Z z).

Definition origin : Vector := (q 0, q 0, q 0).

Definition spine_rig : Rig := {| rig_id := 1; base_bone := "spine"; chain_priority := 0 |}.
Definition tail_rig : Rig := {| rig_id := 2; base_bone := "tail"; chain_priority := 0 |}.

Definition ChainGroup : PyClass :=
  {| cls_name := "ChainGroup"; cls_mro := ["ChainGroup"; "MergeGroup"; "object"] |}.
Definition LoopGroup : PyClass :=
  {| cls_name := "LoopGroup"; cls_mro := ["LoopGroup"; "MergeGroup"; "object"] |}.
(** [class BothGroup(ChainGroup, LoopGroup)] *)
Definition BothGroup : PyClass :=
  {| cls_name := "BothGroup";
     cls_mro := ["BothGroup"; "ChainGroup"; "LoopGroup"; "MergeGroup"; "object"] |}.

Definition chain_node : MainMergeNode :=
  {| mmn_rig := spine_rig; mmn_name := "a"; mmn_point := origin; mmn_group_class := ChainGroup |}.
Definition loop_node : MainMergeNode :=
  {| mmn_rig := tail_rig; mmn_name := "c"; mmn_point := origin; mmn_group_class := LoopGroup |}.
Definition both_node : MainMergeNode :=
  {| mmn_rig := tail_rig; mmn_name := "b"; mmn_point := origin; mmn_group_class := BothGroup |}.

(** C4 fails as stated: the two nodes below are registered at one place
    and have incomparable group classes; the error is raised, but its
    message names the base bone of the rig of the second of them (in name
    order) and not that of the first. *)
Lemma group_class_conflict_names_one_rig :
  sort_by node_name [loop_node; chain_node] = [chain_node; loop_node] /\
  incomparable (group_class chain_node) (group_class loop_node) /\
  exists msg,
    select_group_class [chain_node; loop_node] = Raise (MetarigError msg) /\
    initialize [loop_node; chain_node] = Raise (MetarigError msg) /\
    contains (base_bone (node_rig loop_node)) msg = true /\
    contains (base_bone (node_rig chain_node)) msg = false.
Proof.
  split; [reflexivity|]. split; [by split|].
  eexists. split; [reflexivity|]. split; [by vm_compute|]. by split.
Qed.

(** With multiple inheritance a conflict can go unnoticed: a class that
    derives from both incomparable classes, met between them, becomes the
    running class and is a subclass of everything that follows. *)
Lemma group_class_conflict_hidden :
  sort_by node_name [loop_node; both_node; chain_node] = [chain_node; both_node; loop_node] /\
  incomparable (group_class chain_node) (group_class loop_node) /\
  select_group_class [chain_node; both_node; loop_node] = Ok BothGroup.
Proof. split; [reflexivity|]. split; [by split|reflexivity]. Qed.

(** ** MergeGroup.build *)

(** A loop raises when its body does so at one of the elements, and the
    exception is one the body can raise. *)
Lemma rfoldl_raises {A B : Type} (P : exn -> Prop) (f : A -> B -> result A) (l : list B) (x : B) :
  x ∈ l ->
  (forall a, exists e, f a x = Raise e /\ P e) ->
  (forall a y e, f a y = Raise e -> P e) ->
  forall a, exists e, rfoldl f a l = Raise e /\ P e.
Proof.
  intros Hx Hbad Honly. induction l as [|y l IH]; [by apply elem_of_nil in Hx|].
  intros a. simpl. apply elem_of_cons in Hx as [<-|Hx].
  - destruct (Hbad a) as (e & -> & He). eauto.
  - destruct (f a y) as [a'|e] eqn:Hf; simpl; eauto.
Qed.

Lemma py_max_from_in {A : Type} (key : A -> Z) (best : A) (l : list A) :
  py_max_from key best l = best \/ py_max_from key best l ∈ l.
Proof.
  revert best. induction l as [|x l IH]; intros best; simpl; [by left|].
  destruct (key best <? key x)%Z.
  - right. destruct (IH x) as [->|Hin]; apply elem_of_cons; auto.
  - destruct (IH best) as [->|Hin]; [by left|]. right. apply elem_of_cons. auto.
Qed.

Lemma py_max_in {A : Type} (key : A -> Z) (l : list A) (best : A) :
  py_max key l = Ok best -> best ∈ l.
Proof.
  destruct l as [|x l]; simpl; [discriminate|]. intros [= <-].
  destruct (py_max_from_in key x l) as [->|Hin]; apply elem_of_cons; auto.
Qed.

Lemma py_max_ok {A : Type} (key : A -> Z) (l : list A) :
  l <> [] -> exists best, py_max key l = Ok best.
Proof. destruct l; [done|]. simpl. eauto. Qed.

Lemma elem_of_objects {N : Type} (l : list N) (i : nat) (n : N) :
  (i, n) ∈ objects l <-> l !! i = Some n.
Proof.
  unfold objects. rewrite list_elem_of_lookup. split.
  - intros (k & Hk). rewrite list_lookup_imap in Hk.
    destruct (l !! k) eqn:Hl; simplify_eq/=. done.
  - intros Hl. exists i. rewrite list_lookup_imap, Hl. done.
Qed.

Lemma objects_fst {N : Type} (l : list N) : (objects l).*1 = seq 0 (length l).
Proof.
  unfold objects. apply list_eq. intros i.
  rewrite list_lookup_fmap, list_lookup_imap.
  destruct (l !! i) eqn:Hl; simpl.
  - symmetry. apply lookup_seq. split; auto. by apply lookup_lt_Some in Hl.
  - symmetry. apply lookup_seq_ge. by apply lookup_ge_None in Hl.
Qed.

Section BuildFacts.

Context {N : Type} `{MergeNode N}.

Variable nodes : list N.

Lemma elem_of_main_nodes (n : obj N) :
  n ∈ main_nodes nodes <-> nodes !! n.1 = Some n.2 /\ is_main n.2 = true.
Proof.
  unfold main_nodes. rewrite list_elem_of_filter. destruct n as [i n]. simpl.
  rewrite elem_of_objects. tauto.
Qed.

Lemma main_nodes_NoDup : NoDup ((main_nodes nodes).*1).
Proof.
  unfold main_nodes.
  assert (Hnd : NoDup (objects nodes).*1) by (rewrite objects_fst; apply NoDup_seq).
  revert Hnd. generalize (objects nodes). intros l. induction l as [|x l IH]; simpl.
  - intros _. constructor.
  - intros [Hx Hl]%NoDup_cons. rewrite filter_cons. destruct (decide _); simpl; auto.
    apply NoDup_cons. split; auto. intros Hin. apply Hx.
    apply list_elem_of_fmap in Hin as (y & -> & Hy%list_elem_of_filter).
    apply list_elem_of_fmap. exists y. tauto.
Qed.

Lemma main_id_lt (i : nat) : i ∈ (main_nodes nodes).*1 -> i < length nodes.
Proof.
  intros (n & -> & Hn%elem_of_main_nodes)%list_elem_of_fmap.
  destruct Hn as [Hn _]. by apply lookup_lt_Some in Hn.
Qed.

(** Every bucket of the rig table holds main nodes of the rig it is
    filed under. *)
Definition buckets_ok (tbl : list (nat * list (obj N))) : Prop :=
  forall r b n, (r, b) ∈ tbl -> n ∈ b ->
    rig_id (node_rig n.2) = r /\ n ∈ main_nodes nodes.

Lemma rig_table_append_ok (tbl : list (nat * list (obj N))) (node : obj N) :
  buckets_ok tbl -> node ∈ main_nodes nodes -> buckets_ok (rig_table_append tbl node).
Proof.
  intros Hok Hnode. induction tbl as [|[r b] tbl IH]; simpl.
  - intros r' b' n [= -> ->]%list_elem_of_singleton Hn.
    apply list_elem_of_singleton in Hn as ->. done.
  - assert (Htl : buckets_ok tbl).
    { intros r' b' n Hin. apply Hok. apply elem_of_cons. by right. }
    destruct (decide (r = rig_id (node_rig node.2))) as [->|Hne].
    + intros r' b' n [[= -> ->]|Hin]%elem_of_cons Hn.
      * apply elem_of_app in Hn as [Hn|Hn%list_elem_of_singleton].
        -- eapply Hok; [|exact Hn]. apply elem_of_cons. by left.
        -- by subst.
      * eapply Htl; eauto.
    + intros r' b' n [[= -> ->]|Hin]%elem_of_cons Hn.
      * eapply Hok; [|exact Hn]. apply elem_of_cons. by left.
      * eapply IH; eauto.
Qed.

Lemma rig_table_ok : buckets_ok (rig_table nodes).
Proof.
  unfold rig_table.
  assert (Hgen : forall l tbl, (forall n, n ∈ l -> n ∈ main_nodes nodes) ->
                   buckets_ok tbl -> buckets_ok (foldl rig_table_append tbl l)).
  { induction l as [|x l IH]; intros tbl Hl Hok; simpl; auto.
    apply IH.
    - intros n Hn. apply Hl. apply elem_of_cons. by right.
    - apply rig_table_append_ok; auto. apply Hl. apply elem_of_cons. by left. }
  apply Hgen; auto. intros r b n Hin. by apply elem_of_nil in Hin.
Qed.

(** The rig of the node with a given identity. *)
Definition rig_of (i : nat) : option nat :=
  (fun n => rig_id (node_rig n)) <$> nodes !! i.

(** Every edge of the merge table joins two main nodes of different rigs. *)
Definition edges_ok (table : gmap nat (gset nat)) : Prop :=
  forall t c, c ∈ table !!! t ->
    t ∈ (main_nodes nodes).*1 /\ c ∈ (main_nodes nodes).*1 /\ rig_of c <> rig_of t.

Lemma edges_ok_init : edges_ok (merge_table_init nodes).
Proof.
  intros t c. unfold merge_table_init. rewrite lookup_total_alt.
  destruct (list_to_map _ !! t) as [s|] eqn:Hs; simpl; [|set_solver].
  apply elem_of_list_to_map_2 in Hs.
  apply list_elem_of_fmap in Hs as (n & [= -> ->] & _). set_solver.
Qed.

Lemma main_rig_of (n : obj N) :
  n ∈ main_nodes nodes -> rig_of n.1 = Some (rig_id (node_rig n.2)).
Proof. intros [Hn _]%elem_of_main_nodes. unfold rig_of. by rewrite Hn. Qed.

Lemma add_edge_ok (node : obj N) (table table' : gmap nat (gset nat))
    (entry : nat * list (obj N)) :
  node ∈ main_nodes nodes -> entry ∈ rig_table nodes ->
  edges_ok table -> add_edge node table entry = Ok table' -> edges_ok table'.
Proof.
  intros Hnode Hentry Hok. destruct entry as [rig tgt]. unfold add_edge.
  destruct (decide (rig <> _)) as [Hne|]; [|by intros [= <-]].
  destruct (py_max _ _) as [best|] eqn:Hmax; simpl; [|discriminate].
  intros [= <-]. apply py_max_in, list_elem_of_filter in Hmax as [_ Hbest].
  destruct (rig_table_ok _ _ _ Hentry Hbest) as [Hrig Hmain].
  intros t c. destruct (decide (t = best.1)) as [->|Hnt].
  - rewrite lookup_total_insert_eq. intros [Hc|Hc%elem_of_singleton]%elem_of_union.
    + by apply Hok.
    + subst c. split_and!.
      * apply list_elem_of_fmap. eauto.
      * apply list_elem_of_fmap. eauto.
      * rewrite (main_rig_of _ Hnode), (main_rig_of _ Hmain). congruence.
  - rewrite lookup_total_insert_ne by done. apply Hok.
Qed.

Lemma build_merge_table_ok (table : gmap nat (gset nat)) :
  build_merge_table nodes = Ok table -> edges_ok table.
Proof.
  unfold build_merge_table.
  assert (Hinner : forall node l t t', node ∈ main_nodes nodes ->
            (forall e, e ∈ l -> e ∈ rig_table nodes) -> edges_ok t ->
            rfoldl (add_edge node) t l = Ok t' -> edges_ok t').
  { intros node. induction l as [|e l IH]; intros t t' Hn Hl Hok; simpl.
    - by intros [= <-].
    - destruct (add_edge node t e) as [t1|] eqn:He; simpl; [|discriminate].
      apply IH; auto.
      + intros e' He'. apply Hl. apply elem_of_cons. by right.
      + eapply add_edge_ok; eauto. apply Hl. apply elem_of_cons. by left. }
  assert (Houter : forall l t t', (forall n, n ∈ l -> n ∈ main_nodes nodes) -> edges_ok t ->
            rfoldl (fun table node => rfoldl (add_edge node) table (rig_table nodes)) t l = Ok t' ->
            edges_ok t').
  { induction l as [|n l IH]; intros t t' Hl Hok; simpl.
    - by intros [= <-].
    - destruct (rfoldl (add_edge n) t (rig_table nodes)) as [t1|] eqn:He; simpl; [|discriminate].
      apply IH.
      + intros n' Hn'. apply Hl. apply elem_of_cons. by right.
      + eapply Hinner; eauto. apply Hl. apply elem_of_cons. by left. }
  apply Houter; auto using edges_ok_init.
Qed.

End BuildFacts.

Section StoreFacts.

Context {N : Type} `{MergeNode N}.

Variable nodes : list N.

(** Every node has each of its attributes. *)
Definition store_wf (st : Store) : Prop :=
  length (st_point st) = length nodes /\
  length (st_merged_into st) = length nodes /\
  length (st_merged st) = length nodes.

Lemma init_store_wf : store_wf (init_store nodes).
Proof. unfold store_wf, init_store. simpl. by rewrite !length_fmap. Qed.

Lemma link_child_wf (best : nat) (st : Store) (child : nat) :
  store_wf st -> store_wf (link_child best st child).
Proof. unfold store_wf, link_child. simpl. by rewrite !length_insert. Qed.

(** The effect of lines 163-166 on the store. *)
Lemma link_children_spec (best : nat) (children : list nat) (st : Store) :
  store_wf st -> best < length nodes -> best ∉ children ->
  Forall (fun c => c < length nodes) children ->
  store_wf (foldl (link_child best) st children) /\
  (forall i, st_point (foldl (link_child best) st children) !!! i =
             if decide (i ∈ children) then st_point st !!! best else st_point st !!! i) /\
  (forall i, st_merged_into (foldl (link_child best) st children) !!! i =
             if decide (i ∈ children) then Some best else st_merged_into st !!! i) /\
  (forall i, st_merged (foldl (link_child best) st children) !!! i =
             if decide (i = best) then (st_merged st !!! best) ++ children
             else st_merged st !!! i) /\
  st_merged_master (foldl (link_child best) st children) = st_merged_master st.
Proof.
  revert st. induction children as [|c children IH]; intros st Hwf Hbest Hnin Hlt; simpl.
  - split; [exact Hwf|]. split; [|split; [|split; [|done]]]; intros i;
      try case_decide; subst; rewrite ?app_nil_r; done.
  - apply Forall_cons in Hlt as [Hc Hlt]. apply not_elem_of_cons in Hnin as [Hbc Hnin].
    destruct Hwf as (Hl1 & Hl2 & Hl3).
    destruct (IH (link_child best st c)) as (Hwf' & Hp & Hi & Hm & Hmm); auto.
    { by apply link_child_wf. }
    split; [exact Hwf'|]. split; [|split; [|split; [|done]]].
    + intros i. rewrite Hp. simpl.
      rewrite (list_lookup_total_insert_ne _ c best) by done.
      destruct (decide (i ∈ children)) as [Hin|Hnin'].
      * rewrite decide_True by (apply elem_of_cons; auto). done.
      * destruct (decide (i = c)) as [->|Hic].
        -- rewrite decide_True by (apply elem_of_cons; auto).
           rewrite list_lookup_total_insert_eq by lia. done.
        -- rewrite decide_False by (intros [?|?]%elem_of_cons; done).
           by rewrite list_lookup_total_insert_ne.
    + intros i. rewrite Hi. simpl.
      destruct (decide (i ∈ children)) as [Hin|Hnin'].
      * rewrite decide_True by (apply elem_of_cons; auto). done.
      * destruct (decide (i = c)) as [->|Hic].
        -- rewrite decide_True by (apply elem_of_cons; auto).
           rewrite list_lookup_total_insert_eq by lia. done.
        -- rewrite decide_False by (intros [?|?]%elem_of_cons; done).
           by rewrite list_lookup_total_insert_ne.
    + intros i. rewrite Hm. simpl.
      rewrite (list_lookup_total_insert_eq _ best) by lia.
      destruct (decide (i = best)) as [->|Hib].
      * by rewrite <- app_assoc.
      * by rewrite list_lookup_total_insert_ne.
Qed.

(** [merge_done] assigns [merged_master] only. *)
Lemma merge_done_frame (depth : nat) (st st' : Store) (self : nat) :
  merge_done nodes depth st self = Ok st' ->
  st_point st' = st_point st /\
  st_merged_into st' = st_merged_into st /\
  st_merged st' = st_merged st.
Proof.
  revert st st' self. induction depth as [|depth IH]; intros st st' self; simpl.
  - destruct (st_merged st !!! self); simpl; [|discriminate].
    destruct (nodes !! self); [|by intros [= <-]].
    destruct (merge_done_hook _ _); simpl; [|discriminate]. by intros [= <-].
  - set (st1 := {| st_point := _ |}).
    assert (Hfold : forall l s s', rfoldl (merge_done nodes depth) s l = Ok s' ->
              st_point s' = st_point s /\ st_merged_into s' = st_merged_into s /\
              st_merged s' = st_merged s).
    { induction l as [|c l IHl]; intros s s'; simpl; [by intros [= <-]|].
      destruct (merge_done nodes depth s c) as [s1|] eqn:Hc; simpl; [|discriminate].
      intros Hr. apply IH in Hc as (Hp1 & Hi1 & Hm1).
      apply IHl in Hr as (Hp2 & Hi2 & Hm2). repeat split; congruence. }
    destruct (rfoldl (merge_done nodes depth) st1 _) as [st2|] eqn:Hr; simpl; [|discriminate].
    apply Hfold in Hr as (Hp & Hi & Hm). simpl in Hp, Hi, Hm.
    destruct (nodes !! self).
    + destruct (merge_done_hook _ _); simpl; [|discriminate]. intros [= <-]. done.
    + intros [= <-]. done.
Qed.

End StoreFacts.

(** *** Sums of vectors *)

(** The arithmetic mean of a list of points. *)
Definition centroid (l : list Vector) : Vector :=
  vdiv (foldr vadd vzero l) (Qc_of_nat (length l)).

Lemma vadd_comm (a b : Vector) : vadd a b = vadd b a.
Proof.
  destruct a as [[ax ay] az], b as [[bx by_] bz]. unfold vadd.
  f_equal; [f_equal|]; apply Qcplus_comm.
Qed.

Lemma vadd_assoc (a b c : Vector) : vadd a (vadd b c) = vadd (vadd a b) c.
Proof.
  destruct a as [[ax ay] az], b as [[bx by_] bz], c as [[cx cy] cz]. unfold vadd.
  f_equal; [f_equal|]; apply Qcplus_assoc.
Qed.

Lemma vadd_zero_r (a : Vector) : vadd a vzero = a.
Proof.
  destruct a as [[ax ay] az]. unfold vadd, vzero.
  f_equal; [f_equal|]; apply Qcplus_0_r.
Qed.

Lemma foldl_vadd {A : Type} (f : A -> Vector) (p : Vector) (l : list A) :
  foldl (fun acc c => vadd acc (f c)) p l = vadd p (foldr vadd vzero (f <$> l)).
Proof.
  revert p. induction l as [|x l IH]; intros p; simpl.
  - by rewrite vadd_zero_r.
  - by rewrite IH, vadd_assoc.
Qed.

Lemma foldr_vadd_perm (l l' : list Vector) :
  l ≡ₚ l' -> foldr vadd vzero l = foldr vadd vzero l'.
Proof.
  induction 1 as [|x l l' _ IH|x y l|l l' l'' _ IH1 _ IH2]; simpl.
  - done.
  - by rewrite IH.
  - by rewrite !vadd_assoc, (vadd_comm y x).
  - by rewrite IH1.
Qed.

(** Line 161 computes the mean of the point of [best] and of the points of
    its children, in whatever order the set is listed. *)
Lemma centre_is_centroid (f : nat -> Vector) (best : nat) (child_set : gset nat)
    (children : list nat) :
  elements child_set ≡ₚ children ->
  vdiv (foldl (fun acc c => vadd acc (f c)) (f best) (elements child_set))
       (Qc_of_nat (size child_set + 1))
  = centroid (f best :: (f <$> children)).
Proof.
  intros Hperm. unfold centroid. simpl. rewrite foldl_vadd. f_equal.
  - f_equal. apply foldr_vadd_perm. by rewrite Hperm.
  - f_equal. rewrite length_fmap, <- Hperm, Nat.add_1_r. done.
Qed.

Section BuildLoopFacts.

Context {N : Type} `{MergeNode N}.

Variable nodes : list N.

(** The point a node was registered with. *)
Definition orig (i : nat) : Vector := st_point (init_store nodes) !!! i.

(** What holds each time round the [while pending] loop. *)
Record build_inv (ls : LoopState) : Prop := {
  bi_wf : store_wf nodes (ls_store ls);
  bi_pending : forall i, i ∈ ls_pending ls -> i ∈ (main_nodes nodes).*1;
  bi_edges : edges_ok nodes (ls_table ls);
  bi_table : forall t c, c ∈ ls_table ls !!! t -> c ∈ ls_pending ls;
  bi_fresh : forall i, i ∈ ls_pending ls ->
    st_point (ls_store ls) !!! i = orig i /\
    st_merged (ls_store ls) !!! i = [] /\
    st_merged_into (ls_store ls) !!! i = None;
  bi_followers : forall m c, c ∈ st_merged (ls_store ls) !!! m ->
    m ∈ ls_final ls /\
    c ∈ (main_nodes nodes).*1 /\
    rig_of nodes c <> rig_of nodes m /\
    (c ∉ ls_pending ls) /\
    st_merged_into (ls_store ls) !!! c = Some m /\
    st_point (ls_store ls) !!! c = st_point (ls_store ls) !!! m;
  bi_into : forall c m, st_merged_into (ls_store ls) !!! c = Some m ->
    c ∈ st_merged (ls_store ls) !!! m;
  bi_final : forall m, m ∈ ls_final ls ->
    m ∈ (main_nodes nodes).*1 /\
    (m ∉ ls_pending ls) /\
    st_merged_into (ls_store ls) !!! m = None /\
    st_point (ls_store ls) !!! m
      = centroid (orig m :: (orig <$> st_merged (ls_store ls) !!! m));
}.

Lemma children_perm (child_set : gset nat) :
  (forall c, c ∈ child_set -> c ∈ (main_nodes nodes).*1) ->
  elements child_set ≡ₚ filter (fun c => c ∈ child_set) ((main_nodes nodes).*1).
Proof.
  intros Hsub. apply NoDup_Permutation.
  - apply NoDup_elements.
  - apply NoDup_filter, main_nodes_NoDup.
  - intros c. rewrite elem_of_elements, list_elem_of_filter. naive_solver.
Qed.

Lemma table_fmap_lookup (table : gmap nat (gset nat)) (pending : gset nat) (t c : nat) :
  c ∈ ((fun children => children ∩ pending) <$> table) !!! t ->
  c ∈ table !!! t /\ c ∈ pending.
Proof.
  rewrite lookup_total_fmap, lookup_total_alt.
  destruct (table !! t); simpl; set_solver.
Qed.

Lemma build_step_inv (ls ls' : LoopState) :
  build_inv ls -> build_step nodes ls = Ok ls' ->
  build_inv ls' /\ ls_pending ls' ⊂ ls_pending ls.
Proof.
  intros Hinv. unfold build_step.
  destruct (py_max _ _) as [[best nbest]|] eqn:Hmax; simpl; [|discriminate].
  set (child_set := ls_table ls !!! best).
  set (centre := vdiv _ _).
  set (st1 := {| st_point := <[best:=centre]> (st_point (ls_store ls)) |}).
  set (children := filter _ _).
  destruct (merge_done _ _ _ _) as [st3|] eqn:Hdone; simpl; [|discriminate].
  intros [= <-].
  apply py_max_in, list_elem_of_filter in Hmax as [Hbp Hbm]. simpl in Hbp.
  assert (Hbid : best ∈ (main_nodes nodes).*1).
  { apply list_elem_of_fmap. by exists (best, nbest). }
  pose proof (main_id_lt _ _ Hbid) as Hblt.
  destruct (bi_wf _ Hinv) as (Hl1 & Hl2 & Hl3).
  destruct (bi_fresh _ Hinv best Hbp) as (Hbest_point & Hbest_merged & Hbest_into).
  assert (Hcs_pending : forall c, c ∈ child_set -> c ∈ ls_pending ls).
  { intros c. apply (bi_table _ Hinv). }
  assert (Hcs_edge : forall c, c ∈ child_set ->
            c ∈ (main_nodes nodes).*1 /\ rig_of nodes c <> rig_of nodes best).
  { intros c Hc. apply (bi_edges _ Hinv) in Hc. tauto. }
  assert (Hchildren : forall c, c ∈ children <-> c ∈ child_set).
  { intros c. unfold children. rewrite list_elem_of_filter.
    split; [tauto|]. intros Hc. split; auto. by apply Hcs_edge. }
  assert (Hbnc : best ∉ children).
  { intros Hb%Hchildren. by apply Hcs_edge in Hb as [_ Hb]. }
  assert (Hwf1 : store_wf nodes st1).
  { unfold store_wf, st1. simpl. by rewrite length_insert. }
  destruct (link_children_spec nodes best children st1) as (Hwf2 & Hp2 & Hi2 & Hm2 & _); auto.
  { apply Forall_forall. intros c Hc%Hchildren. apply main_id_lt. by apply Hcs_edge. }
  apply merge_done_frame in Hdone as (Hp3 & Hi3 & Hm3).
  assert (Hcentre : st_point st1 !!! best = centre).
  { unfold st1. simpl. apply list_lookup_total_insert_eq. lia. }
  assert (Hpoint : forall i, st_point st3 !!! i =
            if decide (i ∈ children) then centre
            else if decide (i = best) then centre else st_point (ls_store ls) !!! i).
  { intros i. rewrite Hp3, Hp2, Hcentre. case_decide; [done|].
    case_decide; [by subst|]. unfold st1. simpl. by rewrite list_lookup_total_insert_ne. }
  assert (Hinto : forall i, st_merged_into st3 !!! i =
            if decide (i ∈ children) then Some best else st_merged_into (ls_store ls) !!! i).
  { intros i. by rewrite Hi3, Hi2. }
  assert (Hmerged : forall i, st_merged st3 !!! i =
            if decide (i = best) then children else st_merged (ls_store ls) !!! i).
  { intros i. rewrite Hm3, Hm2. case_decide; [|done]. unfold st1. simpl.
    by rewrite Hbest_merged. }
  assert (Hcentroid : centre = centroid (orig best :: (orig <$> children))).
  { rewrite <- (centre_is_centroid orig best child_set children).
    - unfold centre. f_equal. rewrite !foldl_vadd, Hbest_point. f_equal. f_equal.
      apply list_fmap_ext. intros i c Hc%list_elem_of_lookup_2%elem_of_elements.
      by destruct (bi_fresh _ Hinv c (Hcs_pending c Hc)) as (-> & _).
    - apply children_perm. intros c Hc. by apply Hcs_edge. }
  assert (Hwf3 : store_wf nodes st3).
  { destruct Hwf2 as (? & ? & ?). unfold store_wf. by rewrite Hp3, Hi3, Hm3. }
  clear Hp2 Hi2 Hm2 Hp3 Hi3 Hm3 Hcentre.
  assert (Hold : forall i, i ∉ ls_pending ls ->
            st_point st3 !!! i = st_point (ls_store ls) !!! i /\
            st_merged_into st3 !!! i = st_merged_into (ls_store ls) !!! i /\
            st_merged st3 !!! i = st_merged (ls_store ls) !!! i).
  { intros i Hi.
    assert (Hib : i <> best) by (by intros ->).
    assert (Hic : i ∉ children) by (intros Hc%Hchildren; auto).
    rewrite Hpoint, Hinto, Hmerged. by rewrite !decide_False by done. }
  split; [|set_solver].
  split; simpl.
  - exact Hwf3.
  - intros i Hi. apply (bi_pending _ Hinv). set_solver.
  - intros t c [Hc _]%table_fmap_lookup. by apply (bi_edges _ Hinv).
  - intros t c [_ Hc]%table_fmap_lookup. exact Hc.
  - intros i Hi.
    assert (Hib : i <> best) by set_solver.
    assert (Hic : i ∉ children) by (rewrite Hchildren; set_solver).
    rewrite Hpoint, Hinto, Hmerged. rewrite !decide_False by done.
    apply (bi_fresh _ Hinv). set_solver.
  - intros m c. rewrite Hmerged. case_decide as Hm.
    + subst m. intros Hc. pose proof (proj1 (Hchildren c) Hc) as Hcs.
      destruct (Hcs_edge c Hcs) as [Hcid Hrig].
      split_and!; auto.
      * apply elem_of_app. right. by apply list_elem_of_singleton.
      * set_solver.
      * rewrite Hinto. by rewrite decide_True.
      * rewrite !Hpoint. rewrite decide_True by done.
        rewrite decide_False by done. by rewrite decide_True.
    + intros Hc. destruct (bi_followers _ Hinv m c Hc) as (Hmf & Hcid & Hrig & Hcp & Hci & Hcpt).
      destruct (bi_final _ Hinv m Hmf) as (_ & Hmp & _).
      destruct (Hold c Hcp) as (-> & -> & _). destruct (Hold m Hmp) as (-> & _ & _).
      split_and!; auto; [|set_solver]. apply elem_of_app. by left.
  - intros c m. rewrite Hinto, Hmerged. case_decide as Hc.
    + intros [= <-]. by rewrite decide_True.
    + intros Hcm. pose proof (bi_into _ Hinv c m Hcm) as Hin.
      case_decide as Hm; [|done]. subst m. rewrite Hbest_merged in Hin.
      by apply elem_of_nil in Hin.
  - intros m [Hm|Hm%list_elem_of_singleton]%elem_of_app.
    + destruct (bi_final _ Hinv m Hm) as (Hmid & Hmp & Hmi & Hmpt).
      destruct (Hold m Hmp) as (-> & -> & ->). split_and!; auto. set_solver.
    + subst m. rewrite Hpoint, Hinto, Hmerged.
      rewrite !decide_False by done. rewrite !decide_True by done.
      split_and!; auto. set_solver.
Qed.

Lemma build_loop_inv (fuel : nat) (ls ls' : LoopState) :
  build_inv ls -> build_loop nodes fuel ls = Ok ls' ->
  build_inv ls' /\ ls_pending ls' = ∅.
Proof.
  revert ls. induction fuel as [|fuel IH]; intros ls Hinv; simpl.
  - destruct (decide (ls_pending ls = ∅)); [|discriminate]. by intros [= <-].
  - destruct (decide (ls_pending ls = ∅)); [by intros [= <-]|].
    destruct (build_step nodes ls) as [ls1|] eqn:Hstep; simpl; [|discriminate].
    apply IH. by apply build_step_inv in Hstep as [? _].
Qed.

Lemma init_store_lookup (i : nat) :
  st_merged (init_store nodes) !!! i = [] /\
  st_merged_into (init_store nodes) !!! i = None.
Proof.
  unfold init_store. simpl. rewrite !list_lookup_total_alt, !list_lookup_fmap.
  by destruct (nodes !! i).
Qed.

Lemma build_inv_init (table : gmap nat (gset nat)) :
  build_merge_table nodes = Ok table ->
  build_inv {| ls_pending := list_to_set (main_nodes nodes).*1;
               ls_table := table;
               ls_store := init_store nodes;
               ls_final := [] |}.
Proof.
  intros Htable%build_merge_table_ok.
  split; cbn [ls_pending ls_table ls_store ls_final].
  - apply init_store_wf.
  - intros i. by rewrite elem_of_list_to_set.
  - exact Htable.
  - intros t c Hc. apply elem_of_list_to_set. apply Htable in Hc. tauto.
  - intros i _. destruct (init_store_lookup i). done.
  - intros m c. destruct (init_store_lookup m) as [-> _]. by intros ?%elem_of_nil.
  - intros c m. destruct (init_store_lookup c) as [_ ->]. done.
  - intros m ?%elem_of_nil. done.
Qed.

(** What [build] establishes when it returns. *)
Lemma build_spec (final_nodes : list nat) (st : Store) (finals out : list nat) :
  build nodes (init_store nodes) final_nodes = Ok (st, finals, out) ->
  exists ls, build_inv ls /\ ls_pending ls = ∅ /\ ls_store ls = st /\ ls_final ls = finals /\
             out = final_nodes ++ finals ++ (query_nodes nodes).*1.
Proof.
  unfold build.
  destruct (build_merge_table nodes) as [table|] eqn:Htable; simpl; [|discriminate].
  destruct (build_loop _ _ _) as [ls|] eqn:Hloop; simpl; [|discriminate].
  intros [= <- <- <-]. exists ls.
  apply build_loop_inv in Hloop as [Hinv Hp]; [|by apply build_inv_init].
  split_and!; auto.
Qed.

End BuildLoopFacts.

(** *** The iteration that finalizes a master *)

Section FinalizationFacts.

Context {N : Type} `{MergeNode N}.

Variable nodes : list N.

(** Lines 145-147 for one node and one bucket: the target the node finds
    in the bucket, if the bucket belongs to another rig and holds a node it
    can merge into. *)
Definition best_target (node : obj N) (entry : nat * list (obj N)) : option nat :=
  if decide (entry.1 <> rig_id (node_rig node.2)) then
    match py_max (fun n : obj N => get_merge_priority node.2 n.2)
                 (filter (fun n : obj N => can_merge_into node.2 n.2 = true) entry.2) with
    | Ok best => Some best.1
    | Raise _ => None
    end
  else None.

(** The main node [c] has found the node [t] as its target in one of the
    buckets. *)
Definition chooses (c t : nat) : Prop :=
  exists node entry,
    node ∈ main_nodes nodes /\ node.1 = c /\
    entry ∈ rig_table nodes /\ best_target node entry = Some t.

Lemma add_edge_lookup (node : obj N) (table table' : gmap nat (gset nat))
    (entry : nat * list (obj N)) :
  add_edge node table entry = Ok table' ->
  forall t c, c ∈ table' !!! t <->
              c ∈ table !!! t \/ (c = node.1 /\ best_target node entry = Some t).
Proof.
  destruct entry as [rig tgt]. unfold add_edge, best_target. simpl.
  destruct (decide (rig <> _)) as [Hne|].
  2:{ intros [= <-] t c. split; [by left|]. by intros [?|[_ ?]]. }
  destruct (py_max _ _) as [best|] eqn:Hmax; simpl; [|discriminate].
  intros [= <-] t c. destruct (decide (t = best.1)) as [->|Hnt].
  - rewrite lookup_total_insert_eq, elem_of_union, elem_of_singleton.
    split; (intros [?|?]; [by left|right]); [by split|tauto].
  - rewrite lookup_total_insert_ne by done.
    split; [by left|]. intros [?|[_ [= ?]]]; [done|congruence].
Qed.

Lemma merge_table_init_lookup (t : nat) : merge_table_init nodes !!! t = ∅.
Proof.
  unfold merge_table_init. rewrite lookup_total_alt.
  destruct (list_to_map _ !! t) as [s|] eqn:Hs; simpl; [|done].
  apply elem_of_list_to_map_2 in Hs.
  by apply list_elem_of_fmap in Hs as (n & [= -> ->] & _).
Qed.

(** The merge table of lines 141-147 holds, for every node, the main nodes
    that have found it as their target in its bucket. *)
Lemma build_merge_table_spec (table : gmap nat (gset nat)) :
  build_merge_table nodes = Ok table ->
  forall t c, c ∈ table !!! t <-> chooses c t.
Proof.
  unfold build_merge_table.
  assert (Hinner : forall node l t0 t',
            rfoldl (add_edge node) t0 l = Ok t' ->
            forall t c, c ∈ t' !!! t <->
              c ∈ t0 !!! t \/
              (c = node.1 /\ exists entry, entry ∈ l /\ best_target node entry = Some t)).
  { intros node. induction l as [|e l IH]; intros t0 t'; simpl.
    - intros [= <-] t c. split; [by left|].
      intros [?|(_ & entry & Hin & _)]; [done|]. by apply elem_of_nil in Hin.
    - destruct (add_edge node t0 e) as [t1|] eqn:He; simpl; [|discriminate].
      intros Hr t c. rewrite (IH _ _ Hr), (add_edge_lookup _ _ _ _ He).
      split.
      + intros [[?|[-> ?]]|(-> & entry & Hin & ?)]; [by left|right..].
        * split; [done|]. exists e. split; [|done]. apply elem_of_cons. by left.
        * split; [done|]. exists entry. split; [|done]. apply elem_of_cons. by right.
      + intros [?|(-> & entry & [->|Hin]%elem_of_cons & ?)].
        * left. by left.
        * left. right. by split.
        * right. split; [done|]. by exists entry. }
  assert (Houter : forall l t0 t',
            rfoldl (fun table node => rfoldl (add_edge node) table (rig_table nodes)) t0 l
              = Ok t' ->
            forall t c, c ∈ t' !!! t <->
              c ∈ t0 !!! t \/
              exists node entry, node ∈ l /\ node.1 = c /\
                entry ∈ rig_table nodes /\ best_target node entry = Some t).
  { induction l as [|n l IH]; intros t0 t'; simpl.
    - intros [= <-] t c. split; [by left|].
      intros [?|(node & _ & Hin & _)]; [done|]. by apply elem_of_nil in Hin.
    - destruct (rfoldl (add_edge n) t0 (rig_table nodes)) as [t1|] eqn:He; simpl;
        [|discriminate].
      intros Hr t c. rewrite (IH _ _ Hr), (Hinner _ _ _ _ He).
      split.
      + intros [[?|(-> & entry & Hin & ?)]|(node & entry & Hin & ? & ? & ?)]; [by left|right..].
        * exists n, entry. split_and!; auto. apply elem_of_cons. by left.
        * exists node, entry. split_and!; auto. apply elem_of_cons. by right.
      + intros [?|(node & entry & [->|Hin]%elem_of_cons & ? & ? & ?)].
        * left. by left.
        * left. right. split; [done|]. by exists entry.
        * right. by exists node, entry. }
  intros Hr t c. rewrite (Houter _ _ _ Hr), merge_table_init_lookup.
  unfold chooses. set_solver.
Qed.

(** The state in which the [while pending] loop starts (lines 150-152). *)
Definition loop_start (table : gmap nat (gset nat)) : LoopState :=
  {| ls_pending := list_to_set (main_nodes nodes).*1;
     ls_table := table;
     ls_store := init_store nodes;
     ls_final := [] |}.

(** The states the loop is in at the start of an iteration or when it
    ends, from the state [ls0] on. *)
Inductive loop_reaches (ls0 : LoopState) : LoopState -> Prop :=
  | loop_reaches_start : loop_reaches ls0 ls0
  | loop_reaches_step (ls ls' : LoopState) :
      loop_reaches ls0 ls -> ls_pending ls <> ∅ -> build_step nodes ls = Ok ls' ->
      loop_reaches ls0 ls'.

Lemma build_loop_reaches (fuel : nat) (ls0 ls ls' : LoopState) :
  loop_reaches ls0 ls -> build_loop nodes fuel ls = Ok ls' -> loop_reaches ls0 ls'.
Proof.
  revert ls. induction fuel as [|fuel IH]; intros ls Hls; simpl.
  - destruct (decide (ls_pending ls = ∅)); [|discriminate]. by intros [= <-].
  - destruct (decide (ls_pending ls = ∅)); [by intros [= <-]|].
    destruct (build_step nodes ls) as [ls1|] eqn:Hstep; simpl; [|discriminate].
    apply IH. by eapply loop_reaches_step.
Qed.

Lemma loop_reaches_inv (ls0 ls : LoopState) :
  build_inv nodes ls0 -> loop_reaches ls0 ls -> build_inv nodes ls.
Proof.
  intros Hinv. induction 1 as [|ls ls' _ IH _ Hstep]; [done|].
  by destruct (build_step_inv nodes ls ls' IH Hstep).
Qed.

Lemma table_fmap_lookup_iff (table : gmap nat (gset nat)) (pending : gset nat) (t c : nat) :
  c ∈ ((fun children => children ∩ pending) <$> table) !!! t <->
  c ∈ table !!! t /\ c ∈ pending.
Proof.
  rewrite lookup_total_fmap, lookup_total_alt.
  destruct (table !! t); simpl; set_solver.
Qed.

(** What one iteration does (lines 155-178). *)
Lemma build_step_effect (ls ls' : LoopState) :
  build_inv nodes ls -> build_step nodes ls = Ok ls' ->
  exists best,
    best ∈ ls_pending ls /\
    ls_final ls' = ls_final ls ++ [best] /\
    ls_pending ls' = (ls_pending ls ∖ {[ best ]}) ∖ (ls_table ls !!! best) /\
    ls_table ls' = (fun children => children ∩ ls_pending ls') <$> ls_table ls /\
    st_point (ls_store ls') !!! best
      = centroid (st_point (ls_store ls) !!! best
                  :: ((fun c => st_point (ls_store ls) !!! c)
                        <$> elements (ls_table ls !!! best))) /\
    (forall c, c ∈ ls_table ls !!! best ->
       st_point (ls_store ls') !!! c = st_point (ls_store ls') !!! best /\
       st_merged_into (ls_store ls') !!! c = Some best) /\
    st_merged (ls_store ls') !!! best ≡ₚ elements (ls_table ls !!! best) /\
    (forall i, i ∉ ls_pending ls ->
       st_point (ls_store ls') !!! i = st_point (ls_store ls) !!! i /\
       st_merged (ls_store ls') !!! i = st_merged (ls_store ls) !!! i).
Proof.
  intros Hinv. unfold build_step.
  destruct (py_max _ _) as [[best nbest]|] eqn:Hmax; simpl; [|discriminate].
  set (child_set := ls_table ls !!! best).
  set (centre := vdiv _ _).
  set (st1 := {| st_point := <[best:=centre]> (st_point (ls_store ls)) |}).
  set (children := filter _ _).
  destruct (merge_done _ _ _ _) as [st3|] eqn:Hdone; simpl; [|discriminate].
  intros [= <-]. simpl.
  apply py_max_in, list_elem_of_filter in Hmax as [Hbp Hbm]. simpl in Hbp.
  assert (Hbid : best ∈ (main_nodes nodes).*1).
  { apply list_elem_of_fmap. by exists (best, nbest). }
  pose proof (main_id_lt _ _ Hbid) as Hblt.
  destruct (bi_wf _ _ Hinv) as (Hl1 & Hl2 & Hl3).
  destruct (bi_fresh _ _ Hinv best Hbp) as (Hbest_point & Hbest_merged & Hbest_into).
  assert (Hcs_pending : forall c, c ∈ child_set -> c ∈ ls_pending ls).
  { intros c. apply (bi_table _ _ Hinv). }
  assert (Hcs_edge : forall c, c ∈ child_set ->
            c ∈ (main_nodes nodes).*1 /\ rig_of nodes c <> rig_of nodes best).
  { intros c Hc. apply (bi_edges _ _ Hinv) in Hc. tauto. }
  assert (Hchildren : forall c, c ∈ children <-> c ∈ child_set).
  { intros c. unfold children. rewrite list_elem_of_filter.
    split; [tauto|]. intros Hc. split; auto. by apply Hcs_edge. }
  assert (Hbnc : best ∉ children).
  { intros Hb%Hchildren. by apply Hcs_edge in Hb as [_ Hb]. }
  assert (Hwf1 : store_wf nodes st1).
  { unfold store_wf, st1. simpl. by rewrite length_insert. }
  destruct (link_children_spec nodes best children st1) as (Hwf2 & Hp2 & Hi2 & Hm2 & _); auto.
  { apply Forall_forall. intros c Hc%Hchildren. apply main_id_lt. by apply Hcs_edge. }
  apply merge_done_frame in Hdone as (Hp3 & Hi3 & Hm3).
  assert (Hcentre : st_point st1 !!! best = centre).
  { unfold st1. simpl. apply list_lookup_total_insert_eq. lia. }
  assert (Hpoint : forall i, st_point st3 !!! i =
            if decide (i ∈ children) then centre
            else if decide (i = best) then centre else st_point (ls_store ls) !!! i).
  { intros i. rewrite Hp3, Hp2, Hcentre. case_decide; [done|].
    case_decide; [by subst|]. unfold st1. simpl. by rewrite list_lookup_total_insert_ne. }
  assert (Hinto : forall i, st_merged_into st3 !!! i =
            if decide (i ∈ children) then Some best else st_merged_into (ls_store ls) !!! i).
  { intros i. by rewrite Hi3, Hi2. }
  assert (Hmerged : forall i, st_merged st3 !!! i =
            if decide (i = best) then children else st_merged (ls_store ls) !!! i).
  { intros i. rewrite Hm3, Hm2. case_decide; [|done]. unfold st1. simpl.
    by rewrite Hbest_merged. }
  exists best. split_and!; auto.
  - rewrite Hpoint, decide_False, decide_True by done.
    exact (centre_is_centroid (fun c => st_point (ls_store ls) !!! c) best child_set
             (elements child_set) (reflexivity _)).
  - intros c Hc. assert (Hcc : c ∈ children) by (by apply Hchildren).
    rewrite !Hpoint, Hinto. rewrite !(decide_True (P := c ∈ children)) by done.
    by rewrite (decide_False (P := best ∈ children)), decide_True by done.
  - rewrite Hmerged, decide_True by done. symmetry.
    apply children_perm. intros c Hc. by apply Hcs_edge.
  - intros i Hi.
    assert (Hib : i <> best) by (by intros ->).
    assert (Hic : i ∉ children) by (intros Hc%Hchildren; auto).
    rewrite Hpoint, Hmerged. by rewrite !decide_False by done.
Qed.

(** A node of the merge table is a pending child of its target as long as
    it is pending itself. *)
Lemma loop_reaches_table (table : gmap nat (gset nat)) (ls : LoopState) :
  build_merge_table nodes = Ok table ->
  loop_reaches (loop_start table) ls ->
  forall t c, c ∈ ls_table ls !!! t <-> c ∈ table !!! t /\ c ∈ ls_pending ls.
Proof.
  intros Htable Hreach.
  pose proof (build_inv_init nodes table Htable) as Hinit.
  induction Hreach as [|ls ls' Hreach IH _ Hstep]; intros t c.
  - simpl. split; [|tauto]. intros Hc. split; [done|].
    apply elem_of_list_to_set. apply build_merge_table_ok in Htable.
    apply Htable in Hc. tauto.
  - pose proof (loop_reaches_inv _ _ Hinit Hreach) as Hinv.
    destruct (build_step_effect ls ls' Hinv Hstep) as (best & _ & _ & Hp & -> & _).
    rewrite table_fmap_lookup_iff, IH, Hp. set_solver.
Qed.

(** Later iterations leave alone the nodes that are no longer pending. *)
Lemma loop_reaches_frame (ls ls' : LoopState) :
  build_inv nodes ls -> loop_reaches ls ls' ->
  ls_pending ls' ⊆ ls_pending ls /\
  forall i, i ∉ ls_pending ls ->
    st_point (ls_store ls') !!! i = st_point (ls_store ls) !!! i /\
    st_merged (ls_store ls') !!! i = st_merged (ls_store ls) !!! i.
Proof.
  intros Hinit. induction 1 as [|ls1 ls2 Hreach [Hsub IH] _ Hstep]; [done|].
  pose proof (loop_reaches_inv _ _ Hinit Hreach) as Hinv.
  destruct (build_step_effect ls1 ls2 Hinv Hstep) as (best & _ & _ & Hp & _ & _ & _ & _ & Hold).
  split; [rewrite Hp; set_solver|].
  intros i Hi. destruct (Hold i) as [-> ->]; [set_solver|]. by apply IH.
Qed.

(** Every final node was appended by one iteration of the loop. *)
Lemma finalizing_step (ls0 ls' : LoopState) (m : nat) :
  build_inv nodes ls0 -> loop_reaches ls0 ls' -> m ∈ ls_final ls' ->
  m ∈ ls_final ls0 \/
  exists ls1 ls2,
    loop_reaches ls0 ls1 /\ build_step nodes ls1 = Ok ls2 /\
    ls_final ls2 = ls_final ls1 ++ [m] /\ loop_reaches ls2 ls'.
Proof.
  intros Hinit. induction 1 as [|ls ls' Hreach IH Hne Hstep]; [by left|].
  pose proof (loop_reaches_inv _ _ Hinit Hreach) as Hinv.
  destruct (build_step_effect ls ls' Hinv Hstep) as (best & _ & Hfinal & _).
  rewrite Hfinal. intros [Hm|Hm%list_elem_of_singleton]%elem_of_app.
  - destruct (IH Hm) as [?|(ls1 & ls2 & ? & ? & ? & Hrest)]; [by left|].
    right. exists ls1, ls2. split_and!; auto. by eapply loop_reaches_step.
  - subst m. right. exists ls, ls'. split_and!; auto. constructor.
Qed.

End FinalizationFacts.

(** *** Examples: three plain nodes, two of them of one rig *)

Definition micro (z : Z) : Qc := Q2Qc (Qmake z 1000000).

Definition plain_node (rig : Rig) (name : string) (x : Qc) : MainMergeNode :=
  {| mmn_rig := rig; mmn_name := name; mmn_point := (x, q 0, q 1);
     mmn_group_class := MergeGroup_class |}.

Definition three_nodes : list MainMergeNode :=
  [plain_node spine_rig "a1" (micro 0); plain_node spine_rig "a2" (micro 3);
   plain_node tail_rig "b" (micro 6)].

Definition three_store : Store :=
  Eval vm_compute in
    match build three_nodes (init_store three_nodes) [] with
    | Ok (st, _, _) => st
    | Raise _ => init_store three_nodes
    end.

Lemma three_nodes_build :
  build three_nodes (init_store three_nodes) [] = Ok (three_store, [2], [2]).
Proof. vm_compute. reflexivity. Qed.

(** C5 fails as stated: the two nodes of the spine rig both become
    followers of the node of the tail rig, so that one merged cluster holds
    two main nodes of one rig. *)
Lemma same_rig_followers_of_one_master :
  build three_nodes (init_store three_nodes) [] = Ok (three_store, [2], [2]) /\
  st_merged three_store !! 2 = Some [0; 1] /\
  st_merged_into three_store !! 0 = Some (Some 2) /\
  st_merged_into three_store !! 1 = Some (Some 2) /\
  node_rig <$> three_nodes !! 0 = node_rig <$> three_nodes !! 1.
Proof. split; [exact three_nodes_build|]. by vm_compute. Qed.

(** C5, as the code has it.  When [build] returns, every follower belongs
    to a rig other than the rig of the master it was merged into (two
    followers of one master may belong to the same rig); the master is one
    of the final nodes and the follower is not. *)
Theorem followers_belong_to_other_rigs {N : Type} `{MergeNode N}
    (nodes : list N) (final_nodes : list nat) (st : Store) (finals out : list nat)
    (master follower : nat) :
  build nodes (init_store nodes) final_nodes = Ok (st, finals, out) ->
  follower ∈ st_merged st !!! master \/ st_merged_into st !!! follower = Some master ->
  exists nm nf,
    nodes !! master = Some nm /\ nodes !! follower = Some nf /\
    rig_id (node_rig nf) <> rig_id (node_rig nm) /\
    follower ∈ st_merged st !!! master /\
    st_merged_into st !!! follower = Some master /\
    master ∈ finals /\ (follower ∉ finals).
Proof.
  intros (ls & Hinv & _ & <- & <- & _)%build_spec Hrel.
  assert (Hin : follower ∈ st_merged (ls_store ls) !!! master).
  { destruct Hrel as [Hin|Hinto]; [done|]. by apply (bi_into _ _ Hinv). }
  destruct (bi_followers _ _ Hinv master follower Hin) as (Hm & Hfid & Hrig & _ & Hinto & _).
  destruct (bi_final _ _ Hinv master Hm) as (Hmid & _).
  apply list_elem_of_fmap in Hmid as ([? nm] & -> & [Hnm _]%elem_of_main_nodes).
  apply list_elem_of_fmap in Hfid as ([? nf] & -> & [Hnf _]%elem_of_main_nodes).
  simpl in *. exists nm, nf. split_and!; auto.
  - unfold rig_of in Hrig. rewrite Hnm, Hnf in Hrig. simpl in Hrig. congruence.
  - intros Hff. destruct (bi_final _ _ Hinv _ Hff) as (_ & _ & Hnone & _). congruence.
Qed.

Lemma followers_belong_to_other_rigs_witness :
  exists nm nf,
    three_nodes !! 2 = Some nm /\ three_nodes !! 0 = Some nf /\
    rig_id (node_rig nf) <> rig_id (node_rig nm) /\
    0 ∈ st_merged three_store !!! 2 /\
    st_merged_into three_store !!! 0 = Some 2 /\
    2 ∈ [2] /\ (0 ∉ [2]).
Proof.
  apply (followers_belong_to_other_rigs three_nodes [] three_store [2] [2] 2 0).
  - vm_compute. reflexivity.
  - right. vm_compute. reflexivity.
Defined.

(** C6.  When [build] returns, every final node [master] was finalized by
    one iteration of the loop, from a state [ls] to a state [ls'].  Its
    pending children are then [merge_table[master]]: the nodes that have
    found it as their target and are still pending.  All pending nodes
    are where they were registered, and the iteration puts the master at
    the arithmetic mean of its point and of the points of its pending
    children, gives every child that point and makes the children the
    followers of the master; no later iteration moves them. *)
Theorem master_point_is_centroid {N : Type} `{MergeNode N}
    (nodes : list N) (final_nodes : list nat) (st : Store) (finals out : list nat)
    (master : nat) :
  build nodes (init_store nodes) final_nodes = Ok (st, finals, out) ->
  master ∈ finals ->
  exists table ls ls',
    build_merge_table nodes = Ok table /\
    (forall t c, c ∈ table !!! t <-> chooses nodes c t) /\
    loop_reaches nodes (loop_start nodes table) ls /\
    build_step nodes ls = Ok ls' /\
    ls_final ls' = ls_final ls ++ [master] /\
    master ∈ ls_pending ls /\
    (forall c, c ∈ ls_table ls !!! master <-> c ∈ table !!! master /\ c ∈ ls_pending ls) /\
    (forall i, i ∈ ls_pending ls -> st_point (ls_store ls) !!! i = orig nodes i) /\
    st_point (ls_store ls') !!! master
      = centroid (st_point (ls_store ls) !!! master
                  :: ((fun c => st_point (ls_store ls) !!! c)
                        <$> elements (ls_table ls !!! master))) /\
    (forall c, c ∈ ls_table ls !!! master ->
       st_point (ls_store ls') !!! c = st_point (ls_store ls') !!! master /\
       st_merged_into (ls_store ls') !!! c = Some master) /\
    st_merged (ls_store ls') !!! master ≡ₚ elements (ls_table ls !!! master) /\
    st_point st !!! master = st_point (ls_store ls') !!! master /\
    st_merged st !!! master = st_merged (ls_store ls') !!! master /\
    (forall c, c ∈ ls_table ls !!! master -> st_point st !!! c = st_point st !!! master).
Proof.
  unfold build.
  destruct (build_merge_table nodes) as [table|] eqn:Htable; simpl; [|discriminate].
  destruct (build_loop _ _ _) as [lsf|] eqn:Hloop; simpl; [|discriminate].
  intros [= <- <- <-] Hm.
  pose proof (build_inv_init nodes table Htable) as Hinit.
  assert (Hreach : loop_reaches nodes (loop_start nodes table) lsf).
  { eapply build_loop_reaches; [|exact Hloop]. constructor. }
  destruct (finalizing_step nodes _ _ master Hinit Hreach Hm)
    as [Hnil|(ls & ls' & Hls & Hstep & Hfinal & Hrest)]; [by apply elem_of_nil in Hnil|].
  pose proof (loop_reaches_inv nodes _ _ Hinit Hls) as Hinv.
  destruct (build_step_inv nodes ls ls' Hinv Hstep) as [Hinv' _].
  destruct (build_step_effect nodes ls ls' Hinv Hstep)
    as (best & Hbp & Hfinal' & Hp & _ & Hcentre & Hchildren & Hmerged & _).
  assert (best = master) as ->.
  { rewrite Hfinal in Hfinal'. by apply app_inv_head in Hfinal' as [= ->]. }
  destruct (loop_reaches_frame nodes ls' lsf Hinv' Hrest) as [_ Hframe].
  assert (Hsettled : forall i, i = master \/ i ∈ ls_table ls !!! master ->
            i ∉ ls_pending ls').
  { intros i Hi. rewrite Hp. set_solver. }
  exists table, ls, ls'.
  split; [reflexivity|]. split; [exact (build_merge_table_spec nodes table Htable)|].
  split; [exact Hls|]. split; [exact Hstep|]. split; [exact Hfinal|]. split; [exact Hbp|].
  split; [exact (loop_reaches_table nodes table ls Htable Hls master)|].
  split; [intros i Hi; by destruct (bi_fresh _ _ Hinv i Hi)|].
  split; [exact Hcentre|]. split; [exact Hchildren|]. split; [exact Hmerged|].
  split; [apply Hframe, Hsettled; by left|]. split; [apply Hframe, Hsettled; by left|].
  intros c Hc.
  destruct (Hframe c) as [-> _]; [apply Hsettled; by right|].
  destruct (Hframe master) as [-> _]; [apply Hsettled; by left|].
  by apply Hchildren.
Qed.

Lemma master_point_is_centroid_witness :
  exists table ls ls',
    build_merge_table three_nodes = Ok table /\
    (forall t c, c ∈ table !!! t <-> chooses three_nodes c t) /\
    loop_reaches three_nodes (loop_start three_nodes table) ls /\
    build_step three_nodes ls = Ok ls' /\
    ls_final ls' = ls_final ls ++ [2] /\
    2 ∈ ls_pending ls /\
    (forall c, c ∈ ls_table ls !!! 2 <-> c ∈ table !!! 2 /\ c ∈ ls_pending ls) /\
    (forall i, i ∈ ls_pending ls -> st_point (ls_store ls) !!! i = orig three_nodes i) /\
    st_point (ls_store ls') !!! 2
      = centroid (st_point (ls_store ls) !!! 2
                  :: ((fun c => st_point (ls_store ls) !!! c)
                        <$> elements (ls_table ls !!! 2))) /\
    (forall c, c ∈ ls_table ls !!! 2 ->
       st_point (ls_store ls') !!! c = st_point (ls_store ls') !!! 2 /\
       st_merged_into (ls_store ls') !!! c = Some 2) /\
    st_merged (ls_store ls') !!! 2 ≡ₚ elements (ls_table ls !!! 2) /\
    st_point three_store !!! 2 = st_point (ls_store ls') !!! 2 /\
    st_merged three_store !!! 2 = st_merged (ls_store ls') !!! 2 /\
    (forall c, c ∈ ls_table ls !!! 2 -> st_point three_store !!! c = st_point three_store !!! 2).
Proof.
  apply (master_point_is_centroid three_nodes [] three_store [2] [2] 2).
  - vm_compute. reflexivity.
  - apply elem_of_cons. left. reflexivity.
Defined.

(** In the example the node of the tail rig is the target of the two nodes
    of the spine rig (and has the first of them as its own target); it is
    finalized by the first iteration, with both as its children, and ends
    up at x = 3e-6, the mean of 0, 3e-6 and 6e-6, as do the two. *)
Example three_nodes_centre :
  build_merge_table three_nodes = Ok {[ 0 := {[ 2 ]}; 1 := ∅; 2 := {[ 0; 1 ]} ]} /\
  st_merged three_store !! 2 = Some [0; 1] /\
  st_point three_store !! 2 = Some (micro 3, q 0, q 1) /\
  st_point three_store !! 0 = Some (micro 3, q 0, q 1) /\
  st_point three_store !! 1 = Some (micro 3, q 0, q 1).
Proof.
  split; [by vm_compute|]. split; [by vm_compute|].
  split_and!; vm_compute; f_equal; (f_equal; [f_equal|]); apply Qc_is_canon; reflexivity.
Qed.

(** *** The loops of [build] stop within their fuel *)

Section BuildOutcome.

Context {N : Type} `{MergeNode N}.

Variable nodes : list N.

(** The exceptions an override of [merge_done] can raise. *)
Definition hook_raises (e : exn) : Prop :=
  exists n siblings, merge_done_hook (N := N) n siblings = Raise e.

(** A result other than running out of fuel or an error of the interface. *)
Definition settled {A : Type} (r : result A) : Prop :=
  (exists a, r = Ok a) \/ (exists e, r = Raise e /\ hook_raises e).

Lemma merge_done_leaf (depth : nat) (st : Store) (self : nat) :
  st_merged st !!! self = [] -> settled (merge_done nodes depth st self).
Proof.
  intros Hleaf. destruct depth; simpl; rewrite Hleaf; simpl.
  - destruct (nodes !! self) as [n|]; [|left; eauto].
    destruct (merge_done_hook _ _) as [[]|e] eqn:Hhook; simpl; [left; eauto|].
    right. exists e. split; auto. red. eauto.
  - destruct (nodes !! self) as [n|]; [|left; eauto].
    destruct (merge_done_hook _ _) as [[]|e] eqn:Hhook; simpl; [left; eauto|].
    right. exists e. split; auto. red. eauto.
Qed.

Lemma merge_done_leaves (depth : nat) (children : list nat) (st : Store) :
  Forall (fun c => st_merged st !!! c = []) children ->
  settled (rfoldl (merge_done nodes depth) st children).
Proof.
  revert st. induction children as [|c children IH]; intros st Hall; simpl.
  - left. eauto.
  - apply Forall_cons in Hall as [Hc Hall].
    destruct (merge_done_leaf depth st c Hc) as [[st1 Hst1]|(e & He & Hr)].
    + rewrite Hst1. simpl. apply IH.
      apply merge_done_frame in Hst1 as (_ & _ & ->). exact Hall.
    + rewrite He. simpl. right. eauto.
Qed.

Lemma merge_done_master (depth : nat) (st : Store) (self : nat) :
  Forall (fun c => st_merged st !!! c = []) (st_merged st !!! self) ->
  settled (merge_done nodes (S depth) st self).
Proof.
  intros Hall. simpl.
  set (st1 := {| st_point := st_point st |}).
  destruct (merge_done_leaves depth (st_merged st !!! self) st1 Hall)
    as [[st2 Hst2]|(e & He & Hr)].
  - rewrite Hst2. simpl. destruct (nodes !! self) as [n|]; [|left; eauto].
    destruct (merge_done_hook _ _) as [[]|e] eqn:Hhook; simpl; [left; eauto|].
    right. exists e. split; auto. red. eauto.
  - rewrite He. simpl. right. eauto.
Qed.

Lemma build_step_settled (ls : LoopState) :
  build_inv nodes ls -> ls_pending ls <> ∅ -> settled (build_step nodes ls).
Proof.
  intros Hinv Hne. unfold build_step.
  destruct (py_max_ok (fun n : obj N => Z.of_nat (size (ls_table ls !!! n.1)))
              (filter (fun n : obj N => n.1 ∈ ls_pending ls) (main_nodes nodes)))
    as [[best nbest] Hmax].
  { apply set_choose_L in Hne as [i Hi].
    pose proof (bi_pending _ _ Hinv i Hi) as (n & -> & Hn)%list_elem_of_fmap.
    intros Hnil. assert (Hin : n ∈ filter (fun n : obj N => n.1 ∈ ls_pending ls) (main_nodes nodes))
      by (by apply list_elem_of_filter).
    rewrite Hnil in Hin. by apply elem_of_nil in Hin. }
  rewrite Hmax. simpl.
  apply py_max_in, list_elem_of_filter in Hmax as [Hbp Hbm]. simpl in Hbp.
  assert (Hbid : best ∈ (main_nodes nodes).*1).
  { apply list_elem_of_fmap. by exists (best, nbest). }
  pose proof (main_id_lt _ _ Hbid) as Hblt.
  set (child_set := ls_table ls !!! best).
  set (centre := vdiv _ _).
  set (st1 := {| st_point := <[best:=centre]> (st_point (ls_store ls)) |}).
  set (children := filter _ _).
  assert (Hchildren : forall c, c ∈ children -> c ∈ child_set).
  { intros c. unfold children. rewrite list_elem_of_filter. tauto. }
  assert (Hcs : forall c, c ∈ child_set ->
            c ∈ ls_pending ls /\ c ∈ (main_nodes nodes).*1 /\ c <> best).
  { intros c Hc. split; [by apply (bi_table _ _ Hinv) in Hc|].
    apply (bi_edges _ _ Hinv) in Hc as (_ & Hcid & Hrig).
    split; [exact Hcid|]. intros ->. by apply Hrig. }
  destruct (bi_fresh _ _ Hinv best Hbp) as (_ & Hbest_merged & _).
  destruct (link_children_spec nodes best children st1) as (_ & _ & _ & Hm2 & _).
  { destruct (bi_wf _ _ Hinv) as (? & ? & ?). unfold store_wf, st1. simpl.
    by rewrite length_insert. }
  { exact Hblt. }
  { intros Hb%Hchildren%Hcs. tauto. }
  { apply Forall_forall. intros c Hc%Hchildren%Hcs. apply main_id_lt. tauto. }
  destruct (length nodes) as [|depth] eqn:Hlen; [lia|].
  destruct (merge_done_master depth (foldl (link_child best) st1 children) best)
    as [[st3 Hst3]|(e & He & Hr)].
  { rewrite (Hm2 best), decide_True by done. unfold st1 at 1. simpl.
    rewrite Hbest_merged. simpl. apply Forall_forall. intros c Hc.
    pose proof (Hcs c (Hchildren c Hc)) as (Hcp & _ & Hcb).
    rewrite Hm2, decide_False by done. unfold st1. simpl.
    by destruct (bi_fresh _ _ Hinv c Hcp) as (_ & ? & _). }
  - rewrite Hst3. simpl. left. eauto.
  - rewrite He. simpl. right. eauto.
Qed.

Lemma build_loop_settled (fuel : nat) (ls : LoopState) :
  build_inv nodes ls -> size (ls_pending ls) <= fuel ->
  settled (build_loop nodes fuel ls).
Proof.
  revert ls. induction fuel as [|fuel IH]; intros ls Hinv Hsize; simpl.
  - destruct (decide (ls_pending ls = ∅)) as [|Hne]; [left; eauto|].
    assert (size (ls_pending ls) <> 0); [|lia].
    apply size_non_empty_iff. by intros ?%leibniz_equiv.
  - destruct (decide (ls_pending ls = ∅)) as [|Hne]; [left; eauto|].
    destruct (build_step_settled ls Hinv Hne) as [[ls1 Hstep]|(e & He & Hr)].
    + rewrite Hstep. simpl. apply build_step_inv in Hstep as [Hinv1 Hsub]; auto.
      apply IH; auto. apply subset_size in Hsub. lia.
    + rewrite He. simpl. right. eauto.
Qed.

(** Once the merge table is there, [build] returns or raises what an
    override of [merge_done] does: the model never runs out of fuel. *)
Lemma build_settled (final_nodes : list nat) (table : gmap nat (gset nat)) :
  build_merge_table nodes = Ok table ->
  settled (build nodes (init_store nodes) final_nodes).
Proof.
  intros Htable. unfold build. rewrite Htable. simpl.
  destruct (build_loop_settled (length (main_nodes nodes))
             {| ls_pending := list_to_set (main_nodes nodes).*1; ls_table := table;
                ls_store := init_store nodes; ls_final := [] |})
    as [[ls Hls]|(e & He & Hr)].
  - by apply build_inv_init.
  - simpl. rewrite size_list_to_set by apply main_nodes_NoDup.
    by rewrite length_fmap.
  - rewrite Hls. simpl. left. eauto.
  - rewrite He. simpl. right. eauto.
Qed.

End BuildOutcome.

Lemma filter_none {A : Type} (P : A -> Prop) `{!forall x, Decision (P x)} (l : list A) :
  (forall x, x ∈ l -> ~ P x) -> filter P l = [].
Proof.
  induction l as [|x l IH]; intros Hl; [done|].
  rewrite filter_cons, decide_False by (apply Hl, elem_of_cons; by left).
  apply IH. intros y Hy. apply Hl, elem_of_cons. by right.
Qed.

Lemma filter_all {A : Type} (P : A -> Prop) `{!forall x, Decision (P x)} (l : list A) :
  (forall x, x ∈ l -> P x) -> filter P l = l.
Proof.
  induction l as [|x l IH]; intros Hl; [done|].
  rewrite filter_cons, decide_True by (apply Hl, elem_of_cons; by left).
  f_equal. apply IH. intros y Hy. apply Hl, elem_of_cons. by right.
Qed.

Lemma rfoldl_cons {A B : Type} (f : A -> B -> result A) (a : A) (x : B) (l : list B) :
  rfoldl f a (x :: l) = f a x ≫= fun a' => rfoldl f a' l.
Proof. reflexivity. Qed.

Section BuildRaises.

Context {N : Type} `{MergeNode N}.

Variable nodes : list N.

Lemma rig_table_nonempty (rig : nat) (bucket : list (obj N)) :
  (rig, bucket) ∈ rig_table nodes -> bucket <> [].
Proof.
  unfold rig_table.
  assert (Hgen : forall l tbl, (forall r b, (r, b) ∈ tbl -> b <> []) ->
            forall r b, (r, b) ∈ foldl rig_table_append tbl l -> b <> []).
  { induction l as [|x l IH]; intros tbl Htbl; simpl; auto.
    apply IH. clear IH. induction tbl as [|[r0 b0] tbl IHt]; simpl.
    - intros r b [= -> ->]%list_elem_of_singleton. done.
    - destruct (decide (r0 = _)).
      + intros r b [[= -> ->]|Hin]%elem_of_cons.
        * by destruct b0.
        * eapply Htbl. apply elem_of_cons. right. exact Hin.
      + intros r b [[= -> ->]|Hin]%elem_of_cons.
        * eapply Htbl. apply elem_of_cons. by left.
        * eapply IHt; eauto. intros r' b' Hin'. eapply Htbl.
          apply elem_of_cons. right. exact Hin'. }
  apply Hgen. intros r b Hin. by apply elem_of_nil in Hin.
Qed.

Lemma add_edge_raise (node : obj N) (table : gmap nat (gset nat))
    (entry : nat * list (obj N)) (e : exn) :
  add_edge node table entry = Raise e ->
  e = ValueError "max() arg is an empty sequence".
Proof.
  destruct entry as [rig tgt]. unfold add_edge. destruct (decide _); [|discriminate].
  destruct (filter _ tgt); simpl; [by intros [= <-]|discriminate].
Qed.

(** The defect behind C1, in general: as soon as some main node can merge
    into no node of the bucket of some other rig, [build] raises the
    [ValueError] of [max] on an empty list. *)
Lemma build_raises_without_target (node : obj N) (rig : nat) (bucket : list (obj N))
    (st : Store) (final_nodes : list nat) :
  node ∈ main_nodes nodes -> (rig, bucket) ∈ rig_table nodes ->
  rig <> rig_id (node_rig node.2) ->
  (forall n, n ∈ bucket -> can_merge_into node.2 n.2 = false) ->
  build nodes st final_nodes = Raise (ValueError "max() arg is an empty sequence").
Proof.
  intros Hnode Hentry Hrig Hnone. unfold build.
  destruct (rfoldl_raises (fun e => e = ValueError "max() arg is an empty sequence")
              (fun table node => rfoldl (add_edge node) table (rig_table nodes))
              (main_nodes nodes) node Hnode) with (a := merge_table_init nodes)
    as (e & He & ->).
  - intros table.
    apply (rfoldl_raises _ (add_edge node) (rig_table nodes) (rig, bucket) Hentry).
    + intros t. eexists. split; [|reflexivity]. unfold add_edge.
      rewrite decide_True by done. rewrite filter_none; [done|].
      intros n Hn. rewrite (Hnone n Hn). done.
    + intros t entry e. apply add_edge_raise.
  - intros t n e Hr. revert t Hr. generalize (rig_table nodes).
    induction l as [|x l IH]; intros t; simpl; [discriminate|].
    destruct (add_edge n t x) as [t1|e1] eqn:Hx; simpl; [apply IH|].
    intros [= <-]. by apply add_edge_raise in Hx.
  - unfold build_merge_table. by rewrite He.
Qed.

End BuildRaises.

(** A group of plain [MainMergeNode]s is always built: any node can merge
    into any other, and [merge_done] is not overridden. *)
Lemma build_plain_total (nodes : list MainMergeNode) (final_nodes : list nat) :
  exists st finals out, build nodes (init_store nodes) final_nodes = Ok (st, finals, out).
Proof.
  assert (Htable : exists table, build_merge_table nodes = Ok table).
  { unfold build_merge_table.
    assert (Hinner : forall (node : obj MainMergeNode) l t, (forall e, e ∈ l -> e.2 <> []) ->
              exists t', rfoldl (add_edge node) t l = Ok t').
    { intros node. induction l as [|[rig tgt] l IH]; intros t Hl; [simpl; eauto|].
      rewrite rfoldl_cons.
      assert (Hstep : exists t1, add_edge node t (rig, tgt) = Ok t1).
      { unfold add_edge. destruct (decide _); [|eauto].
        rewrite filter_all by (intros; reflexivity).
        destruct tgt as [|x tgt]; [|simpl; eauto].
        exfalso. apply (Hl (rig, [])); [apply elem_of_cons; by left|done]. }
      destruct Hstep as [t1 ->]. simpl. apply IH.
      intros e He. apply Hl, elem_of_cons. by right. }
    generalize (merge_table_init nodes). generalize (main_nodes nodes) at 1.
    induction l as [|x l IH]; intros t; [simpl; eauto|].
    rewrite rfoldl_cons.
    destruct (Hinner x (rig_table nodes) t) as [t1 ->].
    { intros [r b] Hin. simpl. by eapply rig_table_nonempty. }
    simpl. apply IH. }
  destruct Htable as [table Htable].
  destruct (build_settled nodes final_nodes table Htable)
    as [[[[st finals] out] Hok]|(e & _ & (n & sibs & Hhook))].
  - eauto.
  - cbn in Hhook. discriminate.
Qed.

(** Otherwise the merge table could not be built, which [max] reports. *)
Lemma build_outcome {N : Type} `{MergeNode N} (nodes : list N) (final_nodes : list nat) :
  settled (build nodes (init_store nodes) final_nodes) \/
  build nodes (init_store nodes) final_nodes
    = Raise (ValueError "max() arg is an empty sequence").
Proof.
  destruct (build_merge_table nodes) as [table|e] eqn:Htable.
  - left. by eapply build_settled.
  - right. unfold build. rewrite Htable. simpl. f_equal.
    revert Htable. unfold build_merge_table.
    generalize (merge_table_init nodes). generalize (main_nodes nodes) at 1.
    induction l as [|x l IH]; intros t; [discriminate|].
    rewrite rfoldl_cons.
    destruct (rfoldl (add_edge x) t (rig_table nodes)) as [t1|e1] eqn:Hx; simpl; [apply IH|].
    intros [= <-]. revert t Hx. generalize (rig_table nodes).
    induction l0 as [|y l0 IH0]; intros t; simpl; [discriminate|].
    destruct (add_edge x t y) as [t2|e2] eqn:Hy; simpl; [apply IH0|].
    intros [= <-]. by apply add_edge_raise in Hy.
Qed.

(** *** Examples: a TWEAK node and a FREE node of two chains *)

Definition control_node (rig : Rig) (name : string) (sides : Z * Z)
    (layer : ControlNodeLayer.t) (icon : ControlNodeIcon.t) (size : Qc)
    (rotation : Quaternion) : ControlBoneNode :=
  {| cbn_rig := rig; cbn_org := name; cbn_name := name; cbn_point := origin;
     cbn_name_split := (name, sides.1, sides.2);
     cbn_size := size; cbn_layer := layer; cbn_icon := icon;
     cbn_needs_parent := false; cbn_needs_reparent := false;
     cbn_rig_rotation := rotation |}.

Definition tweak_node : ControlBoneNode :=
  control_node spine_rig "spine_end" (0, 0)%Z ControlNodeLayer.TWEAK ControlNodeIcon.TWEAK
               (q 1) qzero.

Definition free_node : ControlBoneNode :=
  control_node tail_rig "tail_start" (0, 0)%Z ControlNodeLayer.FREE ControlNodeIcon.FREE
               (q 1) qzero.

(** C1 fails on the code.  The TWEAK node cannot merge into the only node
    of the other rig's bucket; instead of leaving the pair unmerged,
    [build] raises the [ValueError] of [max] on an empty list. *)
Lemma build_raises_for_unmergeable_pair :
  can_merge_into tweak_node free_node = false /\
  rig_table [tweak_node; free_node]
    = [(1, [(0, tweak_node)]); (2, [(1, free_node)])] /\
  build [tweak_node; free_node] (init_store [tweak_node; free_node]) []
    = Raise (ValueError "max() arg is an empty sequence").
Proof. split; [reflexivity|]. split; reflexivity. Qed.

(** C2 fails as stated: with equal chain priorities it is the FREE node
    that may merge into the TWEAK node, not the reverse. *)
Lemma tweak_cannot_merge_into_free :
  chain_priority (cbn_rig tweak_node) = chain_priority (cbn_rig free_node) /\
  cbn_layer tweak_node = ControlNodeLayer.TWEAK /\
  cbn_layer free_node = ControlNodeLayer.FREE /\
  can_merge_into tweak_node free_node = false /\
  can_merge_into free_node tweak_node = true.
Proof. repeat split. Qed.

(** C2, as the code has it.  Between a TWEAK node and a FREE node of rigs
    with equal chain priority, [can_merge_into] permits a merge only from
    the FREE node into the TWEAK node: the TWEAK node is the only target
    the FREE node finds in its bucket, and the FREE node is no target for
    the TWEAK node. *)
Theorem merge_only_from_free_into_tweak (tweak free : ControlBoneNode) (i j : nat) :
  chain_priority (cbn_rig tweak) = chain_priority (cbn_rig free) ->
  cbn_layer tweak = ControlNodeLayer.TWEAK ->
  cbn_layer free = ControlNodeLayer.FREE ->
  can_merge_into free tweak = true /\
  can_merge_into tweak free = false /\
  filter (fun n : obj ControlBoneNode => can_merge_into free n.2 = true) [(i, tweak)]
    = [(i, tweak)] /\
  filter (fun n : obj ControlBoneNode => can_merge_into tweak n.2 = true) [(j, free)] = [].
Proof.
  intros Hprio Htweak Hfree.
  assert (Hft : can_merge_into free tweak = true).
  { cbn. unfold cbn_can_merge_into. rewrite Hprio, Htweak, Hfree, Z.sub_diag. reflexivity. }
  assert (Htf : can_merge_into tweak free = false).
  { cbn. unfold cbn_can_merge_into. rewrite Hprio, Htweak, Hfree, Z.sub_diag. reflexivity. }
  split; [exact Hft|]. split; [exact Htf|]. split.
  - apply filter_all. intros n ->%list_elem_of_singleton. exact Hft.
  - apply filter_none. intros n ->%list_elem_of_singleton. cbn [snd]. by rewrite Htf.
Qed.

Lemma merge_only_from_free_into_tweak_witness :
  can_merge_into free_node tweak_node = true /\
  can_merge_into tweak_node free_node = false /\
  filter (fun n : obj ControlBoneNode => can_merge_into free_node n.2 = true) [(0, tweak_node)]
    = [(0, tweak_node)] /\
  filter (fun n : obj ControlBoneNode => can_merge_into tweak_node n.2 = true) [(1, free_node)]
    = [].
Proof.
  apply (merge_only_from_free_into_tweak tweak_node free_node 0 1); reflexivity.
Defined.

(** ** The size and the rotation of a master *)

Lemma dict_set_fresh {K V : Type} `{EqDecision K} (d : list (K * V)) (k : K) (v : V) :
  k ∉ d.*1 -> dict_set d k v = d ++ [(k, v)].
Proof.
  induction d as [|[k' v'] d IH]; simpl; [done|].
  intros [Hk Hd]%not_elem_of_cons. rewrite decide_False by done. by rewrite IH.
Qed.

(** When no two siblings have the same decomposed name, the dictionary of
    mirror siblings lists the siblings with the base name of [self], in
    their order. *)
Lemma mirror_siblings_values (self : ControlBoneNode) (siblings : list (obj ControlBoneNode)) :
  NoDup ((fun n : obj ControlBoneNode => cbn_name_split n.2) <$> siblings) ->
  (mirror_siblings self siblings).*2
    = filter (fun n : obj ControlBoneNode => name_base n.2 = name_base self) siblings.
Proof.
  unfold mirror_siblings.
  assert (Hgen : forall l d,
            NoDup ((fun n : obj ControlBoneNode => cbn_name_split n.2) <$> l) ->
            (forall n, n ∈ l -> cbn_name_split n.2 ∉ d.*1) ->
            (foldl (fun d node => if decide (name_base node.2 = name_base self)
                                  then dict_set d (cbn_name_split node.2) node else d) d l).*2
            = d.*2 ++ filter (fun n : obj ControlBoneNode => name_base n.2 = name_base self) l).
  { induction l as [|x l IH]; intros d Hnd Hfresh; simpl.
    - by rewrite app_nil_r.
    - rewrite fmap_cons in Hnd. apply NoDup_cons in Hnd as [Hx Hnd].
      rewrite filter_cons. destruct (decide (name_base x.2 = name_base self)) as [Hb|Hb].
      + rewrite IH; auto.
        * rewrite dict_set_fresh by (apply Hfresh, elem_of_cons; by left).
          rewrite fmap_app. simpl. by rewrite <- app_assoc.
        * intros n Hn. rewrite dict_set_fresh by (apply Hfresh, elem_of_cons; by left).
          rewrite fmap_app. simpl. intros [Hin|Hin%list_elem_of_singleton]%elem_of_app.
          -- revert Hin. apply Hfresh, elem_of_cons. by right.
          -- apply Hx. rewrite <- Hin. apply list_elem_of_fmap. eauto.
      + apply IH; auto. intros n Hn. apply Hfresh, elem_of_cons. by right. }
  intros Hnd. rewrite Hgen; auto. intros n _ Hin. by apply elem_of_nil in Hin.
Qed.

Lemma mirror_siblings_base (self other : ControlBoneNode) (siblings : list (obj ControlBoneNode)) :
  name_base self = name_base other ->
  mirror_siblings self siblings = mirror_siblings other siblings.
Proof. intros Hb. unfold mirror_siblings. by rewrite Hb. Qed.

(** After a [merge_done] in which no assertion failed, no two of the
    merged siblings have the same decomposed name. *)
Lemma merge_done_names_distinct (siblings : list (obj ControlBoneNode)) :
  NoDup siblings.*1 ->
  Forall (fun s => find_mirror_siblings s siblings = Ok tt) siblings ->
  NoDup ((fun n : obj ControlBoneNode => cbn_name_split n.2) <$> siblings).
Proof.
  intros Hids Hassert. apply NoDup_alt. intros i j k Hi Hj.
  rewrite list_lookup_fmap in Hi, Hj.
  destruct (siblings !! i) as [s|] eqn:Hs; [|discriminate].
  destruct (siblings !! j) as [t|] eqn:Ht; [|discriminate].
  simpl in Hi, Hj. injection Hi as Hi. injection Hj as Hj.
  pose proof (proj1 (Forall_forall _ _) Hassert s (list_elem_of_lookup_2 _ _ _ Hs)) as Has.
  pose proof (proj1 (Forall_forall _ _) Hassert t (list_elem_of_lookup_2 _ _ _ Ht)) as Hat.
  unfold find_mirror_siblings in Has, Hat.
  assert (Hbase : name_base s.2 = name_base t.2) by (unfold name_base; congruence).
  rewrite (mirror_siblings_base s.2 t.2), Hi in Has by done. rewrite Hj in Hat.
  destruct (dict_get _ k) as [n|]; [|discriminate].
  unfold py_assert in Has, Hat.
  destruct (bool_decide (n.1 = s.1)) eqn:H1; [|discriminate].
  destruct (bool_decide (n.1 = t.1)) eqn:H2; [|discriminate].
  apply bool_decide_eq_true in H1, H2.
  assert (Hi' : siblings.*1 !! i = Some s.1) by (by rewrite list_lookup_fmap, Hs).
  assert (Hj' : siblings.*1 !! j = Some s.1).
  { rewrite list_lookup_fmap, Ht. simpl. congruence. }
  exact (proj1 (NoDup_alt _) Hids i j s.1 Hi' Hj').
Qed.

Lemma py_max_from_ge {A : Type} (key : A -> Z) (best : A) (l : list A) :
  (key best <= key (py_max_from key best l))%Z /\
  forall x, x ∈ l -> (key x <= key (py_max_from key best l))%Z.
Proof.
  revert best. induction l as [|y l IH]; intros best; simpl.
  - split; [lia|]. intros x Hx. by apply elem_of_nil in Hx.
  - destruct (Z.ltb_spec (key best) (key y)) as [Hlt|Hge].
    + destruct (IH y) as [Hy Hl]. split; [lia|].
      intros x [->|Hx]%elem_of_cons; auto.
    + destruct (IH best) as [Hb Hl]. split; [lia|].
      intros x [->|Hx]%elem_of_cons; auto. lia.
Qed.

Lemma py_max_ge {A : Type} (key : A -> Z) (l : list A) (best : A) :
  py_max key l = Ok best -> forall x, x ∈ l -> (key x <= key best)%Z.
Proof.
  destruct l as [|y l]; simpl; [discriminate|]. intros [= <-] x.
  destruct (py_max_from_ge key y l) as [Hy Hl].
  intros [->|Hx]%elem_of_cons; auto.
Qed.

(** The mean of a list of numbers, as line 232 computes it. *)
Definition mean (l : list Qc) : Qc := (py_sum l / Qc_of_nat (length l))%Qc.

(** The specification's words: the sizes of the siblings that share the
    mirror symmetry of [self] and have the highest icon tier found among
    the siblings. *)
Definition top_tier_mirror_sizes (self : ControlBoneNode)
    (siblings : list (obj ControlBoneNode)) : list Qc :=
  let top := foldr Z.max 0%Z ((fun n : obj ControlBoneNode =>
                                 ControlNodeIcon.value (cbn_icon n.2)) <$> siblings) in
  (fun n : obj ControlBoneNode => cbn_size n.2)
    <$> filter (fun n : obj ControlBoneNode =>
                  name_base n.2 = name_base self /\
                  ControlNodeIcon.value (cbn_icon n.2) = top) siblings.

(** *** Examples: mirrored siblings *)

Definition head_rig : Rig := {| rig_id := 3; base_bone := "head"; chain_priority := 0 |}.

Definition mirror_node (rig : Rig) (name : string) (side : Z)
    (icon : ControlNodeIcon.t) (size : Qc) (rotation : Quaternion) : ControlBoneNode :=
  {| cbn_rig := rig; cbn_org := name; cbn_name := name; cbn_point := origin;
     cbn_name_split := ("cheek", side, 0%Z);
     cbn_size := size; cbn_layer := ControlNodeLayer.FREE; cbn_icon := icon;
     cbn_needs_parent := false; cbn_needs_reparent := false;
     cbn_rig_rotation := rotation |}.

(** Three mutually mirrored siblings of the top icon tier, of sizes 1, 1
    and 2. *)
Definition three_mirrors : list (obj ControlBoneNode) :=
  [(0, mirror_node head_rig "cheek" 0 ControlNodeIcon.CUSTOM (q 1) (q 1, q 0, q 0, q 0));
   (1, mirror_node spine_rig "cheek.L" 1 ControlNodeIcon.CUSTOM (q 1) (q 0, q 1, q 0, q 0));
   (2, mirror_node tail_rig "cheek.R" (-1) ControlNodeIcon.CUSTOM (q 2) (q 0, q 0, q 1, q 0))].

(** A master of the lowest icon tier and size 1 with one mirrored follower
    of a higher tier and size 3. *)
Definition mixed_mirrors : list (obj ControlBoneNode) :=
  [(0, mirror_node spine_rig "cheek.L" 1 ControlNodeIcon.TWEAK (q 1) qzero);
   (1, mirror_node tail_rig "cheek.R" (-1) ControlNodeIcon.FREE (q 3) qzero)].

(** C7 fails as stated: the size is averaged over all the mirror siblings
    of the sibling with the highest icon tier, whatever their own tier.
    Here the only top-tier sibling has size 3, and the master gets 2. *)
Lemma master_size_counts_lower_tier_mirrors :
  Forall (fun s => find_mirror_siblings s mixed_mirrors = Ok tt) mixed_mirrors /\
  top_tier_mirror_sizes (mirror_node spine_rig "cheek.L" 1 ControlNodeIcon.TWEAK (q 1) qzero)
                        mixed_mirrors = [q 3] /\
  mean [q 3] = q 3 /\
  initialize_size mixed_mirrors = Ok (q 2) /\
  q 2 <> q 3.
Proof.
  split; [repeat constructor|]. split; [reflexivity|].
  split; [apply Qc_is_canon; reflexivity|].
  split; [vm_compute; f_equal; apply Qc_is_canon; reflexivity|].
  discriminate.
Qed.

(** C7, as the code has it.  After a merge in which no assertion failed,
    the size a master gets is the mean of the sizes of all the siblings
    that have the base name of [best], the first sibling whose icon tier is
    the highest. *)
Theorem master_size_is_mean_of_best_mirrors (sibling_list : list (obj ControlBoneNode)) :
  sibling_list <> [] ->
  NoDup sibling_list.*1 ->
  Forall (fun s => find_mirror_siblings s sibling_list = Ok tt) sibling_list ->
  exists best,
    py_max (fun n : obj ControlBoneNode => ControlNodeIcon.value (cbn_icon n.2)) sibling_list
      = Ok best /\
    best ∈ sibling_list /\
    (forall n, n ∈ sibling_list ->
       (ControlNodeIcon.value (cbn_icon n.2) <= ControlNodeIcon.value (cbn_icon best.2))%Z) /\
    initialize_size sibling_list
      = Ok (mean ((fun n : obj ControlBoneNode => cbn_size n.2)
                    <$> filter (fun n : obj ControlBoneNode =>
                                  name_base n.2 = name_base best.2) sibling_list)).
Proof.
  intros Hne Hids Hassert.
  destruct (py_max_ok (fun n : obj ControlBoneNode => ControlNodeIcon.value (cbn_icon n.2))
              sibling_list Hne) as [best Hbest].
  exists best. split; [exact Hbest|]. split; [by apply py_max_in in Hbest|].
  split; [exact (py_max_ge _ _ _ Hbest)|].
  unfold initialize_size. rewrite Hbest. simpl.
  rewrite mirror_siblings_values by (by apply merge_done_names_distinct).
  unfold mean. by rewrite length_fmap.
Qed.

Lemma master_size_is_mean_of_best_mirrors_witness :
  exists best,
    py_max (fun n : obj ControlBoneNode => ControlNodeIcon.value (cbn_icon n.2)) three_mirrors
      = Ok best /\
    best ∈ three_mirrors /\
    (forall n, n ∈ three_mirrors ->
       (ControlNodeIcon.value (cbn_icon n.2) <= ControlNodeIcon.value (cbn_icon best.2))%Z) /\
    initialize_size three_mirrors
      = Ok (mean ((fun n : obj ControlBoneNode => cbn_size n.2)
                    <$> filter (fun n : obj ControlBoneNode =>
                                  name_base n.2 = name_base best.2) three_mirrors)).
Proof.
  apply (master_size_is_mean_of_best_mirrors three_mirrors).
  - discriminate.
  - apply (bool_decide_unpack _). vm_compute. exact I.
  - repeat constructor.
Defined.

(** The example of the specification: sizes 1, 1 and 2 give 4/3. *)
Example three_mirrors_size : initialize_size three_mirrors = Ok (Q2Qc (4 # 3)).
Proof. vm_compute. f_equal; apply Qc_is_canon; reflexivity. Qed.

(** *** Sums of quaternions *)



Section RotationFacts.

Context {Quat : Type}.

Variable add : Quat -> Quat -> Quat.
Variable zero : Quat.
Variable normalized : Quat -> Quat.
Variable rig_rotation : ControlBoneNode -> Quat.






End RotationFacts.


(** In the example the three rotations add up to (1, 1, 1, 0). *)
Example three_mirrors_rotation :
  (initialize_rotation qadd qzero (fun r => r) cbn_rig_rotation ∅
     (0, mirror_node head_rig "cheek" 0 ControlNodeIcon.CUSTOM (q 1) (q 1, q 0, q 0, q 0))
     three_mirrors).1
  = (q 1, q 1, q 1, q 0).
Proof.
  vm_compute. repeat match goal with |- (_, _) = (_, _) => f_equal end;
    apply Qc_is_canon; reflexivity.
Qed.

(** *** The same sum over floats *)

(** At precision [prec]: 1.0 and 2.0, the float next above 1.0, and 5/16
    of the distance between the two. *)
Definition float_one (prec : Z) : SpecFloat.spec_float :=
  SpecFloat.S754_finite false (Z.to_pos (2 ^ (prec - 1))) (1 - prec).
Definition float_small (prec : Z) : SpecFloat.spec_float :=
  SpecFloat.S754_finite false (Z.to_pos (5 * 2 ^ (prec - 3))) (- 2 * prec).





(** In single precision the two sums of the [w] components are 1.0 and the
    float next above it, 1 + 2^-23. *)
Example float_sums_differ :
  SpecFloat.SFadd 24 128
    (SpecFloat.SFadd 24 128
       (SpecFloat.SFadd 24 128 (SpecFloat.S754_zero false) (float_one 24)) (float_small 24))
    (float_small 24)
  = SpecFloat.S754_finite false 8388608 (-23) /\
  SpecFloat.SFadd 24 128
    (SpecFloat.SFadd 24 128
       (SpecFloat.SFadd 24 128 (SpecFloat.S754_zero false) (float_small 24)) (float_small 24))
    (float_one 24)
  = SpecFloat.S754_finite false 8388609 (-23).
Proof. split; reflexivity. Qed.

(** ** Parent generators *)

Lemma parent_eqb_refl (p : ParentGen) : parent_eqb p p = true.
Proof.
  induction p as [b|p IH d]; simpl.
  - by apply bool_decide_eq_true.
  - rewrite IH. by rewrite !bool_decide_eq_true_2.
Qed.

Lemma parent_eqb_sym (p p' : ParentGen) : parent_eqb p p' = parent_eqb p' p.
Proof.
  revert p'. induction p as [b|p IH d]; intros [b'|p' d']; simpl; auto.
  - apply bool_decide_ext. split; congruence.
  - rewrite IH. f_equal; [f_equal|]; apply bool_decide_ext; split; congruence.
Qed.

Lemma parent_eqb_trans (p p' p'' : ParentGen) :
  parent_eqb p p' = true -> parent_eqb p' p'' = true -> parent_eqb p p'' = true.
Proof.
  revert p' p''. induction p as [b|p IH d]; intros [b'|p' d'] [b''|p'' d'']; simpl; try done.
  - rewrite !bool_decide_eq_true. congruence.
  - rewrite !andb_true_iff, !bool_decide_eq_true.
    intros [[H1 H2] H3] [[H4 H5] H6]. split_and!; eauto; congruence.
Qed.

(** Two objects that are equal compare alike to any third one. *)
Lemma parent_eqb_congr (p p' w : ParentGen) :
  parent_eqb p p' = true -> parent_eqb w p = parent_eqb w p'.
Proof.
  intros Heq. destruct (parent_eqb w p) eqn:H1, (parent_eqb w p') eqn:H2; auto.
  - rewrite <- H2. symmetry. eapply parent_eqb_trans; eauto.
  - rewrite <- H1. eapply parent_eqb_trans; eauto. by rewrite parent_eqb_sym.
Qed.

(** [__eq__] of two offset generators over the same parent looks at the
    two contribution maps and at nothing else. *)
Lemma parent_eqb_offset (parent : ParentGen) (d d' : OffsetData) :
  parent_eqb (ControlBoneParentOffset parent d) (ControlBoneParentOffset parent d') = true
  <-> off_copy_local d = off_copy_local d' /\ off_add_local d = off_add_local d'.
Proof.
  simpl. rewrite parent_eqb_refl, !andb_true_iff, !bool_decide_eq_true. tauto.
Qed.

(** *** The cache of parents *)

(** Every cached parent is an object of the heap. *)
Definition cache_wf (heap : list ParentGen) (m : MasterCaches) : Prop :=
  Forall (fun a => a < length heap) (parent_subrig_cache m).

(** [heap[a] == v] *)
Definition equals (heap : list ParentGen) (v : ParentGen) (a : nat) : bool :=
  match heap !! a with
  | Some w => parent_eqb w v
  | None => false
  end.

Lemma find_ext_in {A : Type} (f g : A -> bool) (l : list A) :
  (forall x, x ∈ l -> f x = g x) -> List.find f l = List.find g l.
Proof.
  induction l as [|x l IH]; intros Hl; simpl; [done|].
  rewrite <- (Hl x) by (apply elem_of_cons; by left).
  destruct (f x); [done|]. apply IH. intros y Hy. apply Hl, elem_of_cons. by right.
Qed.

Lemma find_snoc_none {A : Type} (f : A -> bool) (l : list A) (x : A) :
  List.find f l = None -> List.find f (l ++ [x]) = if f x then Some x else None.
Proof.
  induction l as [|y l IH]; simpl; [done|]. destruct (f y); [discriminate|]. exact IH.
Qed.

Lemma find_elem_of {A : Type} (f : A -> bool) (l : list A) (a : A) :
  List.find f l = Some a -> a ∈ l /\ f a = true.
Proof.
  intros [Hin Hf]%List.find_some. split; [by apply list_elem_of_In|done].
Qed.

Lemma py_eq_new (heap : list ParentGen) (v : ParentGen) (a : nat) :
  py_eq (heap ++ [v]) a (length heap) = equals (heap ++ [v]) v a.
Proof.
  unfold py_eq, equals. rewrite (list_lookup_middle heap [] v (length heap)) by done.
  done.
Qed.

Lemma equals_grow (heap : list ParentGen) (v v' : ParentGen) (a : nat) :
  a < length heap -> equals (heap ++ [v']) v a = equals heap v a.
Proof. intros Ha. unfold equals. by rewrite lookup_app_l. Qed.

Lemma cache_wf_grow (heap : list ParentGen) (m : MasterCaches) (v : ParentGen) :
  cache_wf heap m -> cache_wf (heap ++ [v]) m.
Proof.
  unfold cache_wf. intros Hwf. eapply Forall_impl; [exact Hwf|].
  intros a Ha. simpl in *. rewrite length_app. simpl. lia.
Qed.

(** A request returns the first cached object that equals what was built,
    the new object included. *)
Lemma build_parent_spec (heap : list ParentGen) (m : MasterCaches) (v : ParentGen)
    (node_name : string) :
  cache_wf heap m ->
  exists a m',
    build_parent_for_node "initialize" heap m v node_name = Ok (a, heap ++ [v], m') /\
    cache_wf (heap ++ [v]) m' /\
    List.find (equals (heap ++ [v]) v) (parent_subrig_cache m') = Some a.
Proof.
  intros Hwf. unfold build_parent_for_node. simpl. unfold dedup_parent.
  rewrite (find_ext_in _ (equals (heap ++ [v]) v)) by (intros; apply py_eq_new).
  destruct (List.find _ (parent_subrig_cache m)) as [previous|] eqn:Hfind.
  - exists previous, m. split_and!; auto using cache_wf_grow.
  - eexists _, _. split; [reflexivity|]. simpl. split.
    + unfold cache_wf. simpl. apply Forall_app. split; [by apply cache_wf_grow|].
      apply Forall_singleton. rewrite length_app. simpl. lia.
    + rewrite find_snoc_none by done. unfold equals.
      rewrite (list_lookup_middle heap [] v (length heap)) by done.
      by rewrite parent_eqb_refl.
Qed.

(** A request for something that equals a cached object returns that
    object and leaves the cache as it is. *)
Lemma build_parent_hit (heap : list ParentGen) (m : MasterCaches) (v : ParentGen)
    (node_name : string) (a : nat) :
  cache_wf heap m ->
  List.find (equals heap v) (parent_subrig_cache m) = Some a ->
  build_parent_for_node "initialize" heap m v node_name = Ok (a, heap ++ [v], m).
Proof.
  intros Hwf Hfind. unfold build_parent_for_node. simpl. unfold dedup_parent.
  rewrite (find_ext_in _ (equals heap v)), Hfind; [done|].
  intros x Hx. rewrite py_eq_new. apply equals_grow.
  by apply (proj1 (Forall_forall _ _) Hwf).
Qed.

(** C9.  Two requests whose generators have the same parent and the same
    contribution maps (whatever else differs) return one and the same
    object, the first cached one that equals them; a further request
    with a differently weighted contribution returns another object, and
    the first one is left as it was. *)
Theorem parent_cache_dedups (heap : list ParentGen) (m : MasterCaches)
    (parent : ParentGen) (d1 d2 d3 : OffsetData) (n1 n2 n3 : string) :
  cache_wf heap m ->
  off_copy_local d1 = off_copy_local d2 ->
  off_add_local d1 = off_add_local d2 ->
  off_copy_local d3 <> off_copy_local d1 ->
  exists first other heap1 heap2 heap3 m1 m3 w,
    build_parent_for_node "initialize" heap m (ControlBoneParentOffset parent d1) n1
      = Ok (first, heap1, m1) /\
    build_parent_for_node "initialize" heap1 m1 (ControlBoneParentOffset parent d2) n2
      = Ok (first, heap2, m1) /\
    build_parent_for_node "initialize" heap2 m1 (ControlBoneParentOffset parent d3) n3
      = Ok (other, heap3, m3) /\
    other <> first /\
    heap1 !! first = Some w /\ heap2 !! first = Some w /\ heap3 !! first = Some w /\
    parent_eqb w (ControlBoneParentOffset parent d1) = true.
Proof.
  intros Hwf Hcl Hal Hdiff.
  set (v1 := ControlBoneParentOffset parent d1).
  set (v2 := ControlBoneParentOffset parent d2).
  set (v3 := ControlBoneParentOffset parent d3).
  assert (H12 : parent_eqb v1 v2 = true) by (by apply parent_eqb_offset).
  assert (H13 : parent_eqb v1 v3 <> true).
  { intros [Heq _]%parent_eqb_offset. congruence. }
  destruct (build_parent_spec heap m v1 n1 Hwf) as (first & m1 & Hb1 & Hwf1 & Hfind1).
  pose proof (find_elem_of _ _ _ Hfind1) as [Hin1 Heq1].
  pose proof (proj1 (Forall_forall _ _) Hwf1 first Hin1) as Hlt1. cbn beta in Hlt1.
  destruct (lookup_lt_is_Some_2 _ _ Hlt1) as [w Hw].
  assert (Hw1 : parent_eqb w v1 = true) by (unfold equals in Heq1; by rewrite Hw in Heq1).
  assert (Hb2 : build_parent_for_node "initialize" (heap ++ [v1]) m1 v2 n2
                = Ok (first, (heap ++ [v1]) ++ [v2], m1)).
  { apply build_parent_hit; [done|]. rewrite <- Hfind1. apply find_ext_in.
    intros x Hx. unfold equals. destruct (_ !! x); [|done]. symmetry.
    by apply parent_eqb_congr. }
  pose proof (cache_wf_grow _ _ v2 Hwf1) as Hwf2.
  destruct (build_parent_spec _ m1 v3 n3 Hwf2) as (other & m3 & Hb3 & Hwf3 & Hfind3).
  pose proof (find_elem_of _ _ _ Hfind3) as [_ Heq3].
  assert (Hw2 : ((heap ++ [v1]) ++ [v2]) !! first = Some w) by (by rewrite lookup_app_l).
  assert (Hw3 : (((heap ++ [v1]) ++ [v2]) ++ [v3]) !! first = Some w).
  { rewrite lookup_app_l; [done|]. rewrite length_app. lia. }
  exists first, other, (heap ++ [v1]), ((heap ++ [v1]) ++ [v2]),
         (((heap ++ [v1]) ++ [v2]) ++ [v3]), m1, m3, w.
  split_and!; auto.
  intros ->. unfold equals in Heq3. rewrite Hw3 in Heq3.
  apply H13. eapply parent_eqb_trans; [|exact Heq3]. by rewrite parent_eqb_sym.
Qed.

(** *** Examples: three requests to a master whose cache is empty *)

(** The caches of a master right after [merge_done], lines 145-146. *)
Definition fresh_caches : MasterCaches :=
  {| parent_subrig_cache := []; parent_subrig_names := ∅; enabled_components := [] |}.

Definition half_offset (owner : nat) (node : string) : OffsetData :=
  add_copy_local_location (offset_init_data owner node) (Bone "ctrl")
                          (InfluenceConst (Q2Qc (1 # 2))).

Definition quarter_offset (owner : nat) (node : string) : OffsetData :=
  add_copy_local_location (offset_init_data owner node) (Bone "ctrl")
                          (InfluenceConst (Q2Qc (1 # 4))).

Lemma parent_cache_dedups_witness :
  exists first other heap1 heap2 heap3 m1 m3 w,
    build_parent_for_node "initialize" [] fresh_caches
      (ControlBoneParentOffset (ControlBoneParentOrg "spine") (half_offset 1 "a")) "a"
      = Ok (first, heap1, m1) /\
    build_parent_for_node "initialize" heap1 m1
      (ControlBoneParentOffset (ControlBoneParentOrg "spine") (half_offset 2 "b")) "b"
      = Ok (first, heap2, m1) /\
    build_parent_for_node "initialize" heap2 m1
      (ControlBoneParentOffset (ControlBoneParentOrg "spine") (quarter_offset 3 "c")) "c"
      = Ok (other, heap3, m3) /\
    other <> first /\
    heap1 !! first = Some w /\ heap2 !! first = Some w /\ heap3 !! first = Some w /\
    parent_eqb w (ControlBoneParentOffset (ControlBoneParentOrg "spine") (half_offset 1 "a"))
      = true.
Proof.
  apply (parent_cache_dedups [] fresh_caches (ControlBoneParentOrg "spine")
           (half_offset 1 "a") (half_offset 2 "b") (quarter_offset 3 "c") "a" "b" "c").
  - constructor.
  - reflexivity.
  - reflexivity.
  - intros Heq. apply (f_equal (fun cl => (cl !! Bone "ctrl"))) in Heq.
    vm_compute in Heq. discriminate Heq.
Defined.

(** In the example the first two requests return object 0 and the third
    one object 2. *)
Example three_requests :
  exists heap1 heap2 heap3 m1 m3,
    build_parent_for_node "initialize" [] fresh_caches
      (ControlBoneParentOffset (ControlBoneParentOrg "spine") (half_offset 1 "a")) "a"
      = Ok (0, heap1, m1) /\
    build_parent_for_node "initialize" heap1 m1
      (ControlBoneParentOffset (ControlBoneParentOrg "spine") (half_offset 2 "b")) "b"
      = Ok (0, heap2, m1) /\
    build_parent_for_node "initialize" heap2 m1
      (ControlBoneParentOffset (ControlBoneParentOrg "spine") (quarter_offset 3 "c")) "c"
      = Ok (2, heap3, m3) /\
    parent_subrig_cache m3 = [0; 2].
Proof. repeat eexists. Qed.

(** *** An offset generator without contributions *)

Lemma generate_bones_empty (Armature : Type)
    (make_derived_name : string -> string -> string -> string)
    (make_bone : Armature -> string -> Qc -> nat -> option (list Qc) -> string * Armature)
    (arm : Armature) (d : OffsetData) :
  off_copy_local d = ∅ -> off_add_local d = ∅ ->
  (generate_bones Armature make_derived_name make_bone arm d).2 = arm /\
  off_mch_bones (generate_bones Armature make_derived_name make_bone arm d).1 = Some [].
Proof.
  intros Hcl Hal. unfold generate_bones. rewrite Hcl, Hal.
  rewrite !bool_decide_eq_false_2 by (intros Hne; by apply Hne). simpl. done.
Qed.

(** C10.  A [ControlBoneParentOffset] as [__init__] leaves it, to which
    nothing was added, makes no bone when its bones are generated (the
    armature is untouched and [mch_bones] is empty), and its [output_bone]
    is then the [output_bone] of the parent it wraps. *)
Theorem untouched_offset_passes_through (Armature : Type)
    (make_derived_name : string -> string -> string -> string)
    (make_bone : Armature -> string -> Qc -> nat -> option (list Qc) -> string * Armature)
    (arm : Armature) (rig : nat) (parent : ParentGen) (node : string) :
  (generate_bones Armature make_derived_name make_bone arm (offset_init_data rig node)).2
    = arm /\
  off_mch_bones
    (generate_bones Armature make_derived_name make_bone arm (offset_init_data rig node)).1
    = Some [] /\
  output_bone
    (ControlBoneParentOffset parent
       (generate_bones Armature make_derived_name make_bone arm (offset_init_data rig node)).1)
    = output_bone parent.
Proof.
  destruct (generate_bones_empty Armature make_derived_name make_bone arm
              (offset_init_data rig node)) as [Harm Hbones]; [done|done|].
  split; [exact Harm|]. split; [exact Hbones|].
  simpl output_bone. by rewrite Hbones.
Qed.

(** Before [generate_bones] has run there is no [mch_bones] to look at. *)
Example output_bone_too_early (rig : nat) (parent : ParentGen) (node : string) :
  output_bone (offset_init rig parent node) = Raise (AttributeError "mch_bones").
Proof. reflexivity. Qed.

(** With a contribution the generator makes a bone of its own, and that
    bone is its output. *)
Example weighted_offset_makes_a_bone :
  let make_bone := fun (arm : list string) (name : string) (_ : Qc) (_ : nat)
                       (_ : option (list Qc)) => (name, arm ++ [name]) in
  let make_derived_name := fun (name prefix suffix : string) =>
                             prefix +:+ "_" +:+ name +:+ suffix in
  let '(d, arm) := generate_bones (list string) make_derived_name make_bone []
                     (half_offset 1 "a") in
  arm = ["mch_a_poffset"] /\
  output_bone (ControlBoneParentOffset (ControlBoneParentOrg "spine") d)
    = Ok "mch_a_poffset".
Proof. vm_compute. split; reflexivity. Qed.


(** ** The whole of [initialize] *)

Section MovingPoints.

Variable tree : list Vector.

(** Growing a merge set reads the points of nodes chained to its first
    node only. *)
Lemma grow_agree (point : list Vector) (i : nat) (fuel : nat) (pending merge_set : gset nat) :
  (forall j, chained tree i j -> point !! j = tree !! j) ->
  (forall j, j ∈ pending -> chained tree i j) ->
  NodeMerger.grow tree point fuel pending merge_set
  = NodeMerger.grow tree tree fuel pending merge_set.
Proof.
  intros Hfresh. revert pending merge_set.
  induction fuel as [|fuel IH]; intros pending ms Hpending; simpl; [done|].
  destruct (decide (pending = ∅)); [done|].
  assert (Hhits : NodeMerger.hits tree point <$> elements pending
                  = NodeMerger.hits tree tree <$> elements pending).
  { apply list_fmap_ext. intros k j Hj%list_elem_of_lookup_2%elem_of_elements.
    unfold NodeMerger.hits. by rewrite Hfresh by auto. }
  rewrite Hhits. apply IH.
  intros y [Hy _]%elem_of_difference. apply elem_of_added in Hy as (x & Hx & Hs).
  unfold chained. apply (rtc_r _ x); [by apply Hpending|exact Hs].
Qed.

Lemma find_merge_set_agree (point : list Vector) (i : nat) :
  (forall j, chained tree i j -> point !! j = tree !! j) ->
  NodeMerger.find_merge_set tree point i = NodeMerger.find_merge_set tree tree i.
Proof.
  intros Hfresh. apply (grow_agree point i); [done|].
  intros j ->%elem_of_singleton. apply rtc_refl.
Qed.

(** As long as every node outside [processed] is where it was registered,
    the next merge set is the class of the next unprocessed node, and it
    passes the assertion of line 85. *)
Lemma next_merge_set (point : list Vector) (processed : gset nat)
    (found : list (gset nat)) (i : nat) :
  partition_inv tree processed found ->
  (forall j, j ∉ processed -> point !! j = tree !! j) ->
  i < length tree -> i ∉ processed ->
  exists merge_set,
    NodeMerger.find_merge_set tree point i = Some merge_set /\
    NodeMerger.find_merge_set tree tree i = Some merge_set /\
    is_class tree i merge_set /\ merge_set ## processed.
Proof.
  intros Hinv Hfresh Hi Hnin.
  destruct (find_merge_set_spec tree i Hi) as (ms & Hms & Hcl).
  assert (Hclass : is_class tree i ms) by (split; auto).
  assert (Hdisj : ms ## processed) by eauto using class_disjoint_processed.
  exists ms. split_and!; auto. rewrite find_merge_set_agree; [done|].
  intros j Hj%Hcl. apply Hfresh. intros Hp. by apply (Hdisj j).
Qed.

End MovingPoints.

Lemma insert_by_perm {A : Type} (key : A -> string) (x : A) (l : list A) :
  insert_by key x l ≡ₚ x :: l.
Proof.
  induction l as [|y l IH]; simpl; [done|].
  destruct (String.leb _ _); [done|]. rewrite IH. apply Permutation_swap.
Qed.

Lemma sort_by_perm {A : Type} (key : A -> string) (l : list A) : sort_by key l ≡ₚ l.
Proof.
  unfold sort_by. induction l as [|x l IH]; simpl; [done|].
  by rewrite insert_by_perm, IH.
Qed.

Lemma partition_loop_skip {A : Type} (tree : list Vector)
    (group_step : list Vector * A -> gset nat -> result (list Vector * A))
    (i : nat) (todo : list nat) (processed : gset nat) (state : list Vector * A) :
  i ∈ processed ->
  NodeMerger.partition_loop tree group_step (i :: todo) processed state
  = NodeMerger.partition_loop tree group_step todo processed state.
Proof. intros Hi. simpl. by rewrite decide_True. Qed.

Lemma partition_loop_take {A : Type} (tree : list Vector)
    (group_step : list Vector * A -> gset nat -> result (list Vector * A))
    (i : nat) (todo : list nat) (processed merge_set : gset nat)
    (state : list Vector * A) :
  i ∉ processed ->
  NodeMerger.find_merge_set tree state.1 i = Some merge_set ->
  merge_set ## processed ->
  NodeMerger.partition_loop tree group_step (i :: todo) processed state
  = group_step state merge_set
    ≫= NodeMerger.partition_loop tree group_step todo (processed ∪ merge_set).
Proof.
  intros Hi Hfind Hdisj. simpl. rewrite decide_False, Hfind by done.
  by rewrite bool_decide_eq_true_2.
Qed.

(** The loop that records the merge sets only adds to the ones found. *)
Lemma collect_loop_extends (tree : list Vector) (todo : list nat) (processed : gset nat)
    (point : list Vector) (found : list (gset nat))
    (state : list Vector * list (gset nat)) :
  NodeMerger.partition_loop tree NodeMerger.collect todo processed (point, found) = Ok state ->
  exists clusters, state = (point, found ++ clusters).
Proof.
  revert processed found. induction todo as [|i todo IH]; intros processed found; simpl.
  - intros [= <-]. exists []. by rewrite app_nil_r.
  - destruct (decide (i ∈ processed)); [apply IH|].
    destruct (NodeMerger.find_merge_set tree point i) as [ms|]; [|discriminate].
    destruct (bool_decide (ms ## processed)); simpl; [|discriminate].
    intros [cs ->]%IH. exists (ms :: cs). by rewrite <- app_assoc.
Qed.

Section InitializeFacts.

Context {N : Type} `{MergeNode N}.

Variable nodes : list N.

Lemma merge_list_of_nodes (merge_set : gset nat) (n : obj N) :
  n ∈ merge_list_of nodes merge_set -> n.1 ∈ merge_set /\ nodes !! n.1 = Some n.2.
Proof.
  unfold merge_list_of. rewrite sort_by_perm. intros (i & Hi & Hn)%list_elem_of_omap.
  apply elem_of_elements in Hi. destruct (nodes !! i) as [m|] eqn:Hm; simplify_eq/=. done.
Qed.


(** A group whose nodes are where they were registered starts from
    [init_store]. *)
Lemma group_store_fresh (point : list Vector) (merge_set : gset nat) :
  (forall i, i ∈ merge_set -> point !! i = (node_point <$> nodes) !! i) ->
  group_store point (merge_list_of nodes merge_set).*1
  = init_store (merge_list_of nodes merge_set).*2.
Proof.
  intros Hfresh. unfold group_store, init_store.
  rewrite <- !list_fmap_compose. f_equal.
  apply list_fmap_ext. intros k n Hn%list_elem_of_lookup_2%merge_list_of_nodes.
  destruct Hn as [Hin Hnode]. simpl. rewrite list_lookup_total_alt, Hfresh by done.
  by rewrite list_lookup_fmap, Hnode.
Qed.

(** Building a group moves no node of another cluster. *)
Lemma store_points_other (point : list Vector) (ids : list nat) (st : Store) (j : nat) :
  j ∉ ids -> store_points point ids st !! j = point !! j.
Proof.
  unfold store_points. intros Hj.
  assert (Hgen : forall (l : list (obj nat)) (pt : list Vector), j ∉ l.*2 ->
            foldl (fun pt (n : obj nat) => <[n.2 := st_point st !!! n.1]> pt) pt l !! j
            = pt !! j).
  { induction l as [|x l IH]; intros pt Hl; simpl; [done|].
    rewrite fmap_cons in Hl. apply not_elem_of_cons in Hl as [Hx Hl].
    rewrite IH by done. by apply list_lookup_insert_ne. }
  apply Hgen. intros (n & -> & Hn)%list_elem_of_fmap. apply Hj.
  destruct n as [k i]. apply elem_of_objects in Hn. simpl.
  eapply list_elem_of_lookup_2; eauto.
Qed.


Lemma group_step_unfold (point : list Vector) (acc : list nat * list Group)
    (merge_set : gset nat) :
  group_step nodes (point, acc) merge_set
  = cls ← select_group_class (merge_list_of nodes merge_set).*2;
    r ← build (merge_list_of nodes merge_set).*2
              (group_store point (merge_list_of nodes merge_set).*1) [];
    Ok (store_points point (merge_list_of nodes merge_set).*1 r.1.1,
        (acc.1 ++ omap (fun k => (merge_list_of nodes merge_set).*1 !! k) r.2,
         acc.2 ++ [{| g_class := cls; g_nodes := (merge_list_of nodes merge_set).*1;
                      g_store := r.1.1;
                      g_final := omap (fun k => (merge_list_of nodes merge_set).*1 !! k)
                                      r.1.2 |}])).
Proof.
  unfold group_step. destruct (select_group_class _); simpl; [|done].
  by destruct (build _ _ _) as [[[st finals] out]|].
Qed.



(** Lines 89-110 go through for the cluster [c], from its nodes as they
    were registered. *)
Definition cluster_ok (c : gset nat) : Prop :=
  (exists cls, select_group_class (merge_list_of nodes c).*2 = Ok cls) /\
  exists r, build (merge_list_of nodes c).*2 (init_store (merge_list_of nodes c).*2) []
            = Ok r.

(** Lines 89-110 raise [e] for the cluster [c]: when its group class is
    chosen or, once it has one, when its group is built. *)
Definition cluster_fails (c : gset nat) (e : exn) : Prop :=
  select_group_class (merge_list_of nodes c).*2 = Raise e \/
  ((exists cls, select_group_class (merge_list_of nodes c).*2 = Ok cls) /\
   build (merge_list_of nodes c).*2 (init_store (merge_list_of nodes c).*2) [] = Raise e).

Lemma initialize_loop_first_failure (todo : list nat) (processed : gset nat)
    (point : list Vector) (acc : list nat * list Group) (found clusters : list (gset nat)) :
  partition_inv (node_point <$> nodes) processed found ->
  (forall j, j ∉ processed -> point !! j = (node_point <$> nodes) !! j) ->
  Forall (fun i => i < length nodes) todo ->
  NodeMerger.partition_loop (node_point <$> nodes) (NodeMerger.collect) todo processed
                            (node_point <$> nodes, found)
    = Ok (node_point <$> nodes, found ++ clusters) ->
  (exists state,
     NodeMerger.partition_loop (node_point <$> nodes) (group_step nodes) todo processed
                               (point, acc) = Ok state /\
     Forall cluster_ok clusters) \/
  (exists k c e,
     clusters !! k = Some c /\ Forall cluster_ok (take k clusters) /\ cluster_fails c e /\
     NodeMerger.partition_loop (node_point <$> nodes) (group_step nodes) todo processed
                               (point, acc) = Raise e).
Proof.
  revert processed point acc found clusters.
  induction todo as [|i todo IH]; intros processed point acc found clusters Hinv Hfresh Hlt.
  - simpl. intros [= Hfound]. left. eexists. split; [done|].
    rewrite <- (app_nil_r found) in Hfound at 1. apply app_inv_head in Hfound as <-.
    constructor.
  - apply Forall_cons in Hlt as [Hi Hlt].
    destruct (decide (i ∈ processed)) as [Hin|Hnin].
    { rewrite !partition_loop_skip by done. by apply IH. }
    destruct (next_merge_set (node_point <$> nodes) point processed found i)
      as (ms & Hmoved & Hstatic & Hclass & Hdisj); auto.
    { by rewrite length_fmap. }
    rewrite (partition_loop_take _ (group_step nodes) _ _ _ ms) by done.
    rewrite (partition_loop_take _ NodeMerger.collect _ _ _ ms) by done.
    assert (Hmembers : forall j, j ∈ ms -> j < length nodes).
    { intros j Hj. destruct Hclass as [_ Hcl]. apply Hcl in Hj.
      rewrite <- (length_fmap node_point). eapply chained_lt; eauto.
      by rewrite length_fmap. }
    intros Hcollect. unfold NodeMerger.collect in Hcollect at 1. simpl in Hcollect.
    destruct (collect_loop_extends _ _ _ _ _ _ Hcollect) as [cs [= Hcs]].
    rewrite <- app_assoc in Hcs. apply app_inv_head in Hcs. simpl in Hcs. subst clusters.
    rewrite (cons_middle ms found cs), (app_assoc found [ms] cs) in Hcollect.
    rewrite group_step_unfold.
    rewrite group_store_fresh by (intros j Hj; apply Hfresh; intros Hp; by apply (Hdisj j)).
    destruct (select_group_class _) as [cls|e] eqn:Hcls; simpl.
    2:{ right. exists 0, ms, e. split_and!; [done|constructor|by left|done]. }
    destruct (build _ _ _) as [[[st finals] out]|e] eqn:Hbuild; simpl.
    2:{ right. exists 0, ms, e. split_and!; [done|constructor| |done]. right. eauto. }
    assert (Hok : cluster_ok ms) by (split; eauto).
    assert (Hinv1 : partition_inv (node_point <$> nodes) (processed ∪ ms) (found ++ [ms]))
      by (eapply partition_inv_snoc; eauto).
    match goal with
    | |- (exists state, NodeMerger.partition_loop _ _ _ _ (?pt, ?ac) = _ /\ _) \/ _ =>
        destruct (IH (processed ∪ ms) pt ac (found ++ [ms]) cs Hinv1)
          as [(state & Hstate & Hall)|(k & c & e & Hk & Hbefore & Hfails & Hraise)]
    end; auto.
    + intros j Hj. rewrite store_points_other; [apply Hfresh; set_solver|].
      intros (n & -> & [Hn _]%merge_list_of_nodes)%list_elem_of_fmap. set_solver.
    + left. exists state. split; [done|]. by constructor.
    + right. exists (S k), c, e. split_and!; auto. simpl. by constructor.
Qed.

(** [initialize] either builds every cluster of the partition, or stops at
    the first cluster for which choosing the group class or building the
    group raises, with that exception. *)
Lemma initialize_first_failure (clusters : list (gset nat)) :
  NodeMerger.merge_sets (node_point <$> nodes) = Ok clusters ->
  (exists r, initialize nodes = Ok r /\ Forall cluster_ok clusters) \/
  (exists k c e,
     clusters !! k = Some c /\ Forall cluster_ok (take k clusters) /\ cluster_fails c e /\
     initialize nodes = Raise e).
Proof.
  unfold initialize, NodeMerger.merge_sets. rewrite length_fmap.
  destruct (NodeMerger.partition_loop _ NodeMerger.collect _ _ _) as [state|] eqn:Hcollect;
    simpl; [|discriminate].
  intros [= Hstate].
  destruct (collect_loop_extends _ _ _ _ _ _ Hcollect) as [cs ->].
  simpl in Hstate. subst cs.
  destruct (initialize_loop_first_failure (seq 0 (length nodes)) ∅ (node_point <$> nodes)
              ([], []) [] clusters)
    as [(state & -> & Hall)|(k & c & e & Hk & Hbefore & Hfails & ->)]; auto.
  - apply partition_inv_empty.
  - apply Forall_forall. intros i Hi%elem_of_seq. lia.
  - left. eauto.
  - right. exists k, c, e. done.
Qed.

End InitializeFacts.

(** *** Examples: whole runs of [initialize] *)

(** Two chains register an end point each, a micro-unit apart: one
    cluster, one master. *)
Definition two_endpoints : list ControlBoneNode :=
  [{| cbn_rig := tail_rig; cbn_org := "tail"; cbn_name := "tail_start";
      cbn_point := (micro 1, q 0, q 1); cbn_name_split := ("tail_start", 0%Z, 0%Z);
      cbn_size := q 1; cbn_layer := ControlNodeLayer.FREE; cbn_icon := ControlNodeIcon.FREE;
      cbn_needs_parent := false; cbn_needs_reparent := false; cbn_rig_rotation := qzero |};
   {| cbn_rig := spine_rig; cbn_org := "spine"; cbn_name := "spine_end";
      cbn_point := (q 0, q 0, q 1); cbn_name_split := ("spine_end", 0%Z, 0%Z);
      cbn_size := q 1; cbn_layer := ControlNodeLayer.FREE; cbn_icon := ControlNodeIcon.FREE;
      cbn_needs_parent := false; cbn_needs_reparent := false; cbn_rig_rotation := qzero |}].

Example two_endpoints_one_master :
  NodeMerger.merge_sets (node_point <$> two_endpoints) = Ok [{[ 0; 1 ]}] /\
  exists group,
    initialize two_endpoints = Ok ([1], [group]) /\
    g_nodes group = [1; 0] /\ g_final group = [1] /\
    st_merged_into (g_store group) = [None; Some 0].
Proof. split; [by vm_compute|]. eexists. split; [by vm_compute|]. by vm_compute. Qed.

(** The defect of [build] stops the whole of [initialize]. *)
Example initialize_raises_for_unmergeable_pair :
  initialize [tweak_node; free_node] = Raise (ValueError "max() arg is an empty sequence").
Proof. by vm_compute. Qed.

Example initialize_raises_group_class_conflict :
  initialize [loop_node; chain_node]
  = Raise (MetarigError
      "Group class conflict: <class 'ChainGroup'> and <class 'LoopGroup'> from c of tail").
Proof. by vm_compute. Qed.

(** C4, as the code has it.  A cluster of the partition whose group
    classes form a single-inheritance hierarchy and two of whose members
    have incomparable group classes stops [initialize]: it raises.  Either
    an earlier cluster has failed, with its own exception, or every earlier
    cluster has gone through and the exception is the [MetarigError] of
    lines 101-105, raised at a member [item] of the cluster whose class is
    incomparable with the running class, the class of a member of the
    cluster; its message is made of these two classes, the name of [item]
    and the base bone of the rig of [item]. *)
Theorem group_class_conflict_raises {N : Type} `{MergeNode N}
    (nodes : list N) (clusters : list (gset nat)) (k : nat) (c : gset nat) (x y : N) :
  NodeMerger.merge_sets (node_point <$> nodes) = Ok clusters ->
  clusters !! k = Some c ->
  single_inheritance (group_class <$> (merge_list_of nodes c).*2) ->
  x ∈ (merge_list_of nodes c).*2 -> y ∈ (merge_list_of nodes c).*2 ->
  incomparable (group_class x) (group_class y) ->
  exists e,
    initialize nodes = Raise e /\
    ((exists j c', j < k /\ clusters !! j = Some c' /\ cluster_fails nodes c' e) \/
     (Forall (cluster_ok nodes) (take k clusters) /\
      exists running item earlier,
        e = MetarigError (conflict_message running (group_class item) item) /\
        item ∈ (merge_list_of nodes c).*2 /\ earlier ∈ (merge_list_of nodes c).*2 /\
        running = group_class earlier /\
        incomparable running (group_class item) /\
        contains (cls_repr running) (conflict_message running (group_class item) item) = true /\
        contains (cls_repr (group_class item))
                 (conflict_message running (group_class item) item) = true /\
        contains (node_name item) (conflict_message running (group_class item) item) = true /\
        contains (base_bone (node_rig item))
                 (conflict_message running (group_class item) item) = true)).
Proof.
  intros Hsets Hk Hsi Hx Hy Hinc.
  destruct (select_group_class_conflict _ x y Hsi Hx Hy Hinc)
    as (running & item & earlier & Hraise & Hrest).
  destruct (initialize_first_failure nodes clusters Hsets)
    as [(r & _ & Hall)|(k0 & c0 & e & Hk0 & Hbefore & Hfails & Hinit)].
  - exfalso. destruct (proj1 (Forall_lookup _ _) Hall k c Hk) as [[cls Hcls] _].
    congruence.
  - exists e. split; [exact Hinit|].
    destruct (lt_eq_lt_dec k0 k) as [[Hlt|Heq]|Hgt].
    + left. eauto.
    + subst k0. assert (c0 = c) as -> by congruence.
      right. split; [exact Hbefore|].
      destruct Hfails as [Hsel|[[cls Hcls] _]]; [|congruence].
      exists running, item, earlier. split; [congruence|exact Hrest].
    + exfalso.
      assert (Hc : take k0 clusters !! k = Some c) by (by rewrite lookup_take_lt).
      destruct (proj1 (Forall_lookup _ _) Hbefore k c Hc) as [[cls Hcls] _]. congruence.
Qed.

Lemma group_class_conflict_raises_witness :
  exists e,
    initialize [loop_node; chain_node] = Raise e /\
    ((exists j c', j < 0 /\ [({[ 0; 1 ]} : gset nat)] !! j = Some c' /\
                   cluster_fails [loop_node; chain_node] c' e) \/
     (Forall (cluster_ok [loop_node; chain_node]) (take 0 [({[ 0; 1 ]} : gset nat)]) /\
      exists running item earlier,
        e = MetarigError (conflict_message running (group_class item) item) /\
        item ∈ (merge_list_of [loop_node; chain_node] {[ 0; 1 ]}).*2 /\
        earlier ∈ (merge_list_of [loop_node; chain_node] {[ 0; 1 ]}).*2 /\
        running = group_class earlier /\
        incomparable running (group_class item) /\
        contains (cls_repr running) (conflict_message running (group_class item) item) = true /\
        contains (cls_repr (group_class item))
                 (conflict_message running (group_class item) item) = true /\
        contains (node_name item) (conflict_message running (group_class item) item) = true /\
        contains (base_bone (node_rig item))
                 (conflict_message running (group_class item) item) = true)).
Proof.
  apply (group_class_conflict_raises [loop_node; chain_node] [{[ 0; 1 ]}] 0 {[ 0; 1 ]}
           chain_node loop_node).
  - by vm_compute.
  - reflexivity.
  - apply (bool_decide_unpack _). vm_compute. exact I.
  - change (chain_node ∈ [chain_node; loop_node]). apply elem_of_cons. by left.
  - change (loop_node ∈ [chain_node; loop_node]).
    apply elem_of_cons. right. apply elem_of_cons. by left.
  - split; reflexivity.
Defined.

(** * Further properties of the code *)

(** ** The order in which control nodes merge *)

(** The pair a control node is ranked by: the chain priority of its rig,
    then its layer. *)
Definition merge_rank (n : ControlBoneNode) : Z * Z :=
  (chain_priority (cbn_rig n), ControlNodeLayer.value (cbn_layer n)).

Definition rank_le (r s : Z * Z) : Prop :=
  (r.1 < s.1)%Z \/ (r.1 = s.1 /\ r.2 <= s.2)%Z.

Lemma cbn_can_merge_into_rank (a b : ControlBoneNode) :
  cbn_can_merge_into a b = true <-> rank_le (merge_rank a) (merge_rank b).
Proof.
  unfold cbn_can_merge_into, rank_le, merge_rank. cbn [fst snd].
  rewrite andb_true_r, andb_true_iff, orb_true_iff.
  rewrite !Z.leb_le, Z.ltb_lt. lia.
Qed.

Lemma cbn_can_merge_into_both (a b : ControlBoneNode) :
  cbn_can_merge_into a b = true /\ cbn_can_merge_into b a = true <->
  chain_priority (cbn_rig a) = chain_priority (cbn_rig b) /\ cbn_layer a = cbn_layer b.
Proof.
  rewrite !cbn_can_merge_into_rank. unfold rank_le, merge_rank. cbn [fst snd].
  split.
  - intros [H1 H2]. split; [lia|].
    assert (ControlNodeLayer.value (cbn_layer a) = ControlNodeLayer.value (cbn_layer b)) by lia.
    by destruct (cbn_layer a), (cbn_layer b).
  - intros [-> ->]. lia.
Qed.

(** [can_merge_into] of control nodes compares them by chain priority
    first and by layer second: it is reflexive and transitive, of two
    nodes at least one can merge into the other, and both can exactly when
    they have the same chain priority and the same layer. *)
Theorem cbn_can_merge_into_total_preorder :
  (forall a, cbn_can_merge_into a a = true) /\
  (forall a b c, cbn_can_merge_into a b = true -> cbn_can_merge_into b c = true ->
                 cbn_can_merge_into a c = true) /\
  (forall a b, cbn_can_merge_into a b = true \/ cbn_can_merge_into b a = true) /\
  (forall a b, cbn_can_merge_into a b = true /\ cbn_can_merge_into b a = true <->
               chain_priority (cbn_rig a) = chain_priority (cbn_rig b) /\
               cbn_layer a = cbn_layer b).
Proof.
  split_and!.
  - intros a. apply cbn_can_merge_into_rank. unfold rank_le. lia.
  - intros a b c. rewrite !cbn_can_merge_into_rank. unfold rank_le. lia.
  - intros a b. rewrite !cbn_can_merge_into_rank. unfold rank_le. lia.
  - exact cbn_can_merge_into_both.
Qed.

(** Among the candidates of a bucket, [max(nodes, key=node.get_merge_priority)]
    picks a node at the layer of [self] or above whenever there is one, and
    then one of the lowest such layer: "prefer higher and closest layer". *)
Theorem best_target_is_closest_layer_above (self : ControlBoneNode)
    (cands : list (obj ControlBoneNode)) (best : obj ControlBoneNode) :
  py_max (fun n : obj ControlBoneNode => cbn_get_merge_priority self n.2) cands = Ok best ->
  (exists t, t ∈ cands /\
     (ControlNodeLayer.value (cbn_layer self) <= ControlNodeLayer.value (cbn_layer t.2))%Z) ->
  best ∈ cands /\
  (ControlNodeLayer.value (cbn_layer self) <= ControlNodeLayer.value (cbn_layer best.2))%Z /\
  forall t, t ∈ cands ->
    (ControlNodeLayer.value (cbn_layer self) <= ControlNodeLayer.value (cbn_layer t.2))%Z ->
    (ControlNodeLayer.value (cbn_layer best.2) <= ControlNodeLayer.value (cbn_layer t.2))%Z.
Proof.
  intros Hmax (t0 & Ht0 & Hle0).
  pose proof (py_max_ge _ _ _ Hmax) as Hge. pose proof (py_max_in _ _ _ Hmax) as Hin.
  assert (Hval : forall l, (0 <= ControlNodeLayer.value l <= 20)%Z) by (intros []; simpl; lia).
  pose proof (Hval (cbn_layer self)) as Hs. pose proof (Hval (cbn_layer best.2)) as Hb.
  split; [exact Hin|].
  assert (Hbest : (ControlNodeLayer.value (cbn_layer self)
                   <= ControlNodeLayer.value (cbn_layer best.2))%Z).
  { specialize (Hge t0 Ht0). cbn beta in Hge. unfold cbn_get_merge_priority in Hge.
    pose proof (Hval (cbn_layer t0.2)) as H0.
    rewrite (proj2 (Z.leb_le _ _) Hle0) in Hge.
    destruct (Z.leb_spec (ControlNodeLayer.value (cbn_layer self))
                         (ControlNodeLayer.value (cbn_layer best.2))); lia. }
  split; [exact Hbest|]. intros t Ht Hle.
  specialize (Hge t Ht). cbn beta in Hge. unfold cbn_get_merge_priority in Hge.
  rewrite (proj2 (Z.leb_le _ _) Hle), (proj2 (Z.leb_le _ _) Hbest) in Hge. lia.
Qed.

Lemma best_target_is_closest_layer_above_witness :
  (1, tweak_node) ∈ [(0, free_node); (1, tweak_node)] /\
  (ControlNodeLayer.value (cbn_layer tweak_node)
   <= ControlNodeLayer.value (cbn_layer (1, tweak_node).2))%Z /\
  forall t, t ∈ [(0, free_node); (1, tweak_node)] ->
    (ControlNodeLayer.value (cbn_layer tweak_node) <= ControlNodeLayer.value (cbn_layer t.2))%Z ->
    (ControlNodeLayer.value (cbn_layer (1, tweak_node).2)
     <= ControlNodeLayer.value (cbn_layer t.2))%Z.
Proof.
  apply (best_target_is_closest_layer_above tweak_node [(0, free_node); (1, tweak_node)]).
  - reflexivity.
  - exists (1, tweak_node). split; [|simpl; lia].
    apply elem_of_cons. right. apply elem_of_cons. by left.
Defined.

(** ** Query nodes *)

Lemma insert_desc_perm {A : Type} (key : A -> Z) (x : A) (l : list A) :
  insert_desc key x l ≡ₚ x :: l.
Proof.
  induction l as [|y l IH]; simpl; [done|].
  destruct (key y <=? key x)%Z; [done|]. rewrite IH. apply Permutation_swap.
Qed.

Lemma sort_desc_perm {A : Type} (key : A -> Z) (l : list A) : sort_desc key l ≡ₚ l.
Proof.
  unfold sort_desc. induction l as [|x l IH]; simpl; [done|].
  by rewrite insert_desc_perm, IH.
Qed.

(** No element is followed by one of a greater key. *)
Definition descending {A : Type} (key : A -> Z) (l : list A) : Prop :=
  forall i j x y, i < j -> l !! i = Some x -> l !! j = Some y -> (key y <= key x)%Z.

Lemma descending_cons {A : Type} (key : A -> Z) (x : A) (l : list A) :
  descending key (x :: l) <-> (forall y, y ∈ l -> (key y <= key x)%Z) /\ descending key l.
Proof.
  split.
  - intros Hd. split.
    + intros y (j & Hj)%list_elem_of_lookup. apply (Hd 0 (S j) x y); [lia|done|done].
    + intros i j a b Hij Ha Hb. apply (Hd (S i) (S j) a b); [lia|done|done].
  - intros [Hx Hd] i j a b Hij Ha Hb. destruct j as [|j]; [lia|]. simpl in Hb.
    destruct i as [|i]; simpl in Ha.
    + injection Ha as <-. apply Hx. by eapply list_elem_of_lookup_2.
    + apply (Hd i j a b); [lia|done|done].
Qed.

Lemma insert_desc_descending {A : Type} (key : A -> Z) (x : A) (l : list A) :
  descending key l -> descending key (insert_desc key x l).
Proof.
  induction l as [|y l IH]; simpl; intros Hd.
  - apply descending_cons. split; [by intros y ?%elem_of_nil|done].
  - apply descending_cons in Hd as [Hy Hd].
    destruct (Z.leb_spec (key y) (key x)) as [Hle|Hlt].
    + apply descending_cons. split.
      * intros z [->|Hz]%elem_of_cons; [done|]. specialize (Hy z Hz). lia.
      * apply descending_cons. by split.
    + apply descending_cons. split; [|by apply IH].
      intros z Hz. rewrite insert_desc_perm in Hz.
      apply elem_of_cons in Hz as [->|Hz]; [lia|by apply Hy].
Qed.

Lemma sort_desc_descending {A : Type} (key : A -> Z) (l : list A) :
  descending key (sort_desc key l).
Proof.
  unfold sort_desc. induction l as [|x l IH]; simpl.
  - intros i j x y _ Hx. by rewrite lookup_nil in Hx.
  - by apply insert_desc_descending.
Qed.

Lemma insert_desc_stable {A : Type} (key : A -> Z) (k : Z) (x : A) (l : list A) :
  descending key l ->
  filter (fun y => key y = k) (insert_desc key x l) = filter (fun y => key y = k) (x :: l).
Proof.
  induction l as [|y l IH]; simpl; intros Hd; [done|].
  apply descending_cons in Hd as [Hy Hd].
  destruct (Z.leb_spec (key y) (key x)) as [Hle|Hlt]; [done|].
  rewrite (filter_cons _ y), IH by done. rewrite !filter_cons.
  destruct (decide (key y = k)) as [Hyk|Hyk], (decide (key x = k)) as [Hxk|Hxk];
    try done. lia.
Qed.

Lemma sort_desc_stable {A : Type} (key : A -> Z) (k : Z) (l : list A) :
  filter (fun y => key y = k) (sort_desc key l) = filter (fun y => key y = k) l.
Proof.
  induction l as [|x l IH]; [done|].
  change (sort_desc key (x :: l)) with (insert_desc key x (sort_desc key l)).
  rewrite insert_desc_stable by apply sort_desc_descending.
  by rewrite !filter_cons, IH.
Qed.

(** [matched_nodes] lists the final nodes the query node can merge into,
    each once, by descending priority; nodes of equal priority keep the
    order they have in [final_nodes]. *)
Theorem matched_nodes_sorted {Q N : Type} (q_can_merge_into : Q -> N -> bool)
    (q_get_merge_priority : Q -> N -> Z) (self : Q) (final_nodes : list (obj N)) :
  matched_nodes q_can_merge_into q_get_merge_priority self final_nodes
    ≡ₚ filter (fun n : obj N => q_can_merge_into self n.2 = true) final_nodes /\
  descending (fun n : obj N => q_get_merge_priority self n.2)
             (matched_nodes q_can_merge_into q_get_merge_priority self final_nodes) /\
  forall k : Z,
    filter (fun n : obj N => q_get_merge_priority self n.2 = k)
           (matched_nodes q_can_merge_into q_get_merge_priority self final_nodes)
    = filter (fun n : obj N => q_get_merge_priority self n.2 = k)
             (filter (fun n : obj N => q_can_merge_into self n.2 = true) final_nodes).
Proof.
  unfold matched_nodes. split; [apply sort_desc_perm|].
  split; [apply sort_desc_descending|]. intros k.
  apply (sort_desc_stable (fun n : obj N => q_get_merge_priority self n.2)).
Qed.

Lemma sort_desc_head {A : Type} (key : A -> Z) (l : list A) (m : A) (rest : list A) :
  sort_desc key l = m :: rest ->
  exists before after, l = before ++ m :: after /\
    (forall n, n ∈ before -> (key n < key m)%Z) /\
    (forall n, n ∈ after -> (key n <= key m)%Z).
Proof.
  revert m rest. induction l as [|x l IH]; intros m rest; [discriminate|].
  change (sort_desc key (x :: l)) with (insert_desc key x (sort_desc key l)).
  destruct (sort_desc key l) as [|y r] eqn:Hsort; simpl.
  - intros [= <- <-]. exists [], l. split; [done|]. split; [by intros n ?%elem_of_nil|].
    assert (l = []) as ->; [|by intros n ?%elem_of_nil].
    apply Permutation_nil_r. by rewrite <- Hsort, sort_desc_perm.
  - destruct (IH y r eq_refl) as (before & after & -> & Hb & Ha).
    destruct (Z.leb_spec (key y) (key x)) as [Hle|Hlt]; intros [= <- <-].
    + exists [], (before ++ y :: after). split; [done|]. split; [by intros n ?%elem_of_nil|].
      intros n [Hn|[->|Hn]%elem_of_cons]%elem_of_app; [specialize (Hb n Hn)|
                                                         |specialize (Ha n Hn)]; lia.
    + exists (x :: before), after. split; [done|]. split; [|done].
      intros n [->|Hn]%elem_of_cons; auto.
Qed.

(** The master a query node reports is a final node of its group of the
    highest layer, the first of them in [final_nodes]; for a
    [ControlQueryNode] it is one of the lowest layer.  In a group without
    a final node the property raises [IndexError]. *)
Theorem query_merged_master_extreme_layer (self : ControlQueryClass)
    (final_nodes : list (obj ControlBoneNode)) :
  (final_nodes = [] -> query_merged_master self final_nodes = Raise IndexError) /\
  (final_nodes <> [] ->
   exists master before after,
     query_merged_master self final_nodes = Ok master /\
     final_nodes = before ++ master :: after /\
     match self with
     | ControlQueryNode =>
         (forall n, n ∈ before -> (ControlNodeLayer.value (cbn_layer master.2)
                                   < ControlNodeLayer.value (cbn_layer n.2))%Z) /\
         (forall n, n ∈ after -> (ControlNodeLayer.value (cbn_layer master.2)
                                  <= ControlNodeLayer.value (cbn_layer n.2))%Z)
     | _ =>
         (forall n, n ∈ before -> (ControlNodeLayer.value (cbn_layer n.2)
                                   < ControlNodeLayer.value (cbn_layer master.2))%Z) /\
         (forall n, n ∈ after -> (ControlNodeLayer.value (cbn_layer n.2)
                                  <= ControlNodeLayer.value (cbn_layer master.2))%Z)
     end).
Proof.
  unfold query_merged_master, matched_nodes.
  rewrite filter_all by (intros; reflexivity). split.
  - intros ->. reflexivity.
  - intros Hne.
    destruct (sort_desc _ final_nodes) as [|m rest] eqn:Hsort.
    { exfalso. apply Hne. apply Permutation_nil_r. by rewrite <- Hsort, sort_desc_perm. }
    apply sort_desc_head in Hsort as (before & after & -> & Hb & Ha).
    exists m, before, after. split; [done|]. split; [done|].
    destruct self; simpl in Hb, Ha; split; intros n Hn;
      try specialize (Hb n Hn); try specialize (Ha n Hn); lia.
Qed.

(** ** Masters and followers after [build] *)

Section MasterFacts.

Context {N : Type} `{MergeNode N}.

Variable nodes : list N.

(** The value [merge_done] assigns to [node.merged_master]. *)
Definition master_of (st : Store) (c : nat) : option nat :=
  Some (default c (st_merged_into st !!! c)).

Lemma merge_done_leaf_master (depth : nat) (st st' : Store) (c : nat) :
  st_merged st !!! c = [] -> merge_done nodes depth st c = Ok st' ->
  st_merged_master st' = <[c := master_of st c]> (st_merged_master st).
Proof.
  intros Hleaf. destruct depth; simpl; rewrite Hleaf; simpl.
  - destruct (nodes !! c); [|by intros [= <-]].
    destruct (merge_done_hook _ _); simpl; [|discriminate]. by intros [= <-].
  - destruct (nodes !! c); [|by intros [= <-]].
    destruct (merge_done_hook _ _); simpl; [|discriminate]. by intros [= <-].
Qed.

Lemma merge_done_leaves_master (depth : nat) (children : list nat) (st st' : Store) :
  Forall (fun c => st_merged st !!! c = []) children ->
  rfoldl (merge_done nodes depth) st children = Ok st' ->
  st_merged_master st'
  = foldl (fun mm c => <[c := master_of st c]> mm) (st_merged_master st) children.
Proof.
  revert st. induction children as [|c children IH]; intros st Hall; simpl.
  - by intros [= <-].
  - apply Forall_cons in Hall as [Hc Hall].
    destruct (merge_done nodes depth st c) as [st1|] eqn:Hst1; simpl; [|discriminate].
    intros Hrest. pose proof (merge_done_frame _ _ _ _ _ Hst1) as (_ & Hinto & Hmerged).
    rewrite (IH st1 (eq_ind_r (fun m => Forall (fun c => m !!! c = []) children) Hall Hmerged)
                Hrest).
    rewrite (merge_done_leaf_master _ _ _ _ Hc Hst1).
    unfold master_of. by rewrite Hinto.
Qed.

Lemma foldl_insert_lookup {A : Type} `{Inhabited A} (f : nat -> A) (l : list nat)
    (mm : list A) (i : nat) :
  Forall (fun c => c < length mm) l ->
  foldl (fun mm c => <[c := f c]> mm) mm l !!! i
  = if decide (i ∈ l) then f i else mm !!! i.
Proof.
  revert mm. induction l as [|c l IH]; intros mm Hlt; cbn [foldl].
  - rewrite decide_False; [done|]. by intros ?%elem_of_nil.
  - apply Forall_cons in Hlt as [Hc Hlt]. rewrite IH.
    + destruct (decide (i ∈ l)) as [Hin|Hnin].
      * rewrite decide_True; [done|]. apply elem_of_cons. by right.
      * destruct (decide (i = c)) as [->|Hic].
        -- rewrite decide_True by (apply elem_of_cons; by left).
           by apply list_lookup_total_insert_eq.
        -- rewrite decide_False by (intros [?|?]%elem_of_cons; done).
           by apply list_lookup_total_insert_ne.
    + eapply Forall_impl; [exact Hlt|]. intros x Hx. cbn beta. by rewrite length_insert.
Qed.

Lemma foldl_insert_length {A : Type} (f : nat -> A) (l : list nat) (mm : list A) :
  length (foldl (fun mm c => <[c := f c]> mm) mm l) = length mm.
Proof.
  revert mm. induction l as [|c l IH]; intros mm; simpl; [done|].
  by rewrite IH, length_insert.
Qed.

(** [merge_done] on a node whose followers have no followers of their
    own: the node and its followers get their [merged_master]. *)
Lemma merge_done_master_spec (depth : nat) (st st' : Store) (self : nat) :
  Forall (fun c => st_merged st !!! c = []) (st_merged st !!! self) ->
  Forall (fun c => c < length (st_merged_master st)) (self :: st_merged st !!! self) ->
  merge_done nodes (S depth) st self = Ok st' ->
  length (st_merged_master st') = length (st_merged_master st) /\
  forall i, st_merged_master st' !!! i
            = if decide (i ∈ st_merged st !!! self) then master_of st i
              else if decide (i = self) then master_of st self
              else st_merged_master st !!! i.
Proof.
  intros Hleaves [Hself Hlt]%Forall_cons. simpl.
  set (st1 := {| st_point := st_point st |}).
  destruct (rfoldl _ st1 _) as [st2|] eqn:Hfold; simpl; [|discriminate].
  assert (Hst' : st' = st2 -> length (st_merged_master st') = length (st_merged_master st) /\
            forall i, st_merged_master st' !!! i
              = if decide (i ∈ st_merged st !!! self) then master_of st i
                else if decide (i = self) then master_of st self
                else st_merged_master st !!! i).
  { intros ->. apply merge_done_leaves_master in Hfold; [|exact Hleaves].
    rewrite Hfold. cbn [st1 st_merged_master st_merged]. split.
    - by rewrite foldl_insert_length, length_insert.
    - intros i. rewrite (foldl_insert_lookup (master_of st1)).
      + case_decide; [done|]. case_decide as Hi.
        * subst i. by apply list_lookup_total_insert_eq.
        * by apply list_lookup_total_insert_ne.
      + eapply Forall_impl; [exact Hlt|]. intros x Hx. cbn beta.
        by rewrite length_insert. }
  destruct (nodes !! self); [|intros [= <-]; by apply Hst'].
  destruct (merge_done_hook _ _); simpl; [|discriminate]. intros [= <-]. by apply Hst'.
Qed.

(** What the loop of [build] keeps about the nodes it is done with. *)
Record master_inv (ls : LoopState) : Prop := {
  mi_length : length (st_merged_master (ls_store ls)) = length nodes;
  mi_final : NoDup (ls_final ls);
  mi_followers : forall m, NoDup (st_merged (ls_store ls) !!! m);
  mi_done : forall i, i ∈ (main_nodes nodes).*1 -> i ∉ ls_pending ls ->
    (i ∈ ls_final ls /\ st_merged_master (ls_store ls) !!! i = Some i) \/
    (exists m, st_merged_into (ls_store ls) !!! i = Some m /\
               st_merged_master (ls_store ls) !!! i = Some m);
}.

Lemma build_step_masters (ls ls' : LoopState) :
  build_inv nodes ls -> master_inv ls -> build_step nodes ls = Ok ls' -> master_inv ls'.
Proof.
  intros Hinv Hmi. unfold build_step.
  destruct (py_max _ _) as [[best nbest]|] eqn:Hmax; simpl; [|discriminate].
  set (child_set := ls_table ls !!! best).
  set (centre := vdiv _ _).
  set (st1 := {| st_point := <[best:=centre]> (st_point (ls_store ls)) |}).
  set (children := filter _ _).
  destruct (merge_done _ _ _ _) as [st3|] eqn:Hdone; simpl; [|discriminate].
  intros [= <-].
  apply py_max_in, list_elem_of_filter in Hmax as [Hbp Hbm]. simpl in Hbp.
  assert (Hbid : best ∈ (main_nodes nodes).*1).
  { apply list_elem_of_fmap. by exists (best, nbest). }
  pose proof (main_id_lt _ _ Hbid) as Hblt.
  destruct (bi_wf _ _ Hinv) as (Hl1 & Hl2 & Hl3).
  destruct (bi_fresh _ _ Hinv best Hbp) as (Hbest_point & Hbest_merged & Hbest_into).
  assert (Hcs_pending : forall c, c ∈ child_set -> c ∈ ls_pending ls).
  { intros c. apply (bi_table _ _ Hinv). }
  assert (Hcs_edge : forall c, c ∈ child_set ->
            c ∈ (main_nodes nodes).*1 /\ rig_of nodes c <> rig_of nodes best).
  { intros c Hc. apply (bi_edges _ _ Hinv) in Hc. tauto. }
  assert (Hchildren : forall c, c ∈ children <-> c ∈ child_set).
  { intros c. unfold children. rewrite list_elem_of_filter.
    split; [tauto|]. intros Hc. split; auto. by apply Hcs_edge. }
  assert (Hbnc : best ∉ children).
  { intros Hb%Hchildren. by apply Hcs_edge in Hb as [_ Hb]. }
  assert (Hwf1 : store_wf nodes st1).
  { unfold store_wf, st1. simpl. by rewrite length_insert. }
  assert (Hclt : Forall (fun c => c < length nodes) children).
  { apply Forall_forall. intros c Hc%Hchildren. apply main_id_lt. by apply Hcs_edge. }
  destruct (link_children_spec nodes best children st1) as (Hwf2 & _ & Hi2 & Hm2 & Hmm2); auto.
  set (st2 := foldl (link_child best) st1 children) in *.
  assert (Hmerged2 : st_merged st2 !!! best = children).
  { rewrite Hm2, decide_True by done. unfold st1. simpl. by rewrite Hbest_merged. }
  assert (Hinto2 : forall i, st_merged_into st2 !!! i =
            if decide (i ∈ children) then Some best else st_merged_into (ls_store ls) !!! i).
  { intros i. by rewrite Hi2. }
  destruct (length nodes) as [|depth] eqn:Hlen; [lia|].
  pose proof (merge_done_frame _ _ _ _ _ Hdone) as (_ & Hi3 & Hm3).
  apply merge_done_master_spec in Hdone as [Hlen3 Hmaster3].
  2:{ rewrite Hmerged2. apply Forall_forall. intros c Hc.
      assert (c <> best) by (by intros ->).
      rewrite Hm2, decide_False by done. unfold st1. simpl.
      apply Hchildren, Hcs_pending in Hc. by destruct (bi_fresh _ _ Hinv c Hc) as (_ & ? & _). }
  2:{ rewrite Hmerged2, Hmm2. unfold st1. simpl. rewrite (mi_length _ Hmi).
      apply Forall_cons. split; [lia|]. eapply Forall_impl; [exact Hclt|]. intros x Hx. cbn beta in *. lia. }
  rewrite Hmerged2 in Hmaster3.
  assert (Hmaster : forall i, st_merged_master st3 !!! i =
            if decide (i ∈ children) then Some best
            else if decide (i = best) then Some best
            else st_merged_master (ls_store ls) !!! i).
  { intros i. rewrite Hmaster3. unfold master_of. case_decide as Hic.
    - by rewrite Hinto2, decide_True.
    - case_decide as Hib.
      + subst i. rewrite Hinto2, decide_False by done. by rewrite Hbest_into.
      + by rewrite Hmm2. }
  split; simpl.
  - rewrite Hlen3, Hmm2. unfold st1. simpl. apply (mi_length _ Hmi).
  - apply NoDup_app. split; [apply (mi_final _ Hmi)|]. split; [|apply NoDup_singleton].
    intros m Hm ->%list_elem_of_singleton.
    by destruct (bi_final _ _ Hinv _ Hm) as (_ & ? & _).
  - intros m. rewrite Hm3, Hm2. case_decide.
    + subst m. unfold st1. simpl. rewrite Hbest_merged. simpl.
      apply NoDup_filter, main_nodes_NoDup.
    + apply (mi_followers _ Hmi).
  - intros i Hi Hnp. rewrite Hmaster, Hi3, Hinto2.
    destruct (decide (i ∈ children)) as [Hic|Hic]; [right; eauto|].
    destruct (decide (i = best)) as [->|Hib].
    + left. split; [|done]. apply elem_of_app. right. by apply list_elem_of_singleton.
    + assert (Hold : i ∉ ls_pending ls).
      { intros Hp. apply Hnp.
        assert (i ∉ child_set) by (by rewrite <- Hchildren). set_solver. }
      destruct (mi_done _ Hmi i Hi Hold) as [[Hf Hm]|(m & Hinto & Hm)].
      * left. split; [|done]. apply elem_of_app. by left.
      * right. eauto.
Qed.

Lemma build_loop_masters (fuel : nat) (ls ls' : LoopState) :
  build_inv nodes ls -> master_inv ls -> build_loop nodes fuel ls = Ok ls' -> master_inv ls'.
Proof.
  revert ls. induction fuel as [|fuel IH]; intros ls Hinv Hmi; simpl.
  - destruct (decide (ls_pending ls = ∅)); [|discriminate]. by intros [= <-].
  - destruct (decide (ls_pending ls = ∅)); [by intros [= <-]|].
    destruct (build_step nodes ls) as [ls1|] eqn:Hstep; simpl; [|discriminate].
    apply IH.
    + by apply build_step_inv in Hstep as [? _].
    + by eapply build_step_masters.
Qed.

Lemma build_masters (final_nodes : list nat) (st : Store) (finals out : list nat) :
  build nodes (init_store nodes) final_nodes = Ok (st, finals, out) ->
  exists ls, build_inv nodes ls /\ master_inv ls /\ ls_pending ls = ∅ /\
             ls_store ls = st /\ ls_final ls = finals.
Proof.
  unfold build.
  destruct (build_merge_table nodes) as [table|] eqn:Htable; simpl; [|discriminate].
  destruct (build_loop _ _ _) as [ls|] eqn:Hloop; simpl; [|discriminate].
  intros [= <- <- <-]. exists ls.
  pose proof (build_inv_init nodes table Htable) as Hinit.
  pose proof (build_loop_inv _ _ _ _ Hinit Hloop) as [Hinv Hp].
  split_and!; auto. eapply build_loop_masters; [exact Hinit| |exact Hloop].
  split; simpl.
  - by rewrite length_fmap.
  - constructor.
  - intros m. destruct (init_store_lookup nodes m) as [Hm _].
    unfold init_store in Hm. simpl in Hm. rewrite Hm. constructor.
  - intros i Hi Hnp. exfalso. apply Hnp. by apply elem_of_list_to_set.
Qed.

End MasterFacts.

(** When [build] returns, the final nodes and their followers partition
    the main nodes of the group: every main node is a final node or a
    follower of exactly one final node, never both, and no node is listed
    twice. *)
Theorem build_partitions_main_nodes {N : Type} `{MergeNode N}
    (nodes : list N) (final_nodes : list nat) (st : Store) (finals out : list nat) :
  build nodes (init_store nodes) final_nodes = Ok (st, finals, out) ->
  NoDup finals /\
  (forall m, NoDup (st_merged st !!! m)) /\
  (forall i, i ∈ (main_nodes nodes).*1 <->
             i ∈ finals \/ exists m, m ∈ finals /\ i ∈ st_merged st !!! m) /\
  (forall m i, i ∈ st_merged st !!! m -> i ∉ finals) /\
  (forall m m' i, i ∈ st_merged st !!! m -> i ∈ st_merged st !!! m' -> m = m').
Proof.
  intros (ls & Hinv & Hmi & Hp & <- & <-)%build_masters.
  split; [apply (mi_final _ _ Hmi)|]. split; [apply (mi_followers _ _ Hmi)|].
  split; [|split].
  - intros i. split.
    + intros Hi. destruct (mi_done _ _ Hmi i Hi) as [[Hf _]|(m & Hinto & _)].
      * rewrite Hp. set_solver.
      * by left.
      * right. exists m. pose proof (bi_into _ _ Hinv i m Hinto) as Hin.
        split; [|done]. by destruct (bi_followers _ _ Hinv m i Hin).
    + intros [Hf|(m & _ & Hin)].
      * by destruct (bi_final _ _ Hinv i Hf).
      * by destruct (bi_followers _ _ Hinv m i Hin) as (_ & ? & _).
  - intros m i Hin Hf.
    destruct (bi_followers _ _ Hinv m i Hin) as (_ & _ & _ & _ & Hinto & _).
    destruct (bi_final _ _ Hinv i Hf) as (_ & _ & Hnone & _). congruence.
  - intros m m' i Hin Hin'.
    destruct (bi_followers _ _ Hinv m i Hin) as (_ & _ & _ & _ & Hinto & _).
    destruct (bi_followers _ _ Hinv m' i Hin') as (_ & _ & _ & _ & Hinto' & _).
    congruence.
Qed.

Lemma build_partitions_main_nodes_witness :
  NoDup [2] /\
  (forall m, NoDup (st_merged three_store !!! m)) /\
  (forall i, i ∈ (main_nodes three_nodes).*1 <->
             i ∈ [2] \/ exists m, m ∈ [2] /\ i ∈ st_merged three_store !!! m) /\
  (forall m i, i ∈ st_merged three_store !!! m -> i ∉ [2]) /\
  (forall m m' i, i ∈ st_merged three_store !!! m -> i ∈ st_merged three_store !!! m' ->
                  m = m').
Proof.
  apply (build_partitions_main_nodes three_nodes [] three_store [2] [2]).
  vm_compute. reflexivity.
Defined.

(** When [build] returns, every main node has its [merged_master], a
    final node; [get_merged_siblings] lists that master and its followers,
    the node itself among them, and returns the same list for each of
    them. *)
Theorem merged_siblings_agree {N : Type} `{MergeNode N}
    (nodes : list N) (final_nodes : list nat) (st : Store) (finals out : list nat)
    (i : nat) :
  build nodes (init_store nodes) final_nodes = Ok (st, finals, out) ->
  i ∈ (main_nodes nodes).*1 ->
  exists master,
    master ∈ finals /\
    st_merged_master st !!! i = Some master /\
    get_merged_siblings st i = master :: st_merged st !!! master /\
    i ∈ get_merged_siblings st i /\
    forall j, j ∈ get_merged_siblings st i ->
              get_merged_siblings st j = get_merged_siblings st i.
Proof.
  intros (ls & Hinv & Hmi & Hp & <- & <-)%build_masters Hi.
  assert (Hmaster : forall k, k ∈ (main_nodes nodes).*1 ->
            exists m, m ∈ ls_final ls /\ st_merged_master (ls_store ls) !!! k = Some m /\
                      (k = m \/ k ∈ st_merged (ls_store ls) !!! m)).
  { intros k Hk. destruct (mi_done _ _ Hmi k Hk) as [[Hf Hm]|(m & Hinto & Hm)].
    - rewrite Hp. set_solver.
    - exists k. auto.
    - exists m. pose proof (bi_into _ _ Hinv k m Hinto) as Hin.
      split; [by destruct (bi_followers _ _ Hinv m k Hin)|]. auto. }
  assert (Hsib : forall k m, st_merged_master (ls_store ls) !!! k = Some m ->
            get_merged_siblings (ls_store ls) k = m :: st_merged (ls_store ls) !!! m).
  { intros k m Hk. unfold get_merged_siblings. by rewrite Hk. }
  destruct (Hmaster i Hi) as (m & Hf & Hm & Hrel). exists m.
  rewrite (Hsib i m Hm). split_and!; auto.
  - apply elem_of_cons. destruct Hrel; auto.
  - intros j Hj. apply Hsib.
    assert (Hjid : j ∈ (main_nodes nodes).*1).
    { apply elem_of_cons in Hj as [->|Hj]; [by destruct (bi_final _ _ Hinv m Hf)|].
      by destruct (bi_followers _ _ Hinv m j Hj) as (_ & ? & _). }
    destruct (Hmaster j Hjid) as (m' & Hf' & Hm' & Hrel'). rewrite Hm'. f_equal.
    apply elem_of_cons in Hj as [->|Hj].
    + destruct Hrel' as [->|Hin]; [done|].
      destruct (bi_followers _ _ Hinv m' m Hin) as (_ & _ & _ & _ & Hinto & _).
      destruct (bi_final _ _ Hinv m Hf) as (_ & _ & Hnone & _). congruence.
    + destruct (bi_followers _ _ Hinv m j Hj) as (_ & _ & _ & _ & Hinto & _).
      destruct Hrel' as [->|Hin].
      * destruct (bi_final _ _ Hinv m' Hf') as (_ & _ & Hnone & _). congruence.
      * destruct (bi_followers _ _ Hinv m' j Hin) as (_ & _ & _ & _ & Hinto' & _).
        congruence.
Qed.

Lemma merged_siblings_agree_witness :
  exists master,
    master ∈ [2] /\
    st_merged_master three_store !!! 0 = Some master /\
    get_merged_siblings three_store 0 = master :: st_merged three_store !!! master /\
    0 ∈ get_merged_siblings three_store 0 /\
    forall j, j ∈ get_merged_siblings three_store 0 ->
              get_merged_siblings three_store j = get_merged_siblings three_store 0.
Proof.
  apply (merged_siblings_agree three_nodes [] three_store [2] [2] 0).
  - vm_compute. reflexivity.
  - apply list_elem_of_fmap. exists (0, plain_node spine_rig "a1" (micro 0)).
    split; [reflexivity|]. apply elem_of_main_nodes. split; reflexivity.
Defined.

(** ** When [build] returns *)

Section BuildReturns.

Context {N : Type} `{MergeNode N}.

Variable nodes : list N.

(** Every main node finds a node it can merge into in the bucket of every
    other rig. *)
Definition targets_exist : Prop :=
  forall node rig bucket,
    node ∈ main_nodes nodes -> (rig, bucket) ∈ rig_table nodes ->
    rig <> rig_id (node_rig node.2) ->
    exists n, n ∈ bucket /\ can_merge_into node.2 n.2 = true.

Lemma add_edge_returns (node : obj N) (table : gmap nat (gset nat))
    (entry : nat * list (obj N)) :
  (entry.1 <> rig_id (node_rig node.2) ->
   exists n, n ∈ entry.2 /\ can_merge_into node.2 n.2 = true) ->
  exists table', add_edge node table entry = Ok table'.
Proof.
  destruct entry as [rig tgt]. simpl. intros Htarget. unfold add_edge.
  destruct (decide (rig <> _)) as [Hne|]; [|eauto].
  destruct (Htarget Hne) as (n & Hn & Hcan).
  destruct (py_max_ok (fun n0 : obj N => get_merge_priority node.2 n0.2)
              (filter (fun n0 : obj N => can_merge_into node.2 n0.2 = true) tgt))
    as [best ->]; [|simpl; eauto].
  intros Hnil. assert (Hin : n ∈ filter (fun n0 : obj N => can_merge_into node.2 n0.2 = true) tgt)
    by (by apply list_elem_of_filter).
  rewrite Hnil in Hin. by apply elem_of_nil in Hin.
Qed.

Lemma build_merge_table_returns :
  targets_exist -> exists table, build_merge_table nodes = Ok table.
Proof.
  intros Htargets. unfold build_merge_table.
  assert (Hinner : forall node l t, node ∈ main_nodes nodes ->
            (forall e, e ∈ l -> e ∈ rig_table nodes) ->
            exists t', rfoldl (add_edge node) t l = Ok t').
  { intros node. induction l as [|[rig tgt] l IH]; intros t Hnode Hl; [simpl; eauto|].
    rewrite rfoldl_cons.
    destruct (add_edge_returns node t (rig, tgt)) as [t1 ->].
    { simpl. intros Hne. apply (Htargets node rig tgt); auto.
      apply Hl, elem_of_cons. by left. }
    simpl. apply IH; auto. intros e He. apply Hl, elem_of_cons. by right. }
  assert (Houter : forall l t, (forall n, n ∈ l -> n ∈ main_nodes nodes) ->
            exists t', rfoldl (fun table node => rfoldl (add_edge node) table (rig_table nodes))
                              t l = Ok t').
  { induction l as [|x l IH]; intros t Hl; [simpl; eauto|].
    rewrite rfoldl_cons.
    destruct (Hinner x (rig_table nodes) t) as [t1 ->]; auto.
    { apply Hl, elem_of_cons. by left. }
    simpl. apply IH. intros n Hn. apply Hl, elem_of_cons. by right. }
  by apply Houter.
Qed.

End BuildReturns.

(** The complement of the defect of line 147: when every main node finds a
    node it can merge into in the bucket of every other rig, [build]
    returns, unless an override of [merge_done] raises. *)
Theorem build_returns_when_targets_exist {N : Type} `{MergeNode N}
    (nodes : list N) (final_nodes : list nat) :
  targets_exist nodes ->
  (exists st finals out, build nodes (init_store nodes) final_nodes = Ok (st, finals, out)) \/
  (exists e, build nodes (init_store nodes) final_nodes = Raise e /\ hook_raises e).
Proof.
  intros [table Htable]%build_merge_table_returns.
  destruct (build_settled nodes final_nodes table Htable) as [[[[st finals] out] Hok]|Hraise].
  - left. eauto.
  - by right.
Qed.

Lemma build_returns_when_targets_exist_witness :
  (exists st finals out,
     build three_nodes (init_store three_nodes) [] = Ok (st, finals, out)) \/
  (exists e, build three_nodes (init_store three_nodes) [] = Raise e /\
             hook_raises (N := MainMergeNode) e).
Proof.
  apply (build_returns_when_targets_exist three_nodes []).
  intros node rig bucket Hnode Hbucket Hrig.
  pose proof (rig_table_nonempty three_nodes rig bucket Hbucket) as Hne.
  destruct bucket as [|n bucket]; [done|]. exists n. split; [|reflexivity].
  apply elem_of_cons. by left.
Defined.

(** Conversely, a [build] that returns has found a target for every main
    node in every bucket of another rig. *)
Lemma build_ok_targets {N : Type} `{MergeNode N} (nodes : list N) (st : Store)
    (final_nodes : list nat) (r : Store * list nat * list nat) :
  build nodes st final_nodes = Ok r -> targets_exist nodes.
Proof.
  intros Hok node rig bucket Hnode Hbucket Hrig.
  destruct (decide (Exists (fun n : obj N => can_merge_into node.2 n.2 = true) bucket))
    as [Hex|Hnex].
  - apply Exists_exists in Hex as (n & Hn & Hcan). eauto.
  - rewrite (build_raises_without_target nodes node rig bucket st final_nodes) in Hok;
      [discriminate|done|done|done|].
    intros n Hn. destruct (can_merge_into node.2 n.2) eqn:Hcan; [|done].
    exfalso. apply Hnex, Exists_exists. eauto.
Qed.

(** A cluster of two control nodes of different rigs is built only when
    the two have the same chain priority and the same layer: otherwise one
    of them finds no target in the bucket of the other, and line 147
    raises. *)
Theorem control_pair_builds_only_at_equal_rank (a b : ControlBoneNode)
    (final_nodes : list nat) (r : Store * list nat * list nat) :
  rig_id (cbn_rig a) <> rig_id (cbn_rig b) ->
  build [a; b] (init_store [a; b]) final_nodes = Ok r ->
  chain_priority (cbn_rig a) = chain_priority (cbn_rig b) /\ cbn_layer a = cbn_layer b.
Proof.
  intros Hrig Hok%build_ok_targets.
  assert (Htable : rig_table [a; b]
                   = [(rig_id (cbn_rig a), [(0, a)]); (rig_id (cbn_rig b), [(1, b)])]).
  { unfold rig_table, main_nodes, objects. cbn.
    rewrite !decide_True by done. cbn. by rewrite decide_False. }
  apply cbn_can_merge_into_both. split.
  - destruct (Hok (0, a) (rig_id (cbn_rig b)) [(1, b)]) as (n & Hn & Hcan).
    + apply elem_of_main_nodes. by split.
    + rewrite Htable. apply elem_of_cons. right. apply elem_of_cons. by left.
    + cbn. congruence.
    + apply list_elem_of_singleton in Hn as ->. exact Hcan.
  - destruct (Hok (1, b) (rig_id (cbn_rig a)) [(0, a)]) as (n & Hn & Hcan).
    + apply elem_of_main_nodes. by split.
    + rewrite Htable. apply elem_of_cons. by left.
    + cbn. congruence.
    + apply list_elem_of_singleton in Hn as ->. exact Hcan.
Qed.

Lemma control_pair_builds_only_at_equal_rank_witness :
  chain_priority (cbn_rig free_node) = chain_priority (cbn_rig (control_node spine_rig
    "spine_end" (0, 0)%Z ControlNodeLayer.FREE ControlNodeIcon.TWEAK (q 1) qzero)) /\
  cbn_layer free_node = cbn_layer (control_node spine_rig
    "spine_end" (0, 0)%Z ControlNodeLayer.FREE ControlNodeIcon.TWEAK (q 1) qzero).
Proof.
  set (other := control_node spine_rig "spine_end" (0, 0)%Z ControlNodeLayer.FREE
                             ControlNodeIcon.TWEAK (q 1) qzero).
  apply (control_pair_builds_only_at_equal_rank free_node other []
           (match build [free_node; other] (init_store [free_node; other]) [] with
            | Ok r => r
            | Raise _ => (init_store [free_node; other], [], [])
            end)).
  - discriminate.
  - vm_compute. reflexivity.
Defined.

(** One bucket without a target is enough to stop [build]: a main node that
    can merge into no node of the bucket of some other rig makes line 147
    raise the [ValueError] of [max] on an empty list, whatever the rest of
    the cluster is. *)
Theorem build_needs_a_target_in_every_bucket {N : Type} `{MergeNode N} (nodes : list N)
    (node : obj N) (rig : nat) (bucket : list (obj N))
    (st : Store) (final_nodes : list nat) :
  node ∈ main_nodes nodes -> (rig, bucket) ∈ rig_table nodes ->
  rig <> rig_id (node_rig node.2) ->
  (forall n, n ∈ bucket -> can_merge_into node.2 n.2 = false) ->
  build nodes st final_nodes = Raise (ValueError "max() arg is an empty sequence").
Proof. apply build_raises_without_target. Qed.

Lemma build_needs_a_target_in_every_bucket_witness :
  build [tweak_node; free_node] (init_store [tweak_node; free_node]) []
  = Raise (ValueError "max() arg is an empty sequence").
Proof.
  apply (build_needs_a_target_in_every_bucket [tweak_node; free_node] (0, tweak_node) 2
           [(1, free_node)]).
  - apply elem_of_cons. by left.
  - apply elem_of_cons. right. apply elem_of_cons. by left.
  - discriminate.
  - intros n ->%list_elem_of_singleton. reflexivity.
Defined.


(** ** What [initialize] can raise *)

Lemma select_group_class_raises {N : Type} `{MergeNode N} (merge_list : list N) (e : exn) :
  merge_list <> [] -> select_group_class merge_list = Raise e ->
  exists msg, e = MetarigError msg.
Proof.
  destruct merge_list as [|first rest]; [done|]. intros _. simpl.
  intros (running & item & -> & _)%group_class_walk_raise. eauto.
Qed.

Section InitializeRaises.

Context {N : Type} `{MergeNode N}.

Variable nodes : list N.

Lemma merge_list_of_nonempty (merge_set : gset nat) (i : nat) :
  i ∈ merge_set -> i < length nodes -> (merge_list_of nodes merge_set).*2 <> [].
Proof.
  intros Hi Hlt Hnil. destruct (lookup_lt_is_Some_2 _ _ Hlt) as [n Hn].
  assert (Hin : (i, n) ∈ merge_list_of nodes merge_set).
  { unfold merge_list_of. rewrite sort_by_perm. apply list_elem_of_omap.
    exists i. split; [by apply elem_of_elements|]. by rewrite Hn. }
  apply (list_elem_of_fmap_2 snd) in Hin. rewrite Hnil in Hin. by apply elem_of_nil in Hin.
Qed.

Lemma initialize_loop_raises (todo : list nat) (processed : gset nat)
    (point : list Vector) (acc : list nat * list Group) (found : list (gset nat)) (e : exn) :
  partition_inv (node_point <$> nodes) processed found ->
  (forall j, j ∉ processed -> point !! j = (node_point <$> nodes) !! j) ->
  Forall (fun i => i < length nodes) todo ->
  NodeMerger.partition_loop (node_point <$> nodes) (group_step nodes) todo processed
                            (point, acc) = Raise e ->
  (exists msg, e = MetarigError msg) \/
  e = ValueError "max() arg is an empty sequence" \/
  hook_raises (N := N) e.
Proof.
  revert processed point acc found.
  induction todo as [|i todo IH]; intros processed point acc found Hinv Hfresh Hlt.
  - simpl. discriminate.
  - apply Forall_cons in Hlt as [Hi Hlt].
    destruct (decide (i ∈ processed)) as [Hin|Hnin].
    { rewrite !partition_loop_skip by done. by eapply IH. }
    destruct (next_merge_set (node_point <$> nodes) point processed found i)
      as (ms & Hmoved & Hstatic & Hclass & Hdisj); auto.
    { by rewrite length_fmap. }
    rewrite (partition_loop_take _ _ _ _ _ ms) by done.
    assert (Hself : i ∈ ms).
    { destruct Hclass as [_ Hcl]. apply Hcl. apply rtc_refl. }
    rewrite group_step_unfold.
    rewrite group_store_fresh by (intros j Hj; apply Hfresh; intros Hp; by apply (Hdisj j)).
    destruct (select_group_class _) as [cls|e1] eqn:Hcls; simpl.
    2:{ intros [= <-]. left. eapply select_group_class_raises; [|exact Hcls].
        by eapply merge_list_of_nonempty. }
    destruct (build _ _ _) as [[[st finals] out]|e1] eqn:Hbuild; simpl.
    2:{ intros [= <-]. right.
        destruct (build_outcome (merge_list_of nodes ms).*2 []) as [Hs|Hve].
        - destruct Hs as [[r Hr]|(e2 & He2 & Hhook)]; [congruence|].
          right. congruence.
        - left. congruence. }
    assert (Hinv1 : partition_inv (node_point <$> nodes) (processed ∪ ms) (found ++ [ms]))
      by (eapply partition_inv_snoc; eauto).
    apply (IH _ _ _ (found ++ [ms]) Hinv1); auto.
    intros j Hj. rewrite store_points_other; [apply Hfresh; set_solver|].
    intros (n & -> & [Hn _]%merge_list_of_nodes)%list_elem_of_fmap. set_solver.
Qed.

End InitializeRaises.

(** [NodeMerger.initialize] raises nothing but the [MetarigError] of a
    group class conflict, the [ValueError] of line 147 and what an override
    of [merge_done] raises: the assertion of line 85 never fails,
    [merge_list[0]] always exists, and no loop of the model runs out of
    fuel. *)
Theorem initialize_raises_only {N : Type} `{MergeNode N} (nodes : list N) (e : exn) :
  initialize nodes = Raise e ->
  (exists msg, e = MetarigError msg) \/
  e = ValueError "max() arg is an empty sequence" \/
  hook_raises (N := N) e.
Proof.
  unfold initialize.
  destruct (NodeMerger.partition_loop _ (group_step nodes) _ _ _) as [state|e1] eqn:Hloop;
    simpl; [discriminate|].
  intros [= <-]. eapply (initialize_loop_raises nodes _ _ _ _ []); [| | |exact Hloop].
  - apply partition_inv_empty.
  - done.
  - apply Forall_forall. intros i Hi%elem_of_seq. lia.
Qed.

Lemma initialize_raises_only_witness :
  (exists msg, ValueError "max() arg is an empty sequence" = MetarigError msg) \/
  ValueError "max() arg is an empty sequence" = ValueError "max() arg is an empty sequence" \/
  hook_raises (N := ControlBoneNode) (ValueError "max() arg is an empty sequence").
Proof.
  apply (initialize_raises_only [tweak_node; free_node]). vm_compute. reflexivity.
Defined.

(** ** Mirror siblings *)

Lemma dict_get_set {K V : Type} `{EqDecision K} (d : list (K * V)) (k k' : K) (v : V) :
  dict_get (dict_set d k v) k' = if decide (k = k') then Some v else dict_get d k'.
Proof.
  induction d as [|[k0 v0] d IH]; simpl.
  - destruct (decide (k = k')); [done|done].
  - destruct (decide (k0 = k)) as [->|Hne]; simpl.
    + destruct (decide (k = k')); done.
    + rewrite IH. destruct (decide (k0 = k')) as [->|]; [|done].
      by rewrite decide_False.
Qed.

(** The entry of a decomposed name in [mirror_siblings]: the last sibling
    with this name that has the base name of [self]. *)
Lemma dict_get_mirror_siblings (self : ControlBoneNode) (siblings : list (obj ControlBoneNode))
    (k : NameSplit) :
  dict_get (mirror_siblings self siblings) k
  = last (filter (fun n : obj ControlBoneNode =>
                    name_base n.2 = name_base self /\ cbn_name_split n.2 = k) siblings).
Proof.
  unfold mirror_siblings.
  assert (Hgen : forall l d,
    dict_get (foldl (fun d node => if decide (name_base node.2 = name_base self)
                                   then dict_set d (cbn_name_split node.2) node else d) d l) k
    = match last (filter (fun n : obj ControlBoneNode =>
                            name_base n.2 = name_base self /\ cbn_name_split n.2 = k) l) with
      | Some n => Some n
      | None => dict_get d k
      end).
  { induction l as [|x l IH]; intros d; simpl; [done|].
    rewrite IH, filter_cons.
    destruct (decide (name_base x.2 = name_base self)) as [Hb|Hb].
    - rewrite dict_get_set. destruct (decide (cbn_name_split x.2 = k)) as [Hk|Hk].
      + rewrite decide_True by done.
        destruct (filter _ l) as [|y l'] eqn:Hf; [done|].
        change (last (x :: y :: l')) with (last (y :: l')).
        destruct (last (y :: l')) eqn:Hl; [done|]. by apply last_None in Hl.
      + rewrite decide_False by tauto. done.
    - rewrite decide_False by tauto. done. }
  rewrite Hgen. by destruct (last _).
Qed.

(** The assertion of [find_mirror_siblings] holds for a node exactly when
    no sibling after it in [get_merged_siblings()] has the same decomposed
    name; a node that is among its siblings gets no [KeyError]. *)
Theorem find_mirror_siblings_unless_shadowed (self : obj ControlBoneNode)
    (before after : list (obj ControlBoneNode)) :
  NoDup (before ++ self :: after).*1 ->
  find_mirror_siblings self (before ++ self :: after)
  = if decide (Forall (fun n : obj ControlBoneNode =>
                         cbn_name_split n.2 <> cbn_name_split self.2) after)
    then Ok tt else Raise AssertionError.
Proof.
  intros Hnd. unfold find_mirror_siblings. rewrite dict_get_mirror_siblings.
  rewrite filter_app, filter_cons, decide_True by done.
  set (P := fun n : obj ControlBoneNode =>
              name_base n.2 = name_base self.2 /\ cbn_name_split n.2 = cbn_name_split self.2).
  destruct (decide (Forall _ after)) as [Hall|Hnall].
  - rewrite (filter_none P after).
    + rewrite last_snoc. simpl. by rewrite bool_decide_eq_true_2.
    + intros n Hn [_ Hk]. by apply (proj1 (Forall_forall _ _) Hall n Hn).
  - apply not_Forall_Exists in Hnall; [|solve_decision].
    apply Exists_exists in Hnall as (n & Hn & Hk). apply dec_stable in Hk.
    assert (Hin : n ∈ filter P after).
    { apply list_elem_of_filter. split; [|done]. split; [|done].
      unfold name_base. by rewrite Hk. }
    destruct (filter P after) as [|y l] eqn:Hf; [by apply elem_of_nil in Hin|].
    assert (Hlast : exists z, z ∈ filter P after /\
              last (filter P before ++ self :: y :: l) = Some z).
    { rewrite Hf. destruct (last (y :: l)) as [z|] eqn:Hz.
      - exists z. split.
        + apply last_Some in Hz as [l' ->]. apply elem_of_app. right.
          by apply list_elem_of_singleton.
        + change (filter P before ++ self :: y :: l)
            with (filter P before ++ [self] ++ (y :: l)).
          rewrite app_assoc. by rewrite last_app, Hz.
      - by apply last_None in Hz. }
    destruct Hlast as (z & Hz & ->). simpl.
    rewrite bool_decide_eq_false_2; [done|]. intros Heq.
    apply list_elem_of_filter in Hz as [_ Hz].
    rewrite fmap_app, fmap_cons in Hnd.
    apply NoDup_app in Hnd as (_ & _ & Hnd). apply NoDup_cons in Hnd as [Hnd _].
    apply Hnd. rewrite <- Heq. by apply list_elem_of_fmap_2.
Qed.

Lemma find_mirror_siblings_unless_shadowed_witness :
  find_mirror_siblings (1, mirror_node spine_rig "cheek.L" 1 ControlNodeIcon.CUSTOM (q 1) qzero)
    ([(0, mirror_node head_rig "cheek" 0 ControlNodeIcon.CUSTOM (q 1) qzero)]
     ++ (1, mirror_node spine_rig "cheek.L" 1 ControlNodeIcon.CUSTOM (q 1) qzero)
     :: [(2, mirror_node tail_rig "cheek.L" 1 ControlNodeIcon.CUSTOM (q 2) qzero)])
  = if decide (Forall (fun n : obj ControlBoneNode =>
                         cbn_name_split n.2 <> ("cheek", 1%Z, 0%Z))
                 [(2, mirror_node tail_rig "cheek.L" 1 ControlNodeIcon.CUSTOM (q 2) qzero)])
    then Ok tt else Raise AssertionError.
Proof.
  apply (find_mirror_siblings_unless_shadowed
           (1, mirror_node spine_rig "cheek.L" 1 ControlNodeIcon.CUSTOM (q 1) qzero)
           [(0, mirror_node head_rig "cheek" 0 ControlNodeIcon.CUSTOM (q 1) qzero)]
           [(2, mirror_node tail_rig "cheek.L" 1 ControlNodeIcon.CUSTOM (q 2) qzero)]).
  apply (proj2 (NoDup_ListNoDup _)). repeat constructor; simpl; intuition discriminate.
Defined.

(** [m] has the base name of [self] and differs from it by the sign of
    at least one of the two side markers. *)
Definition flipped (self m : ControlBoneNode) : Prop :=
  name_base m = name_base self /\
  ((cbn_name_split m).1.2 = (cbn_name_split self).1.2 \/
   (cbn_name_split m).1.2 = (- (cbn_name_split self).1.2)%Z) /\
  ((cbn_name_split m).2 = (cbn_name_split self).2 \/
   (cbn_name_split m).2 = (- (cbn_name_split self).2)%Z) /\
  cbn_name_split m <> cbn_name_split self.

Lemma fmap_NoDup_inj {A B : Type} (f : A -> B) (l : list A) (x y : A) :
  NoDup (f <$> l) -> x ∈ l -> y ∈ l -> f x = f y -> x = y.
Proof.
  intros Hnd (i & Hi)%list_elem_of_lookup (j & Hj)%list_elem_of_lookup Hf.
  assert (i = j) as ->; [|congruence].
  apply (proj1 (NoDup_alt _) Hnd i j (f x)); rewrite list_lookup_fmap.
  - by rewrite Hi.
  - rewrite Hj. simpl. by rewrite Hf.
Qed.

Lemma dict_get_mirror_unique (self : ControlBoneNode) (siblings : list (obj ControlBoneNode))
    (k : NameSplit) :
  NoDup ((fun n : obj ControlBoneNode => cbn_name_split n.2) <$> siblings) ->
  k.1.1 = name_base self ->
  forall m, dict_get (mirror_siblings self siblings) k = Some m <->
            m ∈ siblings /\ cbn_name_split m.2 = k.
Proof.
  intros Hnd Hbase m. rewrite dict_get_mirror_siblings.
  set (P := fun n : obj ControlBoneNode =>
              name_base n.2 = name_base self /\ cbn_name_split n.2 = k).
  split.
  - intros [l' Hl]%last_Some.
    assert (Hin : m ∈ filter P siblings).
    { rewrite Hl. apply elem_of_app. right. by apply list_elem_of_singleton. }
    apply list_elem_of_filter in Hin as [[_ Hk] Hin]. done.
  - intros [Hin Hk].
    assert (Hm : m ∈ filter P siblings).
    { apply list_elem_of_filter. split; [|done]. split; [|done].
      unfold name_base. by rewrite Hk. }
    destruct (last (filter P siblings)) as [z|] eqn:Hz.
    + f_equal. pose proof Hz as [l' Hl]%last_Some.
      assert (Hzin : z ∈ filter P siblings).
      { rewrite Hl. apply elem_of_app. right. by apply list_elem_of_singleton. }
      apply list_elem_of_filter in Hzin as [[_ Hzk] Hzin].
      apply (fmap_NoDup_inj (fun n : obj ControlBoneNode => cbn_name_split n.2) siblings);
        auto. cbn beta. congruence.
    + apply last_None in Hz. rewrite Hz in Hm. by apply elem_of_nil in Hm.
Qed.

(** What [get_best_mirror] returns, when the merged siblings have distinct
    decomposed names: a sibling other than the node itself that has its
    base name and differs by the sign of a side marker, if there is one,
    and [None] only if there is none. *)
Theorem get_best_mirror_spec (self : obj ControlBoneNode)
    (siblings : list (obj ControlBoneNode)) :
  NoDup siblings.*1 ->
  NoDup ((fun n : obj ControlBoneNode => cbn_name_split n.2) <$> siblings) ->
  self ∈ siblings ->
  match get_best_mirror self siblings with
  | Some m => m ∈ siblings /\ m.1 <> self.1 /\ flipped self.2 m.2
  | None => forall m, m ∈ siblings -> ~ flipped self.2 m.2
  end.
Proof.
  intros Hids Hnames Hself. unfold get_best_mirror.
  destruct (cbn_name_split self.2) as [[base side] sidez] eqn:Hsplit.
  assert (Hbase : name_base self.2 = base) by (unfold name_base; by rewrite Hsplit).
  set (try := fun flip : NameSplit =>
                match dict_get (mirror_siblings self.2 siblings) flip with
                | Some mirror => if decide (mirror.1 <> self.1) then Some mirror else None
                | None => None
                end).
  assert (Hsound : forall flip m, try flip = Some m -> flip.1.1 = base ->
            m ∈ siblings /\ m.1 <> self.1 /\ cbn_name_split m.2 = flip).
  { intros flip m. unfold try.
    destruct (dict_get _ flip) as [mirror|] eqn:Hget; [|discriminate].
    destruct (decide (mirror.1 <> self.1)); [|discriminate]. intros [= ->] Hb.
    apply dict_get_mirror_unique in Hget as [Hin Hk]; auto. congruence. }
  assert (Hcomplete : forall flip m, try flip = None -> flip.1.1 = base ->
            m ∈ siblings -> cbn_name_split m.2 = flip -> m = self).
  { intros flip m. unfold try. intros Htry Hb Hin Hk.
    assert (Hget : dict_get (mirror_siblings self.2 siblings) flip = Some m).
    { apply dict_get_mirror_unique; auto. congruence. }
    rewrite Hget in Htry. destruct (decide (m.1 <> self.1)) as [|Heq]; [discriminate|].
    apply dec_stable in Heq. apply (fmap_NoDup_inj fst siblings); auto. }
  assert (Hflipped : forall m, m ∈ siblings -> m.1 <> self.1 ->
            cbn_name_split m.2 ∈ [(base, - side, - sidez)%Z; (base, - side, sidez)%Z;
                                   (base, side, - sidez)%Z] ->
            flipped self.2 m.2).
  { intros m Hin Hne Hk. unfold flipped, name_base. rewrite Hsplit. cbn [fst snd].
    assert (Hdiff : cbn_name_split m.2 <> (base, side, sidez)).
    { intros Heq. apply Hne. f_equal.
      apply (fmap_NoDup_inj (fun n : obj ControlBoneNode => cbn_name_split n.2) siblings);
        auto. cbn beta. congruence. }
    repeat (apply elem_of_cons in Hk as [Hk|Hk]); [| | |by apply elem_of_nil in Hk];
      rewrite Hk in *; cbn [fst snd]; split_and!; auto. }
  cbn [omap list_omap].
  destruct (try (base, (- side)%Z, (- sidez)%Z)) as [m1|] eqn:H1.
  { apply Hsound in H1 as (Hin & Hne & Hk); [|done]. cbn [head]. split_and!; auto.
    apply Hflipped; auto. rewrite Hk. apply elem_of_cons. by left. }
  destruct (try (base, (- side)%Z, sidez)) as [m2|] eqn:H2.
  { apply Hsound in H2 as (Hin & Hne & Hk); [|done]. cbn [head]. split_and!; auto.
    apply Hflipped; auto. rewrite Hk. apply elem_of_cons. right. apply elem_of_cons. by left. }
  destruct (try (base, side, (- sidez)%Z)) as [m3|] eqn:H3.
  { apply Hsound in H3 as (Hin & Hne & Hk); [|done]. cbn [head]. split_and!; auto.
    apply Hflipped; auto. rewrite Hk. do 2 (apply elem_of_cons; right).
    apply elem_of_cons. by left. }
  cbn [head]. intros m Hin (Hb & Hx & Hz & Hdiff). apply Hdiff.
  rewrite Hsplit in Hx, Hz |- *. cbn [fst snd] in Hx, Hz.
  destruct (cbn_name_split m.2) as [[mb mx] mz] eqn:Hm. cbn [fst snd] in Hx, Hz.
  assert (mb = base) as ->.
  { unfold name_base in Hb. rewrite Hm, Hsplit in Hb. exact Hb. }
  destruct Hx as [->| ->], Hz as [->| ->]; [done| | |].
  - rewrite (Hcomplete _ m H3 eq_refl Hin Hm) in Hm. congruence.
  - rewrite (Hcomplete _ m H2 eq_refl Hin Hm) in Hm. congruence.
  - rewrite (Hcomplete _ m H1 eq_refl Hin Hm) in Hm. congruence.
Qed.

Lemma get_best_mirror_spec_witness :
  match get_best_mirror
          (1, mirror_node spine_rig "cheek.L" 1 ControlNodeIcon.CUSTOM (q 1) (q 0, q 1, q 0, q 0))
          three_mirrors with
  | Some m =>
      m ∈ three_mirrors /\ m.1 <> 1 /\
      flipped (mirror_node spine_rig "cheek.L" 1 ControlNodeIcon.CUSTOM (q 1) (q 0, q 1, q 0, q 0))
              m.2
  | None =>
      forall m, m ∈ three_mirrors ->
        ~ flipped (mirror_node spine_rig "cheek.L" 1 ControlNodeIcon.CUSTOM (q 1)
                               (q 0, q 1, q 0, q 0)) m.2
  end.
Proof.
  apply (get_best_mirror_spec
           (1, mirror_node spine_rig "cheek.L" 1 ControlNodeIcon.CUSTOM (q 1) (q 0, q 1, q 0, q 0))
           three_mirrors).
  - apply (proj2 (NoDup_ListNoDup _)). repeat constructor; simpl; intuition discriminate.
  - apply (proj2 (NoDup_ListNoDup _)). repeat constructor; simpl; intuition discriminate.
  - apply elem_of_cons. right. apply elem_of_cons. by left.
Defined.

(** In the example the left cheek finds the right cheek. *)
Example left_cheek_mirror :
  get_best_mirror
    (1, mirror_node spine_rig "cheek.L" 1 ControlNodeIcon.CUSTOM (q 1) (q 0, q 1, q 0, q 0))
    three_mirrors
  = Some (2, mirror_node tail_rig "cheek.R" (-1) ControlNodeIcon.CUSTOM (q 2)
                         (q 0, q 0, q 1, q 0)).
Proof. reflexivity. Qed.

(** ** Equality and accumulation of parent generators *)

(** [==] on parent generators is an equivalence relation; on two offset
    generators over equal parents it compares the two contribution maps
    and nothing else (not the owner, the node, the orientations or the
    bones). *)
Theorem parent_eq_equivalence :
  (forall p, parent_eqb p p = true) /\
  (forall p p', parent_eqb p p' = parent_eqb p' p) /\
  (forall p p' p'', parent_eqb p p' = true -> parent_eqb p' p'' = true ->
                    parent_eqb p p'' = true) /\
  (forall p p' d d', parent_eqb p p' = true ->
     (parent_eqb (ControlBoneParentOffset p d) (ControlBoneParentOffset p' d') = true <->
      off_copy_local d = off_copy_local d' /\ off_add_local d = off_add_local d')).
Proof.
  split_and!.
  - apply parent_eqb_refl.
  - apply parent_eqb_sym.
  - apply parent_eqb_trans.
  - intros p p' d d' Heq. simpl. rewrite Heq, !andb_true_iff, !bool_decide_eq_true. tauto.
Qed.

(** A run of calls of [add_copy_local_location], each with its target and
    its influence. *)
Definition add_contributions (d : OffsetData) (l : list (Target * Influence)) : OffsetData :=
  foldl (fun d c => add_copy_local_location d c.1 c.2) d l.

(** The influences a run of calls gives to one target, in order. *)
Definition contributions_to (target : Target) (l : list (Target * Influence))
    : list Influence :=
  (filter (fun c : Target * Influence => c.1 = target) l).*2.

(** The entry of a target after one more contribution to it. *)
Definition contribute (entry : option CopyLocal) (inf : Influence) : option CopyLocal :=
  let '(const, drivers, lazies) := default (Q2Qc 0, [], []) entry in
  Some match inf with
       | InfluenceExpr e vs => (const, drivers ++ [(e, vs)], lazies)
       | InfluenceLazy f => (const, drivers, lazies ++ [f])
       | InfluenceConst x => ((const + x)%Qc, drivers, lazies)
       end.

Lemma add_copy_local_location_lookup (d : OffsetData) (t : Target) (inf : Influence)
    (target : Target) :
  off_copy_local (add_copy_local_location d t inf) !! target
  = if decide (t = target) then contribute (off_copy_local d !! target) inf
    else off_copy_local d !! target.
Proof.
  unfold add_copy_local_location, contribute.
  destruct (decide (t = target)) as [->|Hne].
  - destruct (default _ (off_copy_local d !! target)) as [[const drivers] lazies].
    simpl. by rewrite lookup_insert_eq.
  - destruct (default _ (off_copy_local d !! t)) as [[const drivers] lazies].
    simpl. by rewrite lookup_insert_ne.
Qed.

Lemma add_copy_local_location_add_local (d : OffsetData) (t : Target) (inf : Influence) :
  off_add_local (add_copy_local_location d t inf) = off_add_local d.
Proof.
  unfold add_copy_local_location.
  by destruct (default _ (off_copy_local d !! t)) as [[const drivers] lazies].
Qed.

(** The entry of a target depends on the contributions to that target
    only, and on their order. *)
Lemma add_contributions_lookup (l : list (Target * Influence)) (d : OffsetData)
    (target : Target) :
  off_copy_local (add_contributions d l) !! target
  = foldl contribute (off_copy_local d !! target) (contributions_to target l).
Proof.
  unfold add_contributions, contributions_to. revert d.
  induction l as [|[t inf] l IH]; intros d; simpl; [done|].
  rewrite IH, add_copy_local_location_lookup, filter_cons. simpl.
  by destruct (decide (t = target)).
Qed.

Lemma add_contributions_add_local (l : list (Target * Influence)) (d : OffsetData) :
  off_add_local (add_contributions d l) = off_add_local d.
Proof.
  unfold add_contributions. revert d. induction l as [|c l IH]; intros d; simpl; [done|].
  by rewrite IH, add_copy_local_location_add_local.
Qed.

(** Contributions to different targets may come in any order: two
    generators over one parent that start alike and give every target the
    same contributions in the same order are [==], however the calls for
    different targets are interleaved.  (No property of the addition of
    the constants is used: every entry goes through the same additions in
    the same order.) *)
Theorem contributions_commute_across_targets (parent : ParentGen) (d : OffsetData)
    (l l' : list (Target * Influence)) :
  (forall target, contributions_to target l' = contributions_to target l) ->
  parent_eqb (ControlBoneParentOffset parent (add_contributions d l))
             (ControlBoneParentOffset parent (add_contributions d l')) = true.
Proof.
  intros Hsame. apply parent_eqb_offset. split.
  - apply map_eq. intros target. by rewrite !add_contributions_lookup, Hsame.
  - by rewrite !add_contributions_add_local.
Qed.

Lemma contributions_commute_across_targets_witness :
  parent_eqb
    (ControlBoneParentOffset (ControlBoneParentOrg "spine")
       (add_contributions (offset_init_data 1 "a")
          [(Bone "start", InfluenceConst (q 1)); (Bone "end", InfluenceConst (q 2));
           (Bone "start", InfluenceLazy (Callable 7))]))
    (ControlBoneParentOffset (ControlBoneParentOrg "spine")
       (add_contributions (offset_init_data 1 "a")
          [(Bone "end", InfluenceConst (q 2)); (Bone "start", InfluenceConst (q 1));
           (Bone "start", InfluenceLazy (Callable 7))])) = true.
Proof.
  apply (contributions_commute_across_targets (ControlBoneParentOrg "spine")
           (offset_init_data 1 "a")
           [(Bone "start", InfluenceConst (q 1)); (Bone "end", InfluenceConst (q 2));
            (Bone "start", InfluenceLazy (Callable 7))]
           [(Bone "end", InfluenceConst (q 2)); (Bone "start", InfluenceConst (q 1));
            (Bone "start", InfluenceLazy (Callable 7))]).
  intros target. unfold contributions_to. rewrite !filter_cons, !filter_nil. simpl.
  repeat case_decide; simplify_eq; reflexivity.
Defined.

(** ** The bones of an offset generator *)

(** The states of an offset generator of [node], owned by [rig]: what
    [__init__] leaves, and what the two [add_] methods make of it. *)
Inductive offset_built (rig : nat) (node : string) : OffsetData -> Prop :=
  | built_init : offset_built rig node (offset_init_data rig node)
  | built_copy_local (d : OffsetData) (target : Target) (inf : Influence) :
      offset_built rig node d ->
      offset_built rig node (add_copy_local_location d target inf)
  | built_location_driver (d d' : OffsetData) (orientation : list Qc) (index : nat)
        (expression : string) (variables : gmap string string) :
      offset_built rig node d ->
      add_location_driver d orientation index expression variables = Ok d' ->
      offset_built rig node d'.

(** [add_orientations] has the keys of [add_local], each once, and the
    bones are not made before [generate_bones]. *)
Record offset_inv (d : OffsetData) : Prop := {
  oi_nodup : NoDup (off_add_orientations d).*1;
  oi_keys : forall k, k ∈ (off_add_orientations d).*1 <-> is_Some (off_add_local d !! k);
  oi_bones : off_mch_bones d = None;
}.

Lemma add_location_driver_ok (d d' : OffsetData) (orientation : list Qc) (index : nat)
    (expression : string) (variables : gmap string string) :
  add_location_driver d orientation index expression variables = Ok d' ->
  let key := (fun x => py_round (x * Q2Qc 10000)%Qc) <$> orientation in
  index < 3 /\
  off_mch_bones d' = off_mch_bones d /\
  off_copy_local d' = off_copy_local d /\
  (exists entry, off_add_local d' = <[key := entry]> (off_add_local d)) /\
  off_add_orientations d'
  = match off_add_local d !! key with
    | Some _ => off_add_orientations d
    | None => dict_set (off_add_orientations d) key orientation
    end.
Proof.
  unfold add_location_driver. cbn zeta.
  set (key := (fun x => py_round (x * Q2Qc 10000)%Qc) <$> orientation).
  destruct (off_add_local d !! key) as [[[xs ys] zs]|] eqn:Hkey.
  - destruct index as [|[|[|index]]]; simpl; try discriminate;
      intros [= <-]; simpl; split_and!; eauto; lia.
  - destruct index as [|[|[|index]]]; simpl; try discriminate;
      intros [= <-]; simpl; split_and!; eauto; lia.
Qed.

Local Ltac contradict_none := unfold OrientKey in *; congruence.

Lemma offset_built_inv (rig : nat) (node : string) (d : OffsetData) :
  offset_built rig node d -> offset_inv d.
Proof.
  induction 1 as [|d target inf _ IH|d d' o i e v _ IH Hadd].
  - split; simpl.
    + constructor.
    + intros k. rewrite lookup_empty. split; [by intros ?%elem_of_nil|by intros [? ?]].
    + done.
  - destruct IH as [Hnd Hkeys Hbones].
    unfold add_copy_local_location. destruct (default _ _) as [[c dr] lz].
    destruct inf; split; simpl; auto.
  - destruct IH as [Hnd Hkeys Hbones].
    apply add_location_driver_ok in Hadd as (_ & Hb & _ & [entry Hal] & Ho).
    cbn zeta in Hal, Ho. set (key := _ <$> o) in *.
    split.
    + rewrite Ho. destruct (off_add_local d !! key) eqn:Hk; [done|].
      rewrite dict_set_fresh.
      * rewrite fmap_app. apply NoDup_app. split; [done|]. split; [|apply NoDup_singleton].
        intros k Hin Hk2%list_elem_of_singleton. simpl in Hk2. rewrite Hk2 in Hin.
        apply Hkeys in Hin as [? Hin]. contradict_none.
      * intros Hin%Hkeys. destruct Hin as [? Hin]. contradict_none.
    + intros k. rewrite Hal, Ho.
      destruct (decide (k = key)) as [->|Hne].
      * rewrite lookup_insert_eq. split; [eauto|]. intros _.
        destruct (off_add_local d !! key) eqn:Hk; [apply Hkeys; eauto|].
        rewrite dict_set_fresh.
        -- rewrite fmap_app. apply elem_of_app. right. by apply list_elem_of_singleton.
        -- intros Hin%Hkeys. destruct Hin as [? Hin]. contradict_none.
      * rewrite lookup_insert_ne by done. rewrite <- Hkeys.
        destruct (off_add_local d !! key) eqn:Hk; [done|].
        rewrite dict_set_fresh.
        -- rewrite fmap_app, elem_of_app. cbn [fmap list_fmap fst].
           rewrite list_elem_of_singleton. tauto.
        -- intros Hin%Hkeys. destruct Hin as [? Hin]. contradict_none.
    + congruence.
Qed.

Lemma offset_inv_size (d : OffsetData) :
  offset_inv d -> length (off_add_orientations d) = size (off_add_local d).
Proof.
  intros [Hnd Hkeys _]. rewrite <- (length_fmap fst).
  rewrite <- (size_dom (D := gset OrientKey)).
  rewrite <- (size_list_to_set (C := gset OrientKey)) by done.
  f_equal. apply set_eq. intros k. rewrite elem_of_list_to_set, elem_of_dom. apply Hkeys.
Qed.

Section GenerateBonesFacts.

Variable Armature : Type.
Variable make_derived_name : string -> string -> string -> string.
Variable make_bone : Armature -> string -> Qc -> nat -> option (list Qc) -> string * Armature.

Lemma make_bones_length (mch_name : string) (owner : nat) (l : list (OrientKey * list Qc))
    (bones : list string) (arm : Armature) :
  length (foldl (fun '(bones, a) (entry : OrientKey * list Qc) =>
                   let '(b, a') := make_bone a mch_name (Q2Qc (1 # 4)) owner (Some entry.2) in
                   (bones ++ [b], a'))
                (bones, arm) l).1
  = length bones + length l.
Proof.
  revert bones arm. induction l as [|x l IH]; intros bones arm; simpl; [lia|].
  destruct (make_bone _ _ _ _ _) as [b a']. rewrite IH, length_app. simpl. lia.
Qed.

(** The number of bones [generate_bones] makes. *)
Definition bone_count (d : OffsetData) : nat :=
  if decide (off_add_local d = ∅)
  then if decide (off_copy_local d = ∅) then 0 else 1
  else size (off_add_local d).

Lemma generate_bones_count (rig : nat) (node : string) (d : OffsetData) (arm : Armature) :
  offset_built rig node d ->
  exists bones,
    off_mch_bones (generate_bones Armature make_derived_name make_bone arm d).1 = Some bones /\
    length bones = bone_count d.
Proof.
  intros Hinv%offset_built_inv. pose proof (offset_inv_size d Hinv) as Hsize.
  unfold generate_bones, bone_count.
  destruct (decide (off_add_local d = ∅)) as [Hal|Hal].
  - rewrite (bool_decide_eq_false_2 (off_add_local d <> ∅)) by tauto.
    destruct (decide (off_copy_local d = ∅)) as [Hcl|Hcl].
    + rewrite (bool_decide_eq_false_2 (off_copy_local d <> ∅)) by tauto. simpl. eauto.
    + rewrite (bool_decide_eq_true_2 (off_copy_local d <> ∅)) by done. simpl.
      destruct (make_bone _ _ _ _ _) as [b a']. simpl. eauto.
  - rewrite (bool_decide_eq_true_2 (off_add_local d <> ∅)) by done. rewrite orb_true_r.
    destruct (foldl _ _ _) as [bones a'] eqn:Hfold. simpl. exists bones. split; [done|].
    rewrite <- Hsize.
    pose proof (make_bones_length (make_derived_name (off_node d) "mch" "_poffset")
                  (off_owner d) (off_add_orientations d) [] arm) as Hlen.
    rewrite Hfold in Hlen. exact Hlen.
Qed.

End GenerateBonesFacts.

Lemma last_nonempty_default {A : Type} (l : list A) (e x y : A) :
  List.last (e :: l) x = List.last (e :: l) y.
Proof.
  revert e. induction l as [|c l IH]; intros e; [done|].
  change (List.last (c :: l) x = List.last (c :: l) y). apply IH.
Qed.

Lemma last_cons_default {A : Type} (bs : list A) (b : A) :
  last (b :: bs) = Some (List.last bs b).
Proof.
  revert b. induction bs as [|c bs IH]; intros b; [done|].
  change (last (b :: c :: bs)) with (last (c :: bs)). rewrite IH. f_equal.
  destruct bs as [|e bs]; [done|].
  change (List.last (c :: e :: bs) b) with (List.last (e :: bs) b).
  apply last_nonempty_default.
Qed.

(** [generate_bones] of an offset generator makes one bone per quantized
    orientation that has a location driver, one bone if there are only
    copied locations, and none if nothing was added; [output_bone] is then
    the last bone made, or the output bone of the parent if there is
    none. *)
Theorem generate_bones_one_per_orientation (Armature : Type)
    (make_derived_name : string -> string -> string -> string)
    (make_bone : Armature -> string -> Qc -> nat -> option (list Qc) -> string * Armature)
    (rig : nat) (node : string) (parent : ParentGen) (d : OffsetData) (arm : Armature) :
  offset_built rig node d ->
  exists bones,
    off_mch_bones (generate_bones Armature make_derived_name make_bone arm d).1 = Some bones /\
    length bones = bone_count d /\
    output_bone (ControlBoneParentOffset parent
                   (generate_bones Armature make_derived_name make_bone arm d).1)
    = match last bones with
      | Some b => Ok b
      | None => output_bone parent
      end.
Proof.
  intros Hbuilt.
  destruct (generate_bones_count Armature make_derived_name make_bone rig node d arm Hbuilt)
    as (bones & Hbones & Hlen).
  exists bones. split; [done|]. split; [done|]. simpl. rewrite Hbones.
  destruct bones as [|b bs]; [done|]. by rewrite last_cons_default.
Qed.

(** *** Example: a copied location and a location driver *)

Definition driven_offset : OffsetData :=
  match add_location_driver (half_offset 1 "a") [q 1; q 0; q 0] 0 "var" ∅ with
  | Ok d => d
  | Raise _ => half_offset 1 "a"
  end.

Lemma driven_offset_built : offset_built 1 "a" driven_offset.
Proof.
  apply (built_location_driver 1 "a" (half_offset 1 "a") driven_offset [q 1; q 0; q 0] 0 "var" ∅).
  - apply built_copy_local, built_init.
  - reflexivity.
Qed.

Lemma generate_bones_one_per_orientation_witness :
  exists bones,
    off_mch_bones (generate_bones (list string) (fun name _ suffix => name +:+ suffix)
                     (fun arm name _ _ _ => (name, arm ++ [name])) [] driven_offset).1
      = Some bones /\
    length bones = bone_count driven_offset /\
    output_bone (ControlBoneParentOffset (ControlBoneParentOrg "spine")
                   (generate_bones (list string) (fun name _ suffix => name +:+ suffix)
                      (fun arm name _ _ _ => (name, arm ++ [name])) [] driven_offset).1)
    = match last bones with
      | Some b => Ok b
      | None => output_bone (ControlBoneParentOrg "spine")
      end.
Proof.
  apply (generate_bones_one_per_orientation (list string) (fun name _ suffix => name +:+ suffix)
           (fun arm name _ _ _ => (name, arm ++ [name])) 1 "a" (ControlBoneParentOrg "spine")
           driven_offset []).
  exact driven_offset_built.
Defined.

(** In the example one bone is made, and it is the output bone. *)
Example driven_offset_bones :
  bone_count driven_offset = 1 /\
  output_bone (ControlBoneParentOffset (ControlBoneParentOrg "spine")
                 (generate_bones (list string) (fun name _ suffix => name +:+ suffix)
                    (fun arm name _ _ _ => (name, arm ++ [name])) [] driven_offset).1)
  = Ok "a_poffset".
Proof. split; by vm_compute. Qed.

(** The key of an orientation: its coordinates times 10000, rounded. *)
Definition orientation_key (orientation : list Qc) : OrientKey :=
  (fun x => py_round (x * Q2Qc 10000)%Qc) <$> orientation.

(** Two location drivers whose orientations round to the same key share
    one entry of [add_local], hence one bone, and the orientation the bone
    gets is the one given first. *)
Theorem location_drivers_share_rounded_key (d d1 d2 : OffsetData)
    (o1 o2 : list Qc) (i1 i2 : nat) (e1 e2 : string) (v1 v2 : gmap string string) :
  orientation_key o2 = orientation_key o1 ->
  add_location_driver d o1 i1 e1 v1 = Ok d1 ->
  add_location_driver d1 o2 i2 e2 v2 = Ok d2 ->
  dom (off_add_local d2) = dom (off_add_local d1) /\
  off_add_orientations d2 = off_add_orientations d1 /\
  is_Some (off_add_local d2 !! orientation_key o1).
Proof.
  intros Hkey (_ & _ & _ & [entry1 Hal1] & _)%add_location_driver_ok
              (_ & _ & _ & [entry2 Hal2] & Ho2)%add_location_driver_ok.
  cbn zeta in Hal1, Hal2, Ho2. fold (orientation_key o1) in Hal1.
  fold (orientation_key o2) in Hal2, Ho2. rewrite Hkey in Hal2, Ho2.
  rewrite Hal1 in Ho2. unfold OrientKey in *. rewrite lookup_insert_eq in Ho2.
  split_and!.
  - rewrite Hal2, Hal1. rewrite !dom_insert_L. set_solver.
  - exact Ho2.
  - rewrite Hal2, lookup_insert_eq. eauto.
Qed.

Lemma location_drivers_share_rounded_key_witness :
  dom (off_add_local
         (match add_location_driver driven_offset [Q2Qc (100001 # 100000); q 0; q 0] 1 "var" ∅
          with Ok d => d | Raise _ => driven_offset end))
  = dom (off_add_local driven_offset) /\
  off_add_orientations
    (match add_location_driver driven_offset [Q2Qc (100001 # 100000); q 0; q 0] 1 "var" ∅
     with Ok d => d | Raise _ => driven_offset end)
  = off_add_orientations driven_offset /\
  is_Some (off_add_local
             (match add_location_driver driven_offset [Q2Qc (100001 # 100000); q 0; q 0] 1
                      "var" ∅
              with Ok d => d | Raise _ => driven_offset end)
           !! orientation_key [q 1; q 0; q 0]).
Proof.
  apply (location_drivers_share_rounded_key (half_offset 1 "a") driven_offset _
           [q 1; q 0; q 0] [Q2Qc (100001 # 100000); q 0; q 0] 0 1 "var" "var" ∅ ∅).
  - reflexivity.
  - reflexivity.
  - reflexivity.
Defined.

(** ** The parents and the reparent requests of a merged group *)

Lemma py_eq_grow (heap : list ParentGen) (v : ParentGen) (a b : nat) :
  a < length heap -> b < length heap -> py_eq (heap ++ [v]) a b = py_eq heap a b.
Proof. intros Ha Hb. unfold py_eq. by rewrite !lookup_app_l. Qed.

Lemma py_eq_sym (heap : list ParentGen) (a b : nat) : py_eq heap a b = py_eq heap b a.
Proof.
  unfold py_eq. destruct (heap !! a), (heap !! b); try done. apply parent_eqb_sym.
Qed.

Lemma py_eq_refl (heap : list ParentGen) (a : nat) : a < length heap -> py_eq heap a a = true.
Proof.
  intros Ha. unfold py_eq. destruct (lookup_lt_is_Some_2 _ _ Ha) as [v ->].
  apply parent_eqb_refl.
Qed.

(** What holds of the cache of a master: its objects exist, no two of
    them are [==], and each has its name on record. *)
Record cache_inv (heap : list ParentGen) (m : MasterCaches) : Prop := {
  ci_wf : Forall (fun a => a < length heap) (parent_subrig_cache m);
  ci_distinct : forall i j a b,
    parent_subrig_cache m !! i = Some a -> parent_subrig_cache m !! j = Some b ->
    py_eq heap a b = true -> i = j;
  ci_names : forall a, a ∈ parent_subrig_cache m <-> is_Some (parent_subrig_names m !! a);
}.

Lemma cache_inv_fresh (heap : list ParentGen) : cache_inv heap fresh_caches.
Proof.
  split; simpl.
  - constructor.
  - intros i j a b Hi. by rewrite lookup_nil in Hi.
  - intros a. rewrite lookup_empty. split; [by intros ?%elem_of_nil|by intros [? ?]].
Qed.

Lemma cache_inv_grow (heap : list ParentGen) (m : MasterCaches) (v : ParentGen) :
  cache_inv heap m -> cache_inv (heap ++ [v]) m.
Proof.
  intros [Hwf Hdist Hnames]. split; [| |done].
  - eapply Forall_impl; [exact Hwf|]. intros a Ha. cbn beta in *. rewrite length_app. lia.
  - intros i j a b Hi Hj Heq. apply (Hdist i j a b Hi Hj).
    rewrite <- Heq. symmetry. apply py_eq_grow.
    + apply (proj1 (Forall_forall _ _) Hwf a). by eapply list_elem_of_lookup_2.
    + apply (proj1 (Forall_forall _ _) Hwf b). by eapply list_elem_of_lookup_2.
Qed.

(** The two outcomes of [build_parent_for_node]: an object of the cache
    that equals the one built, or the one built, now the last of the
    cache. *)
Lemma build_parent_for_node_cases (heap heap' : list ParentGen) (m m' : MasterCaches)
    (v : ParentGen) (name : string) (a : nat) :
  build_parent_for_node "initialize" heap m v name = Ok (a, heap', m') ->
  heap' = heap ++ [v] /\
  ((a ∈ parent_subrig_cache m /\ m' = m /\ py_eq heap' a (length heap) = true) \/
   (a = length heap /\
    (forall p, p ∈ parent_subrig_cache m -> py_eq heap' p (length heap) = false) /\
    parent_subrig_cache m' = parent_subrig_cache m ++ [a] /\
    parent_subrig_names m' = <[a := name]> (parent_subrig_names m))).
Proof.
  unfold build_parent_for_node. simpl. unfold dedup_parent.
  destruct (List.find _ (parent_subrig_cache m)) as [previous|] eqn:Hfind.
  - intros [= <- <- <-]. split; [done|]. left.
    apply find_elem_of in Hfind as [Hin Heq]. auto.
  - intros [= <- <- <-]. split; [done|]. right. split_and!; auto.
    intros p Hp. apply list_elem_of_In in Hp.
    exact (List.find_none _ _ Hfind p Hp).
Qed.

Lemma cache_inv_build (heap heap' : list ParentGen) (m m' : MasterCaches)
    (v : ParentGen) (name : string) (a : nat) :
  cache_inv heap m ->
  build_parent_for_node "initialize" heap m v name = Ok (a, heap', m') ->
  cache_inv heap' m' /\ a ∈ parent_subrig_cache m' /\
  (forall p, p ∈ parent_subrig_cache m -> p ∈ parent_subrig_cache m').
Proof.
  intros Hinv (-> & Hcases)%build_parent_for_node_cases.
  pose proof (cache_inv_grow heap m v Hinv) as [Hwf Hdist Hnames].
  destruct Hcases as [(Hin & -> & _)|(-> & Hnew & Hcache & Hn)].
  - split; [by split|]. auto.
  - split; [|split].
    + split.
      * rewrite Hcache. apply Forall_app. split; [done|].
        apply Forall_singleton. rewrite length_app. simpl. lia.
      * intros i j a b. rewrite Hcache.
        intros [[_ Hi]|[Hi <-]]%lookup_snoc_Some [[_ Hj]|[Hj <-]]%lookup_snoc_Some Heq.
        -- by apply (Hdist i j a b).
        -- rewrite Hnew in Heq; [discriminate|]. by eapply list_elem_of_lookup_2.
        -- rewrite py_eq_sym, Hnew in Heq; [discriminate|]. by eapply list_elem_of_lookup_2.
        -- congruence.
      * intros a. rewrite Hcache, Hn, elem_of_app, list_elem_of_singleton, Hnames.
        destruct (decide (a = length heap)) as [->|Hne].
        -- rewrite lookup_insert_eq. split; [eauto|auto].
        -- rewrite lookup_insert_ne by done. tauto.
    + rewrite Hcache. apply elem_of_app. right. by apply list_elem_of_singleton.
    + intros p Hp. rewrite Hcache. apply elem_of_app. by left.
Qed.

(** What holds of a merged group while its nodes are initialized. *)
Record parent_inv (s : ParentState) : Prop := {
  pi_cache : cache_inv (ps_heap s) (ps_caches s);
  pi_requests_nodup : NoDup (ps_requests s);
  pi_requests : forall p, p ∈ ps_requests s -> p ∈ parent_subrig_cache (ps_caches s);
  pi_node_parent : forall node p,
    ps_node_parent s !! node = Some p -> p ∈ parent_subrig_cache (ps_caches s);
}.

Lemma py_in_elem (heap : list ParentGen) (x : nat) (l : list nat) :
  x ∈ l -> py_in heap x l = true.
Proof.
  intros Hx%list_elem_of_In. unfold py_in. apply existsb_exists. exists x.
  split; [done|]. by rewrite bool_decide_eq_true_2.
Qed.

Lemma request_reparent_inv (s : ParentState) (p : nat) :
  parent_inv s -> p ∈ parent_subrig_cache (ps_caches s) ->
  parent_inv {| ps_heap := ps_heap s; ps_caches := ps_caches s;
                ps_requests := request_reparent (ps_heap s) (ps_requests s) p;
                ps_node_parent := ps_node_parent s |}.
Proof.
  intros [Hc Hnd Hreq Hnp] Hp. split; simpl; auto.
  - unfold request_reparent. destruct (py_in _ _ _) eqn:Hin; [done|].
    apply NoDup_app. split; [done|]. split; [|apply NoDup_singleton].
    intros x Hx ->%list_elem_of_singleton.
    by rewrite py_in_elem in Hin.
  - intros x. unfold request_reparent. destruct (py_in _ _ _); [apply Hreq|].
    intros [Hx| ->%list_elem_of_singleton]%elem_of_app; auto.
Qed.

Lemma build_parent_inv (s s' : ParentState) (node : nat) (name : string)
    (built : ParentGen) (p : nat) :
  parent_inv s -> build_parent "initialize" s node name built = Ok (p, s') ->
  parent_inv s' /\ p ∈ parent_subrig_cache (ps_caches s') /\
  ps_node_parent s' !! node = Some p /\
  ps_requests s' = ps_requests s /\
  (forall n q, ps_node_parent s !! n = Some q -> ps_node_parent s' !! n = Some q).
Proof.
  intros [Hc Hnd Hreq Hnp]. unfold build_parent.
  destruct (ps_node_parent s !! node) as [parent|] eqn:Hnode.
  - intros [= <- <-]. split_and!; eauto. by split.
  - destruct (build_parent_for_node _ _ _ _ _) as [[[a heap'] m']|] eqn:Hbuild;
      simpl; [|discriminate].
    intros [= <- <-]. simpl.
    destruct (cache_inv_build _ _ _ _ _ _ _ Hc Hbuild) as (Hc' & Ha & Hmono).
    split_and!; auto.
    + split; simpl; auto.
      intros n q. destruct (decide (n = node)) as [->|Hne].
      * rewrite lookup_insert_eq. by intros [= <-].
      * rewrite lookup_insert_ne by done. eauto.
    + by rewrite lookup_insert_eq.
    + intros n q Hn. rewrite lookup_insert_ne; [done|]. congruence.
Qed.

(** The states a merged group goes through during the initialize stage,
    from the [merge_done] of its master on: other groups allocate
    generators, control nodes and position query nodes are initialized,
    the master builds the parents of its mirror siblings. *)
Inductive group_reachable : ParentState -> Prop :=
  | reach_merge_done (heap : list ParentGen) :
      group_reachable {| ps_heap := heap; ps_caches := fresh_caches;
                         ps_requests := []; ps_node_parent := ∅ |}
  | reach_alloc (s : ParentState) (v : ParentGen) :
      group_reachable s ->
      group_reachable {| ps_heap := ps_heap s ++ [v]; ps_caches := ps_caches s;
                         ps_requests := ps_requests s; ps_node_parent := ps_node_parent s |}
  | reach_node (s s' : ParentState) (node : nat) (n : ControlBoneNode) (built : ParentGen) :
      group_reachable s ->
      initialize_node_parent "initialize" s node n built = Ok s' ->
      group_reachable s'
  | reach_master (s : ParentState) (self : nat)
        (mirror_sibling_list : list (nat * string * ParentGen))
        (r : list (option nat) * bool * ParentState) :
      group_reachable s ->
      initialize_parents "initialize" s self mirror_sibling_list = Ok r ->
      group_reachable r.2
  | reach_query (s : ParentState) (name : string) (needs_reparent rig_org : bool)
        (built : ParentGen) (r : option nat * ParentState) :
      group_reachable s ->
      position_query_initialize "initialize" s name needs_reparent rig_org built = Ok r ->
      group_reachable r.2.

Lemma build_parents_inv (l : list (nat * string * ParentGen)) (acc r : list nat * ParentState) :
  parent_inv acc.2 ->
  rfoldl (fun (acc : list nat * ParentState) (node : nat * string * ParentGen) =>
            p ← build_parent "initialize" acc.2 node.1.1 node.1.2 node.2;
            Ok (acc.1 ++ [p.1], p.2)) acc l = Ok r ->
  parent_inv r.2 /\
  ps_requests r.2 = ps_requests acc.2 /\
  (forall n q, ps_node_parent acc.2 !! n = Some q -> ps_node_parent r.2 !! n = Some q) /\
  exists parents, r.1 = acc.1 ++ parents /\
    Forall2 (fun (node : nat * string * ParentGen) p =>
               ps_node_parent r.2 !! node.1.1 = Some p) l parents.
Proof.
  revert acc. induction l as [|x l IH]; intros acc Hinv; simpl.
  - intros [= <-]. split_and!; auto. exists []. by rewrite app_nil_r.
  - destruct (build_parent _ _ _ _ _) as [[p s1]|] eqn:Hbuild; simpl; [|discriminate].
    intros Hrest.
    destruct (build_parent_inv _ _ _ _ _ _ Hinv Hbuild) as (Hinv1 & Hp & Hnode & Hreq & Hmono).
    destruct (IH (acc.1 ++ [p], s1) Hinv1 Hrest) as (Hinv' & Hreq' & Hmono' & ps & Hps & Hall).
    simpl in *. split_and!; auto; [congruence|].
    exists (p :: ps). split; [by rewrite Hps, <- app_assoc|].
    constructor; auto.
Qed.

Lemma group_reachable_inv (s : ParentState) : group_reachable s -> parent_inv s.
Proof.
  induction 1 as [heap|s v _ IH|s s' node n built _ IH Hstep
                  |s self sibs r _ IH Hstep|s name nr ro built r _ IH Hstep].
  - split; simpl.
    + apply cache_inv_fresh.
    + constructor.
    + by intros p ?%elem_of_nil.
    + intros node p. by rewrite lookup_empty.
  - destruct IH as [Hc Hnd Hreq Hnp]. split; simpl; auto. by apply cache_inv_grow.
  - unfold initialize_node_parent in Hstep.
    destruct (cbn_needs_parent n || cbn_needs_reparent n); [|by injection Hstep as <-].
    destruct (build_parent _ _ _ _ _) as [[p s1]|] eqn:Hbuild; simpl in Hstep; [|discriminate].
    destruct (build_parent_inv _ _ _ _ _ _ IH Hbuild) as (Hinv1 & Hp & _).
    destruct (cbn_needs_reparent n); injection Hstep as <-; [|done].
    by apply request_reparent_inv.
  - unfold initialize_parents in Hstep.
    destruct (rfoldl _ _ _) as [acc|] eqn:Hfold; simpl in Hstep; [|discriminate].
    apply build_parents_inv in Hfold as (Hinv & _); [|done].
    destruct (forallb _ _); injection Hstep as <-; done.
  - unfold position_query_initialize in Hstep.
    destruct nr; [|by injection Hstep as <-].
    destruct (build_parent_for_node _ _ _ _ _) as [[[a heap'] m']|] eqn:Hbuild;
      simpl in Hstep; [|discriminate].
    injection Hstep as <-. simpl.
    destruct IH as [Hc Hnd Hreq Hnp].
    destruct (cache_inv_build _ _ _ _ _ _ _ Hc Hbuild) as (Hc' & Ha & Hmono).
    assert (Hbase : parent_inv {| ps_heap := heap'; ps_caches := m';
                                  ps_requests := ps_requests s;
                                  ps_node_parent := ps_node_parent s |}).
    { split; simpl; eauto. }
    destruct ro; simpl; [done|].
    by apply (request_reparent_inv _ a Hbase).
Qed.

(** Between the cached parents of a master [==] is identity: the cache
    holds one object for each distinct parent mechanism. *)
Theorem cached_parents_equal_iff_identical (s : ParentState) (a b : nat) :
  group_reachable s ->
  a ∈ parent_subrig_cache (ps_caches s) -> b ∈ parent_subrig_cache (ps_caches s) ->
  py_eq (ps_heap s) a b = true <-> a = b.
Proof.
  intros [[Hwf Hdist _] _ _ _]%group_reachable_inv Ha Hb. split.
  - apply list_elem_of_lookup in Ha as [i Hi]. apply list_elem_of_lookup in Hb as [j Hj].
    intros Heq. pose proof (Hdist i j a b Hi Hj Heq) as ->. congruence.
  - intros ->. apply py_eq_refl. by apply (proj1 (Forall_forall _ _) Hwf b).
Qed.

(** *** Example: two nodes with the same parent, a third with another *)

Definition reparent_node (name : string) : ControlBoneNode :=
  {| cbn_rig := spine_rig; cbn_org := name; cbn_name := name; cbn_point := origin;
     cbn_name_split := (name, 0%Z, 0%Z); cbn_size := q 1;
     cbn_layer := ControlNodeLayer.FREE; cbn_icon := ControlNodeIcon.FREE;
     cbn_needs_parent := false; cbn_needs_reparent := true; cbn_rig_rotation := qzero |}.

Definition after_nodes (l : list (nat * ControlBoneNode * ParentGen)) : ParentState :=
  foldl (fun s x =>
           match initialize_node_parent "initialize" s x.1.1 x.1.2 x.2 with
           | Ok s' => s'
           | Raise _ => s
           end)
        {| ps_heap := []; ps_caches := fresh_caches; ps_requests := []; ps_node_parent := ∅ |}
        l.

Definition three_parents : ParentState :=
  after_nodes [(0, reparent_node "a", ControlBoneParentOrg "spine");
               (1, reparent_node "b", ControlBoneParentOrg "spine");
               (2, reparent_node "c", ControlBoneParentOrg "tail")].

Lemma three_parents_reachable : group_reachable three_parents.
Proof.
  unfold three_parents, after_nodes.
  generalize [(0, reparent_node "a", ControlBoneParentOrg "spine");
              (1, reparent_node "b", ControlBoneParentOrg "spine");
              (2, reparent_node "c", ControlBoneParentOrg "tail")].
  intros l.
  assert (Hstart : group_reachable {| ps_heap := []; ps_caches := fresh_caches;
                                       ps_requests := []; ps_node_parent := ∅ |})
    by apply reach_merge_done.
  revert Hstart. generalize {| ps_heap := []; ps_caches := fresh_caches;
                               ps_requests := []; ps_node_parent := ∅ |}.
  induction l as [|x l IH]; intros s Hs; simpl; [done|].
  apply IH. destruct (initialize_node_parent _ _ _ _ _) as [s'|] eqn:Hstep; [|done].
  by eapply reach_node.
Qed.

Lemma cached_parents_equal_iff_identical_witness :
  py_eq (ps_heap three_parents) 0 2 = true <-> 0 = 2.
Proof.
  apply (cached_parents_equal_iff_identical three_parents 0 2).
  - exact three_parents_reachable.
  - vm_compute. apply elem_of_cons. by left.
  - vm_compute. apply elem_of_cons. right. apply elem_of_cons. by left.
Defined.

(** In the example the first two nodes share the object at address 0, the
    third one gets the object at address 2, and both are requested. *)
Example three_parents_state :
  parent_subrig_cache (ps_caches three_parents) = [0; 2] /\
  ps_requests three_parents = [0; 2] /\
  ps_node_parent three_parents = {[ 0 := 0; 1 := 0; 2 := 2 ]}.
Proof. split; [|split]; by vm_compute. Qed.

Section ReparentBones.

Variable Armature : Type.
Variable make_derived_name : string -> string -> string -> string.
Variable node_make_bone : Armature -> string -> Qc -> string * Armature.

Lemma reparent_loop_ok (m : MasterCaches) (requests : list nat)
    (acc : gmap nat string * Armature) :
  (forall p, p ∈ requests -> is_Some (parent_subrig_names m !! p)) ->
  exists r,
    rfoldl (fun (acc : gmap nat string * Armature) (parent : nat) =>
              match acc.1 !! parent with
              | Some _ => Ok acc
              | None =>
                  match parent_subrig_names m !! parent with
                  | None => Raise KeyError
                  | Some parent_name =>
                      let '(bone, a) :=
                        node_make_bone acc.2 (make_derived_name parent_name "mch" "_reparent")
                                       (Q2Qc (1 # 3)) in
                      Ok (<[parent := bone]> acc.1, a)
                  end
              end) acc requests = Ok r /\
    (forall p b, acc.1 !! p = Some b -> r.1 !! p = Some b) /\
    (forall p, p ∈ requests -> is_Some (r.1 !! p)).
Proof.
  revert acc. induction requests as [|x l IH]; intros acc Hnames.
  - exists acc. split; [done|]. split; [done|]. by intros p ?%elem_of_nil.
  - rewrite rfoldl_cons.
    assert (Hl : forall p, p ∈ l -> is_Some (parent_subrig_names m !! p)).
    { intros p Hp. apply Hnames, elem_of_cons. by right. }
    destruct (acc.1 !! x) as [b|] eqn:Hx.
    + simpl. destruct (IH acc Hl) as (r & Hr & Hmono & Hall). exists r.
      split; [done|]. split; [done|].
      intros p [->|Hp]%elem_of_cons; eauto.
    + destruct (Hnames x) as [name Hname]; [apply elem_of_cons; by left|].
      rewrite Hname. destruct (node_make_bone _ _ _) as [bone a] eqn:Hbone. simpl.
      destruct (IH (<[x := bone]> acc.1, a) Hl) as (r & Hr & Hmono & Hall). exists r.
      split; [done|]. simpl in Hmono. split.
      * intros p b Hp. apply Hmono. rewrite lookup_insert_ne; [done|]. congruence.
      * intros p [->|Hp]%elem_of_cons; [|eauto].
        exists bone. apply Hmono. by rewrite lookup_insert_eq.
Qed.

End ReparentBones.

(** [generate_bones] of a master never misses the name of a requested
    parent: every parent in [reparent_requests] is an object of the cache,
    listed once, and gets its reparent bone, so that [get_reparent_bone]
    finds it; without a mix parent the parent of the master itself maps to
    the control bone. *)
Theorem reparent_requests_get_bones (Armature : Type)
    (make_derived_name : string -> string -> string -> string)
    (node_make_bone : Armature -> string -> Qc -> string * Armature)
    (s : ParentState) (name_merged : string)
    (hide_lone_control has_merged use_mix_parent : bool) (node_parent : nat)
    (arm : Armature) :
  group_reachable s ->
  NoDup (ps_requests s) /\
  (forall p, p ∈ ps_requests s -> p ∈ parent_subrig_cache (ps_caches s)) /\
  exists control_bone mix_parent_bone reparent_bones arm',
    control_generate_bones Armature make_derived_name node_make_bone name_merged
      hide_lone_control has_merged use_mix_parent node_parent (ps_caches s) (ps_requests s) arm
    = Ok (control_bone, mix_parent_bone, reparent_bones, arm') /\
    (forall p, p ∈ ps_requests s ->
       exists bone, get_reparent_bone reparent_bones p = Ok bone) /\
    (use_mix_parent = false -> get_reparent_bone reparent_bones node_parent = Ok control_bone).
Proof.
  intros [[_ _ Hnames] Hnd Hreq _]%group_reachable_inv.
  split; [done|]. split; [done|]. unfold control_generate_bones.
  destruct (node_make_bone arm _ _) as [control_bone arm1].
  set (init := if use_mix_parent then _ else _).
  destruct init as [[mix bones0] arm2] eqn:Hinit.
  destruct (reparent_loop_ok Armature make_derived_name node_make_bone (ps_caches s)
              (ps_requests s) (bones0, arm2)) as (r & Hr & Hmono & Hall).
  { intros p Hp. by apply Hnames, Hreq. }
  rewrite Hr. simpl. exists control_bone, mix, r.1, r.2. split; [done|]. split.
  - intros p Hp. destruct (Hall p Hp) as [bone Hbone]. exists bone.
    unfold get_reparent_bone. by rewrite Hbone.
  - intros ->. unfold init in Hinit. injection Hinit as <- <- <-.
    unfold get_reparent_bone. rewrite (Hmono node_parent control_bone); [done|].
    simpl. by rewrite lookup_singleton_eq.
Qed.

(** In the example the two requested parents get one reparent bone each;
    the parent of the master maps to the control bone itself. *)
Example three_parents_bones :
  control_generate_bones (list string) (fun name _ suffix => name +:+ suffix)
    (fun arm name _ => (name, arm ++ [name])) "a" false true false 0
    (ps_caches three_parents) (ps_requests three_parents) []
  = Ok ("a", None, {[ 0 := "a"; 2 := "c_reparent" ]}, ["a"; "c_reparent"]).
Proof. by vm_compute. Qed.

Lemma reparent_requests_get_bones_witness :
  NoDup (ps_requests three_parents) /\
  (forall p, p ∈ ps_requests three_parents ->
             p ∈ parent_subrig_cache (ps_caches three_parents)) /\
  exists control_bone mix_parent_bone reparent_bones arm',
    control_generate_bones (list string) (fun name _ suffix => name +:+ suffix)
      (fun arm name _ => (name, arm ++ [name])) "a" false true false 0
      (ps_caches three_parents) (ps_requests three_parents) []
    = Ok (control_bone, mix_parent_bone, reparent_bones, arm') /\
    (forall p, p ∈ ps_requests three_parents ->
       exists bone, get_reparent_bone reparent_bones p = Ok bone) /\
    (false = false -> get_reparent_bone reparent_bones 0 = Ok control_bone).
Proof.
  apply (reparent_requests_get_bones (list string) (fun name _ suffix => name +:+ suffix)
           (fun arm name _ => (name, arm ++ [name])) three_parents "a" false true false 0 []).
  exact three_parents_reachable.
Defined.

(** A master gets a mix parent exactly when two of its mirror siblings
    have different parent objects: since the cache holds no two parents
    that are [==], comparing them with [==] is comparing their
    identities. *)
Theorem mix_parent_iff_parents_differ (s s' : ParentState) (self : nat)
    (mirror_sibling_list : list (nat * string * ParentGen))
    (node_parent_list : list (option nat)) (use_mix_parent : bool) :
  group_reachable s ->
  initialize_parents "initialize" s self mirror_sibling_list
    = Ok (node_parent_list, use_mix_parent, s') ->
  self ∈ mirror_sibling_list.*1.*1 ->
  (use_mix_parent = false <->
   forall sib, sib ∈ mirror_sibling_list ->
     ps_node_parent s' !! sib.1.1 = ps_node_parent s' !! self) /\
  (use_mix_parent = false -> node_parent_list = [ps_node_parent s' !! self]).
Proof.
  intros Hinv%group_reachable_inv. unfold initialize_parents.
  destruct (rfoldl _ _ _) as [[parents s1]|] eqn:Hfold; simpl; [|discriminate].
  apply build_parents_inv in Hfold as (Hinv1 & _ & _ & ps & Hps & Hall); [|done].
  simpl in Hinv1, Hps, Hall. subst parents.
  intros Hres Hself.
  apply list_elem_of_fmap in Hself as (x & -> & (sib0 & -> & Hsib0)%list_elem_of_fmap).
  assert (Hown : exists own, ps_node_parent s1 !! sib0.1.1 = Some own /\ own ∈ ps).
  { apply list_elem_of_lookup in Hsib0 as [i Hi].
    destruct (Forall2_lookup_l _ _ _ _ _ Hall Hi) as (own & Hown & Hnp).
    exists own. split; [done|]. by eapply list_elem_of_lookup_2. }
  destruct Hown as (own & Hown & Hownin). rewrite Hown in Hres.
  assert (Hcache : forall p, p ∈ ps -> p ∈ parent_subrig_cache (ps_caches s1)).
  { intros p (i & Hi)%list_elem_of_lookup.
    destruct (Forall2_lookup_r _ _ _ _ _ Hall Hi) as (sib & _ & Hnp).
    by eapply (pi_node_parent _ Hinv1). }
  assert (Hident : forall p, p ∈ ps -> py_eq (ps_heap s1) p own = true <-> p = own).
  { intros p Hp. destruct (pi_cache _ Hinv1) as [Hwf Hdist _]. split.
    - pose proof (Hcache p Hp) as [i Hi]%list_elem_of_lookup.
      pose proof (Hcache own Hownin) as [j Hj]%list_elem_of_lookup.
      intros Heq. pose proof (Hdist i j p own Hi Hj Heq). congruence.
    - intros ->. apply py_eq_refl.
      apply (proj1 (Forall_forall _ _) Hwf own). auto. }
  assert (Hsame : forallb (fun parent => py_eq (ps_heap s1) parent own) ps = true <->
            forall sib, sib ∈ mirror_sibling_list ->
              ps_node_parent s1 !! sib.1.1 = Some own).
  { rewrite forallb_forall. split.
    - intros Hforall sib (i & Hi)%list_elem_of_lookup.
      destruct (Forall2_lookup_l _ _ _ _ _ Hall Hi) as (p & Hp & Hnp).
      rewrite Hnp. f_equal. apply Hident; [by eapply list_elem_of_lookup_2|].
      apply Hforall, list_elem_of_In. by eapply list_elem_of_lookup_2.
    - intros Hsibs p Hp%list_elem_of_In. apply Hident; [done|].
      apply list_elem_of_lookup in Hp as [i Hi].
      destruct (Forall2_lookup_r _ _ _ _ _ Hall Hi) as (sib & Hsib & Hnp).
      apply list_elem_of_lookup_2 in Hsib. rewrite (Hsibs sib Hsib) in Hnp. congruence. }
  destruct (forallb _ ps) eqn:Hforallb; injection Hres as <- <- <-.
  - rewrite Hown. split; [|done]. split; [|done]. intros _. by apply Hsame.
  - rewrite Hown. split; [|done]. split; [done|].
    intros Hsibs. apply Hsame in Hsibs. congruence.
Qed.

Lemma mix_parent_iff_parents_differ_witness :
  (true = false <->
   forall sib, sib ∈ [(0, "a", ControlBoneParentOrg "spine");
                      (2, "c", ControlBoneParentOrg "tail")] ->
     ps_node_parent three_parents !! sib.1.1 = ps_node_parent three_parents !! 0) /\
  (true = false -> [Some 0; Some 2] = [ps_node_parent three_parents !! 0]).
Proof.
  apply (mix_parent_iff_parents_differ three_parents three_parents 0
           [(0, "a", ControlBoneParentOrg "spine"); (2, "c", ControlBoneParentOrg "tail")]
           [Some 0; Some 2] true).
  - exact three_parents_reachable.
  - by vm_compute.
  - apply elem_of_cons. by left.
Defined.

(** ** The group class that is chosen *)

(** [issubclass] is reflexive and transitive on the classes of [cs], as it
    is on any classes of a Python program. *)
Definition subclass_preorder (cs : list PyClass) : Prop :=
  (forall c, c ∈ cs -> issubclass c c = true) /\
  (forall c d e, c ∈ cs -> d ∈ cs -> e ∈ cs ->
     issubclass c d = true -> issubclass d e = true -> issubclass c e = true).

Lemma group_class_walk_most_derived {N : Type} `{MergeNode N} (cs : list PyClass)
    (rest : list N) (g g' : PyClass) :
  subclass_preorder cs -> g ∈ cs -> Forall (fun x => group_class x ∈ cs) rest ->
  rfoldl group_class_step g rest = Ok g' ->
  g' ∈ cs /\ issubclass g' g = true /\
  (g' = g \/ exists x, x ∈ rest /\ g' = group_class x) /\
  Forall (fun x => issubclass g' (group_class x) = true) rest.
Proof.
  intros [Hrefl Htrans]. revert g. induction rest as [|x rest IH]; intros g Hg Hall; simpl.
  - intros [= <-]. split_and!; auto.
  - apply Forall_cons in Hall as [Hx Hall].
    destruct (group_class_step g x) as [g1|] eqn:Hstep; simpl; [|discriminate].
    intros Hrest.
    assert (Hg1 : g1 ∈ cs /\ issubclass g1 g = true /\ issubclass g1 (group_class x) = true /\
                  (g1 = g \/ g1 = group_class x)).
    { apply group_class_step_ok in Hstep as [[Hsub ->]|[Hsub ->]]; split_and!; auto. }
    destruct Hg1 as (Hg1 & Hsub & Hsubx & Hwhich).
    destruct (IH g1 Hg1 Hall Hrest) as (Hg' & Hsub' & Hfrom & Hall').
    split_and!; auto.
    + by apply (Htrans g' g1 g).
    + destruct Hfrom as [->|(y & Hy & ->)].
      * destruct Hwhich as [->| ->]; [by left|]. right. exists x. split; [|done].
        apply elem_of_cons. by left.
      * right. exists y. split; [|done]. apply elem_of_cons. by right.
    + apply Forall_cons. split; [|done]. by apply (Htrans g' g1 (group_class x)).
Qed.

(** When the choice of the group class of a cluster succeeds, the class
    chosen is the group class of one of the members and a subclass of the
    group class of every member: the most derived one. *)
Theorem chosen_group_class_is_most_derived {N : Type} `{MergeNode N}
    (merge_list : list N) (cls : PyClass) :
  subclass_preorder (group_class <$> merge_list) ->
  select_group_class merge_list = Ok cls ->
  (exists x, x ∈ merge_list /\ cls = group_class x) /\
  forall x, x ∈ merge_list -> issubclass cls (group_class x) = true.
Proof.
  intros Hpre. destruct merge_list as [|first rest]; [discriminate|]. simpl.
  intros Hwalk.
  apply (group_class_walk_most_derived (group_class first :: (group_class <$> rest))) in Hwalk
    as (_ & Hsub & Hfrom & Hall); auto.
  - split.
    + destruct Hfrom as [->|(x & Hx & ->)].
      * exists first. split; [|done]. apply elem_of_cons. by left.
      * exists x. split; [|done]. apply elem_of_cons. by right.
    + intros x [->|Hx]%elem_of_cons; [done|].
      by apply (proj1 (Forall_forall _ _) Hall).
  - apply elem_of_cons. by left.
  - apply Forall_forall. intros x Hx. apply elem_of_cons. right.
    by apply list_elem_of_fmap_2.
Qed.

Lemma chosen_group_class_is_most_derived_witness :
  (exists x, x ∈ [chain_node; both_node; loop_node] /\ BothGroup = group_class x) /\
  forall x, x ∈ [chain_node; both_node; loop_node] ->
            issubclass BothGroup (group_class x) = true.
Proof.
  apply (chosen_group_class_is_most_derived [chain_node; both_node; loop_node] BothGroup).
  - split.
    + intros c Hc. repeat (apply elem_of_cons in Hc as [->|Hc]); [reflexivity..|].
      by apply elem_of_nil in Hc.
    + intros c d e Hc Hd He.
      repeat (apply elem_of_cons in Hc as [->|Hc]); try (by apply elem_of_nil in Hc);
      repeat (apply elem_of_cons in Hd as [->|Hd]); try (by apply elem_of_nil in Hd);
      repeat (apply elem_of_cons in He as [->|He]); try (by apply elem_of_nil in He);
      vm_compute; congruence.
  - reflexivity.
Defined.

(** ** The hierarchy of rigs *)

(** Induction along [rigify_parent]. *)
Lemma RigObj_chain_ind (P : RigObj -> Prop) :
  (forall id is_skin r1 r2 bone, P (MkRigObj id is_skin r1 r2 bone None)) ->
  (forall id is_skin r1 r2 bone parent, P parent ->
     P (MkRigObj id is_skin r1 r2 bone (Some parent))) ->
  forall rig, P rig.
Proof.
  intros Hroot Hstep. fix IH 1. intros [id is_skin r1 r2 bone [parent|]].
  - apply Hstep, IH.
  - apply Hroot.
Qed.

Lemma parent_rigs_from_unfold (rig : RigObj) :
  parent_rigs_from rig = rig :: _get_parent_rigs (ro_rigify_parent rig).
Proof. by destruct rig as [id is_skin r1 r2 bone [parent|]]. Qed.

Lemma first_skin_rig_spec (parent : RigObj) :
  match first_skin_rig parent with
  | None => filter (fun r => ro_is_skin r = true) (parent_rigs_from parent) = []
  | Some a =>
      ro_is_skin a = true /\
      length (parent_rigs_from a) <= length (parent_rigs_from parent) /\
      filter (fun r => ro_is_skin r = true) (parent_rigs_from parent)
      = a :: filter (fun r => ro_is_skin r = true) (_get_parent_rigs (ro_rigify_parent a))
  end.
Proof.
  induction parent as [id is_skin r1 r2 bone|id is_skin r1 r2 bone parent IH]
    using RigObj_chain_ind.
  - simpl. destruct is_skin.
    + split; [done|]. split; [done|]. by rewrite filter_cons, decide_True.
    + by rewrite filter_cons, decide_False.
  - cbn [first_skin_rig]. destruct is_skin.
    + split; [done|]. split; [done|].
      rewrite parent_rigs_from_unfold. by rewrite filter_cons, decide_True.
    + rewrite (parent_rigs_from_unfold (MkRigObj _ _ _ _ _ _)).
      rewrite filter_cons, decide_False by done. cbn [ro_rigify_parent _get_parent_rigs].
      destruct (first_skin_rig parent) as [a|]; [|done].
      destruct IH as (Hskin & Hlen & Hfilter). split; [done|]. split; [|done].
      cbn [length]. lia.
Qed.

Lemma all_parent_skin_rigs_loop_spec (fuel : nat) (c : RigObj) :
  length (parent_rigs_from c) <= fuel ->
  all_parent_skin_rigs_loop fuel (Some c)
  = Ok (c :: filter (fun r => ro_is_skin r = true) (_get_parent_rigs (ro_rigify_parent c))).
Proof.
  revert c. induction fuel as [|fuel IH]; intros c Hlen.
  - rewrite parent_rigs_from_unfold in Hlen. simpl in Hlen. lia.
  - cbn [all_parent_skin_rigs_loop]. unfold get_parent_skin_rig.
    rewrite parent_rigs_from_unfold in Hlen. cbn [length] in Hlen.
    destruct (ro_rigify_parent c) as [parent|]; [|by destruct fuel].
    cbn [_get_parent_rigs] in *. pose proof (first_skin_rig_spec parent) as Hfirst.
    destruct (first_skin_rig parent) as [a|].
    + destruct Hfirst as (_ & Hle & ->). rewrite IH by lia. done.
    + rewrite Hfirst. by destruct fuel.
Qed.

(** [get_all_parent_skin_rigs] lists the rig itself and then those of its
    ancestors, nearest first, that are skin rigs: what is left of
    [_get_parent_rigs(self.rigify_parent)] when the other rigs are
    dropped.  The loop ends. *)
Theorem get_all_parent_skin_rigs_filters_ancestors (self : RigObj) :
  get_all_parent_skin_rigs self
  = Ok (self :: filter (fun r => ro_is_skin r = true)
                       (_get_parent_rigs (ro_rigify_parent self))).
Proof. unfold get_all_parent_skin_rigs. by apply all_parent_skin_rigs_loop_spec. Qed.

(** The rig whose rotation a chain uses is its ancestor number [index],
    the rig itself for an index of 0 or less and the root of the hierarchy
    for an index beyond it. *)
Theorem rotation_rig_is_clamped_ancestor (self : RigObj) (index : Z) :
  parent_rigs_from self
    !! Z.to_nat (Z.min (Z.max index 0) (Z.of_nat (length (parent_rigs_from self)) - 1))
  = Some (rotation_rig self index).
Proof.
  revert index.
  induction self as [id is_skin r1 r2 bone|id is_skin r1 r2 bone parent IH]
    using RigObj_chain_ind; intros index.
  - cbn [rotation_rig parent_rigs_from length].
    replace (Z.to_nat _) with 0 by lia. by destruct (0 <? index)%Z.
  - cbn [rotation_rig]. rewrite parent_rigs_from_unfold.
    cbn [ro_rigify_parent _get_parent_rigs length].
    destruct (Z.ltb_spec 0 index) as [Hpos|Hneg].
    + specialize (IH (index - 1)%Z). rewrite <- IH.
      assert (Hlen : 0 < length (parent_rigs_from parent)).
      { rewrite parent_rigs_from_unfold. simpl. lia. }
      replace (Z.to_nat (Z.min (Z.max index 0)
                               (Z.of_nat (S (length (parent_rigs_from parent))) - 1)))
        with (S (Z.to_nat (Z.min (Z.max (index - 1) 0)
                                 (Z.of_nat (length (parent_rigs_from parent)) - 1)))) by lia.
      done.
    + replace (Z.to_nat _) with 0 by lia. done.
Qed.

(** The parents of the rig of a node, outermost first. *)
Definition cluster_parents (n : ClusterNode) : list nat :=
  ro_id <$> reverse (_get_parent_rigs (ro_rigify_parent (cn_rig n))).

(** [self] lies nearer to the middle than [other] on one axis and not
    farther on the other one. *)
Definition more_middle (self other : ClusterNode) : Prop :=
  (Z.abs (cn_name_split self).1.2 < Z.abs (cn_name_split other).1.2 /\
   Z.abs (cn_name_split self).2 <= Z.abs (cn_name_split other).2)%Z \/
  (Z.abs (cn_name_split self).1.2 <= Z.abs (cn_name_split other).1.2 /\
   Z.abs (cn_name_split self).2 < Z.abs (cn_name_split other).2)%Z.

(** [is_better_cluster] holds exactly when the rig of [self] has all the
    parents of the rig of [other] and more, or when [self] lies nearer to
    the middle.  The second test on the parents never fires (it compares
    two lists of different lengths), so that a node can be better by its
    sides than a node whose rig has more parents; no node is better than
    itself. *)
Theorem is_better_cluster_spec (self other : ClusterNode) :
  (is_better_cluster self other = true <->
   (length (cluster_parents other) < length (cluster_parents self) /\
    take (length (cluster_parents other)) (cluster_parents self) = cluster_parents other) \/
   more_middle self other) /\
  is_better_cluster self self = false.
Proof.
  assert (Hdead : forall l l' : list RigObj,
            (length l <? length l') && rigs_eqb (take (length l') l') l = false).
  { intros l l'. destruct (Nat.ltb_spec (length l) (length l')) as [Hlt|]; [|done].
    simpl. apply bool_decide_eq_false. intros Heq.
    apply (f_equal length) in Heq. rewrite !length_fmap, length_take in Heq. lia. }
  assert (Hsides : forall a b : ClusterNode,
    (if ((Z.abs (cn_name_split a).1.2 <? Z.abs (cn_name_split b).1.2)
         && (Z.abs (cn_name_split a).2 <=? Z.abs (cn_name_split b).2)
         || (Z.abs (cn_name_split a).1.2 <=? Z.abs (cn_name_split b).1.2)
            && (Z.abs (cn_name_split a).2 <? Z.abs (cn_name_split b).2))%Z
     then true
     else if ((Z.abs (cn_name_split b).1.2 <? Z.abs (cn_name_split a).1.2)
              && (Z.abs (cn_name_split b).2 <=? Z.abs (cn_name_split a).2)
              || (Z.abs (cn_name_split b).1.2 <=? Z.abs (cn_name_split a).1.2)
                 && (Z.abs (cn_name_split b).2 <? Z.abs (cn_name_split a).2))%Z
          then false else false) = true <-> more_middle a b).
  { intros a b. unfold more_middle.
    match goal with
    | |- (if ?c1 then true else if ?c2 then false else false) = true <-> _ =>
        assert (Hif : (if c1 then true else if c2 then false else false) = c1)
          by (by destruct c1, c2);
        rewrite Hif; clear Hif
    end.
    rewrite orb_true_iff, !andb_true_iff, !Z.ltb_lt, !Z.leb_le. tauto. }
  split.
  - unfold is_better_cluster, cluster_parents. cbn zeta. rewrite Hdead.
    rewrite !length_fmap.
    set (mine := reverse (_get_parent_rigs (ro_rigify_parent (cn_rig self)))).
    set (theirs := reverse (_get_parent_rigs (ro_rigify_parent (cn_rig other)))).
    destruct ((length theirs <? length mine) && rigs_eqb (take (length theirs) mine) theirs)
      eqn:Hext.
    + split; [intros _|done]. left. apply andb_true_iff in Hext as [Hlt Heq].
      apply Nat.ltb_lt in Hlt. apply bool_decide_eq_true in Heq.
      split; [done|]. by rewrite <- fmap_take.
    + rewrite Hsides. split; [by right|]. intros [[Hlt Heq]|Hmm]; [|done]. exfalso.
      apply andb_false_iff in Hext as [Hext|Hext].
      * apply Nat.ltb_ge in Hext. lia.
      * apply bool_decide_eq_false in Hext. apply Hext. by rewrite fmap_take.
  - unfold is_better_cluster. cbn zeta. rewrite !Hdead.
    destruct (if (_ || _)%bool then true else _) eqn:Hif; [|done].
    apply Hsides in Hif as [[H1 H2]|[H1 H2]]; lia.
Qed.

(** *** Example: each of two nodes is better than the other *)

Definition face_rig : RigObj := MkRigObj 1 true qzero qzero "head" None.
Definition cheek_rig : RigObj := MkRigObj 2 true qzero qzero "face" (Some face_rig).
Definition lip_rig : RigObj := MkRigObj 3 true qzero qzero "cheek" (Some cheek_rig).

Example is_better_cluster_both_ways :
  is_better_cluster {| cn_rig := lip_rig; cn_name_split := ("lip", 1%Z, 0%Z) |}
                    {| cn_rig := cheek_rig; cn_name_split := ("cheek", 0%Z, 0%Z) |} = true /\
  is_better_cluster {| cn_rig := cheek_rig; cn_name_split := ("cheek", 0%Z, 0%Z) |}
                    {| cn_rig := lip_rig; cn_name_split := ("lip", 1%Z, 0%Z) |} = true.
Proof. split; reflexivity. Qed.

(** ** The choice of the parent rig in the UI *)

Lemma PoseBone_chain_ind (P : PoseBone -> Prop) :
  (forall name rtype index, P (MkPoseBone name rtype index None)) ->
  (forall name rtype index parent, P parent -> P (MkPoseBone name rtype index (Some parent))) ->
  forall pbone, P pbone.
Proof.
  intros Hroot Hstep. fix IH 1. intros [name rtype index [parent|]].
  - apply Hstep, IH.
  - apply Hroot.
Qed.

(** A bone and its ancestors, nearest first. *)
Fixpoint bone_chain (pbone : PoseBone) : list PoseBone :=
  match pbone with
  | MkPoseBone _ _ _ parent =>
      pbone :: match parent with
               | Some p => bone_chain p
               | None => []
               end
  end.

Lemma list_parent_enum_items_ids (pbone : PoseBone) :
  (fun item : EnumItem => item.1.1) <$> list_parent_enum_items pbone
  = pb_name <$> filter (fun b => pb_rigify_type b <> "") (bone_chain pbone).
Proof.
  induction pbone as [name rtype index|name rtype index parent IH] using PoseBone_chain_ind.
  - cbn [list_parent_enum_items bone_chain]. rewrite filter_cons. cbn [pb_rigify_type].
    destruct (decide (rtype = "")) as [->|Hne].
    + by rewrite decide_False by (intros Hn; by apply Hn).
    + by rewrite decide_True.
  - cbn [list_parent_enum_items bone_chain]. rewrite filter_cons, fmap_app, IH.
    cbn [pb_rigify_type].
    destruct (decide (rtype = "")) as [->|Hne].
    + by rewrite decide_False by (intros Hn; by apply Hn).
    + by rewrite decide_True.
Qed.

(** Without an active pose bone [parent_enum_items] fails on its unbound
    local [items]; with one it returns, whatever the shared list held
    before, the bones of the parent chain that have a rig type, nearest
    first, or the single item "unknown" when there is none: never an empty
    list. *)
Theorem parent_enum_items_spec (enum_items : list EnumItem)
    (active_pose_bone : option PoseBone) :
  match active_pose_bone with
  | None => parent_enum_items enum_items active_pose_bone
            = Raised (UnboundLocalError "items")
  | Some pbone =>
      exists items,
        parent_enum_items enum_items active_pose_bone = Done items /\
        items <> [] /\
        (fun item : EnumItem => item.1.1) <$> items
        = match filter (fun b => pb_rigify_type b <> "") (bone_chain pbone) with
          | [] => ["unknown"]
          | typed => pb_name <$> typed
          end
  end.
Proof.
  destruct active_pose_bone as [pbone|]; [|done]. unfold parent_enum_items.
  pose proof (list_parent_enum_items_ids pbone) as Hids.
  destruct (decide (list_parent_enum_items pbone = [])) as [Hnil|Hne].
  - eexists. split; [done|]. split; [done|]. rewrite Hnil in Hids.
    by destruct (filter _ (bone_chain pbone)).
  - eexists. split; [done|]. split; [done|]. rewrite Hids.
    destruct (filter _ (bone_chain pbone)) eqn:Hf; [|done].
    destruct (list_parent_enum_items pbone); [done|discriminate].
Qed.

Lemma list_index_spec (names : list string) (x : string) (i : nat) :
  list_index names x = Some i ->
  names !! i = Some x /\ forall j, j < i -> names !! j <> Some x.
Proof.
  revert i. induction names as [|y names IH]; intros i; simpl; [discriminate|].
  destruct (decide (y = x)) as [->|Hne].
  - intros [= <-]. split; [done|]. intros j Hj. lia.
  - destruct (list_index names x) as [k|]; simpl; [|discriminate]. intros [= <-].
    destruct (IH k eq_refl) as [Hk Hfirst]. split; [done|].
    intros [|j] Hj; simpl; [congruence|]. apply Hfirst. lia.
Qed.

Lemma py_index_nat {A : Type} (l : list A) (i : nat) (x : A) :
  l !! i = Some x -> py_index l (Z.of_nat i) = Ok x.
Proof.
  intros Hi. unfold py_index.
  destruct (Z.ltb_spec (Z.of_nat i) 0) as [|_]; [lia|].
  destruct (Z.ltb_spec (Z.of_nat i) 0) as [|_]; [lia|].
  by rewrite Nat2Z.id, Hi.
Qed.

(** When [execute] finishes, every index it has assigned designates, in
    the list of parents of the bone it was assigned to, the first item with
    the identifier of the item that the index of the active bone
    designates; the active bone itself is never assigned to.  An index at
    or beyond the end of the list cancels the operator before any
    assignment. *)
Theorem execute_copies_the_designated_parent (has_rotation_option : string -> bool)
    (pbone : PoseBone) (selected_pose_bones : list PoseBone)
    (outcome : OperatorResult) (assignments : list (string * Z)) :
  execute has_rotation_option pbone selected_pose_bones = Ok (outcome, assignments) ->
  match outcome with
  | CANCELLED _ index =>
      index = pb_rotation_index pbone /\
      (Z.of_nat (length (list_parent_enum_items pbone)) <= index)%Z /\
      assignments = []
  | FINISHED =>
      exists item : EnumItem,
        py_index (list_parent_enum_items pbone) (pb_rotation_index pbone) = Ok item /\
        forall name index, (name, index) ∈ assignments ->
          exists sel item',
            sel ∈ selected_pose_bones /\ pb_name sel = name /\ name <> pb_name pbone /\
            has_rotation_option (pb_rigify_type sel) = true /\
            py_index (list_parent_enum_items sel) index = Ok item' /\
            item'.1.1 = item.1.1 /\
            forall j item'', (0 <= j < index)%Z ->
              py_index (list_parent_enum_items sel) j = Ok item'' -> item''.1.1 <> item.1.1
  end.
Proof.
  unfold execute.
  destruct (Z.leb_spec (Z.of_nat (length (list_parent_enum_items pbone)))
                       (pb_rotation_index pbone)) as [Hge|Hlt].
  { intros [= <- <-]. auto. }
  destruct (py_index _ _) as [item|] eqn:Hitem; simpl; [|discriminate].
  intros [= <- <-]. exists item. split; [done|].
  intros name index (sel & Hsel & Hsome)%list_elem_of_omap.
  destruct (bool_decide (pb_rigify_type sel <> "")) eqn:Htype; [|discriminate].
  destruct (bool_decide (pb_name sel <> pb_name pbone)) eqn:Hother; [|discriminate].
  simpl in Hsome.
  destruct (has_rotation_option (pb_rigify_type sel)) eqn:Hopt; [|discriminate].
  destruct (list_index _ _) as [i|] eqn:Hidx; [|discriminate].
  injection Hsome as <- <-.
  apply list_index_spec in Hidx as [Hi Hfirst].
  rewrite list_lookup_fmap in Hi.
  destruct (list_parent_enum_items sel !! i) as [item'|] eqn:Hitem'; [|discriminate].
  injection Hi as Hid.
  exists sel, item'. apply bool_decide_eq_true in Hother.
  split_and!; auto.
  - by apply py_index_nat.
  - intros j item'' [Hj0 Hji]. unfold py_index.
    destruct (Z.ltb_spec j 0) as [|_]; [lia|].
    destruct (Z.ltb_spec j 0) as [|_]; [lia|].
    destruct (list_parent_enum_items sel !! Z.to_nat j) as [it|] eqn:Hj; [|discriminate].
    intros [= ->] Heq. apply (Hfirst (Z.to_nat j)); [lia|].
    rewrite list_lookup_fmap, Hj. simpl. by rewrite Heq.
Qed.

(** *** Example: a cheek chain below a face rig *)

Definition face_bone : PoseBone := MkPoseBone "face" "face.skin_face" 0 None.
Definition jaw_bone : PoseBone := MkPoseBone "jaw" "" 0 (Some face_bone).
Definition cheek_bone : PoseBone := MkPoseBone "cheek" "skin.basic_chain" 1 (Some jaw_bone).
Definition lip_bone : PoseBone := MkPoseBone "lip" "skin.stretchy_chain" 0 (Some jaw_bone).

Lemma execute_copies_the_designated_parent_witness :
  exists item : EnumItem,
    py_index (list_parent_enum_items cheek_bone) (pb_rotation_index cheek_bone) = Ok item /\
    forall name index, (name, index) ∈ [("lip", 1%Z)] ->
      exists sel item',
        sel ∈ [cheek_bone; jaw_bone; lip_bone] /\ pb_name sel = name /\
        name <> pb_name cheek_bone /\
        (fun _ : string => true) (pb_rigify_type sel) = true /\
        py_index (list_parent_enum_items sel) index = Ok item' /\
        item'.1.1 = item.1.1 /\
        forall j item'', (0 <= j < index)%Z ->
          py_index (list_parent_enum_items sel) j = Ok item'' -> item''.1.1 <> item.1.1.
Proof.
  apply (execute_copies_the_designated_parent (fun _ => true) cheek_bone
           [cheek_bone; jaw_bone; lip_bone] FINISHED [("lip", 1%Z)]).
  reflexivity.
Defined.

(** ** Splitting a spine *)

Lemma py_slice_split {A : Type} (l : list A) (k : Z) :
  py_slice l 0 k ++ py_slice_from l k = l.
Proof.
  unfold py_slice, py_slice_from. replace (py_slice_bound (length l) 0) with 0.
  - rewrite drop_0, Nat.sub_0_r. apply take_drop.
  - unfold py_slice_bound. simpl. lia.
Qed.

Lemma py_slice_from_nonempty {A : Type} (l : list A) (k : Z) :
  (0 <= k)%Z -> py_slice_from l k <> [] -> Z.of_nat (length (py_slice l 0 k)) = k.
Proof.
  intros Hk Hne. unfold py_slice, py_slice_from in *.
  replace (py_slice_bound (length l) 0) with 0 by (unfold py_slice_bound; simpl; lia).
  rewrite drop_0, Nat.sub_0_r, length_take.
  assert (Hlt : py_slice_bound (length l) k < length l).
  { destruct (decide (py_slice_bound (length l) k < length l)) as [|Hge]; [done|].
    exfalso. apply Hne. apply drop_ge. lia. }
  unfold py_slice_bound in *. destruct (Z.ltb_spec k 0); lia.
Qed.

(** When [substitute] returns, the chain is cut into a tail, a spine and a
    head that follow each other and cover it; the spine is not empty,
    there is a tail exactly when [use_tail] is set (it then has [tail_pos]
    bones) and a head exactly when [use_head] is set.  The spine rig is put
    on the first bone of the spine with the pivot position counted from
    there, the tail rig on the last bone of the tail, the head rig on the
    first bone of the head. *)
Theorem substitute_splits_the_chain (params : SuperSpineParams) (base_bone : string)
    (children : list string) (edits : list BoneEdit)
    (rigs : list (SubRigClass * string * ParamOverride)) :
  substitute params base_bone children = Ok (edits, rigs) ->
  exists tail spine_first spine_rest head,
    base_bone :: children = tail ++ (spine_first :: spine_rest) ++ head /\
    (if use_tail params then Z.of_nat (length tail) = tail_pos params else tail = []) /\
    (if use_head params then head <> [] else head = []) /\
    rigs = [(BasicSpineRig, spine_first,
             PivotPos (pivot_pos params - Z.of_nat (length tail)))]
           ++ match last tail with
              | Some tail_last => [(BasicTailRig, tail_last, ConnectChain)]
              | None => []
              end
           ++ match head with
              | head_first :: _ => [(SuperHeadRig, head_first, ConnectChain)]
              | [] => []
              end.
Proof.
  unfold substitute. set (orgs := base_bone :: children).
  destruct (split_orgs params orgs) as [[[[spine head_orgs] tail_orgs] pp]|] eqn:Hsplit;
    simpl; [|discriminate].
  destruct (if truthy head_orgs || truthy tail_orgs then _ else _) as [ed|]; simpl;
    [|discriminate].
  destruct spine as [|spine_first spine_rest]; simpl; [discriminate|].
  intros [= <- <-]. revert Hsplit. unfold split_orgs.
  assert (Hhead : forall pre h,
            (if use_head params then
               if (neck_pos params <=? pivot_pos params)%Z then
                 Raise (MetarigError "RIGIFY ERROR: Neck cannot be below or the same as pivot.")
               else if (Z.of_nat (length orgs) <=? neck_pos params)%Z then
                 Raise (MetarigError "RIGIFY ERROR: Neck is too short.")
               else Ok (py_slice orgs 0 (neck_pos params - 1),
                        Some (py_slice_from orgs (neck_pos params - 1)))
             else Ok (orgs, None)) = Ok (pre, h) ->
            exists head, orgs = pre ++ head /\
              (if use_head params then head <> [] else head = []) /\
              match head with
              | head_first :: _ => [(SuperHeadRig, head_first, ConnectChain)]
              | [] => []
              end
              = match h with
                | Some (head_first :: _) => [(SuperHeadRig, head_first, ConnectChain)]
                | _ => []
                end).
  { intros pre h. destruct (use_head params).
    - destruct (Z.leb_spec (neck_pos params) (pivot_pos params)); [discriminate|].
      destruct (Z.leb_spec (Z.of_nat (length orgs)) (neck_pos params)) as [|Hlt];
        [discriminate|].
      intros [= <- <-]. exists (py_slice_from orgs (neck_pos params - 1)).
      split; [by rewrite py_slice_split|]. split; [|done].
      unfold py_slice_from. intros Hnil. apply (f_equal length) in Hnil.
      rewrite length_drop in Hnil. simpl in Hnil. unfold py_slice_bound in Hnil.
      destruct (Z.ltb_spec (neck_pos params - 1) 0); simpl in Hlt; lia.
    - intros [= <- <-]. exists []. by rewrite app_nil_r. }
  destruct (if use_head params then _ else _) as [[pre h]|] eqn:Hpre; simpl; [|discriminate].
  destruct (Hhead pre h eq_refl) as (head & Horgs & Hhd & Hrig). clear Hhead Hpre.
  destruct (use_tail params).
  - destruct (Z.ltb_spec (tail_pos params) 2) as [|Htp]; [discriminate|].
    destruct (Z.leb_spec (pivot_pos params) (tail_pos params)); [discriminate|].
    intros [= Hspine <- <- <-].
    exists (py_slice pre 0 (tail_pos params)), spine_first, spine_rest, head.
    assert (Hlen : Z.of_nat (length (py_slice pre 0 (tail_pos params))) = tail_pos params).
    { apply py_slice_from_nonempty; [lia|]. by rewrite Hspine. }
    split_and!; auto.
    + pose proof (py_slice_split pre (tail_pos params)) as Hs. rewrite Hspine in Hs.
      change (orgs = py_slice pre 0 (tail_pos params) ++ (spine_first :: spine_rest) ++ head).
      rewrite app_assoc, Hs. exact Horgs.
    + rewrite Hlen, Hrig. do 2 f_equal.
      destruct (py_slice pre 0 (tail_pos params)) as [|t ts] eqn:Htail using rev_ind.
      * simpl in Hlen. lia.
      * rewrite reverse_snoc, last_snoc. done.
  - intros [= -> <- <- <-]. exists [], spine_first, spine_rest, head.
    split_and!; auto. simpl. rewrite Z.sub_0_r, Hrig. done.
Qed.

Lemma substitute_splits_the_chain_witness :
  exists tail spine_first spine_rest head,
    "spine" :: ["spine.001"; "spine.002"; "spine.003"; "spine.004"; "spine.005"; "spine.006"]
    = tail ++ (spine_first :: spine_rest) ++ head /\
    Z.of_nat (length tail) = 2%Z /\
    head <> [] /\
    [(BasicSpineRig, "spine.002", PivotPos 1); (BasicTailRig, "spine.001", ConnectChain);
     (SuperHeadRig, "spine.004", ConnectChain)]
    = [(BasicSpineRig, spine_first, PivotPos (3 - Z.of_nat (length tail)))]
      ++ match last tail with
         | Some tail_last => [(BasicTailRig, tail_last, ConnectChain)]
         | None => []
         end
      ++ match head with
         | head_first :: _ => [(SuperHeadRig, head_first, ConnectChain)]
         | [] => []
         end.
Proof.
  apply (substitute_splits_the_chain
           {| use_head := true; neck_pos := 5; use_tail := true; tail_pos := 2; pivot_pos := 3 |}
           "spine" ["spine.001"; "spine.002"; "spine.003"; "spine.004"; "spine.005"; "spine.006"]
           [SetParentToParentOf "spine.002" "spine"; Disconnect "spine.004";
            SetParent "spine.001" None; SetParent "spine" None;
            FlipBone "spine.001"; FlipBone "spine";
            SetParent "spine.001" (Some "spine.002"); ParentBoneChain ["spine.001"; "spine"]]).
  reflexivity.
Defined.

(** A tail that takes the whole chain is not reported as a configuration
    error: without a head, [tail_pos] is only compared with the pivot
    position, and a tail position at or beyond the end of the chain leaves
    no bone for the spine, so that [spine_orgs[0]] raises [IndexError]. *)
Theorem substitute_tail_takes_the_chain (params : SuperSpineParams) (base_bone : string)
    (children : list string) :
  use_head params = false -> use_tail params = true ->
  (2 <= tail_pos params < pivot_pos params)%Z ->
  (Z.of_nat (length (base_bone :: children)) <= tail_pos params)%Z ->
  substitute params base_bone children = Raise IndexError.
Proof.
  intros Hhead Htail [Htp Hpivot] Hlen. unfold substitute, split_orgs.
  rewrite Hhead, Htail. cbn [mbind result_bind fst snd].
  destruct (Z.ltb_spec (tail_pos params) 2) as [|_]; [lia|].
  destruct (Z.leb_spec (pivot_pos params) (tail_pos params)) as [|_]; [lia|].
  cbn [mbind result_bind fst snd].
  assert (Hbound : py_slice_bound (length (base_bone :: children)) (tail_pos params)
                   = length (base_bone :: children)).
  { unfold py_slice_bound. destruct (Z.ltb_spec (tail_pos params) 0); lia. }
  assert (Hspine : py_slice_from (base_bone :: children) (tail_pos params) = []).
  { unfold py_slice_from. rewrite Hbound. by apply drop_ge. }
  assert (Htl : py_slice (base_bone :: children) 0 (tail_pos params) = base_bone :: children).
  { unfold py_slice. rewrite Hbound.
    replace (py_slice_bound (length (base_bone :: children)) 0) with 0
      by (unfold py_slice_bound; simpl; lia).
    rewrite drop_0, Nat.sub_0_r. by apply take_ge. }
  rewrite Hspine, Htl.
  assert (Htruthy : truthy (Some (reverse (base_bone :: children))) = true).
  { rewrite reverse_cons. by destruct (reverse children). }
  rewrite Htruthy, orb_true_r. done.
Qed.

Lemma substitute_tail_takes_the_chain_witness :
  substitute {| use_head := false; neck_pos := 6; use_tail := true; tail_pos := 3;
                pivot_pos := 4 |} "spine" ["spine.001"; "spine.002"]
  = Raise IndexError.
Proof.
  apply (substitute_tail_takes_the_chain
           {| use_head := false; neck_pos := 6; use_tail := true; tail_pos := 3;
              pivot_pos := 4 |} "spine" ["spine.001"; "spine.002"]).
  - reflexivity.
  - reflexivity.
  - simpl. lia.
  - simpl. lia.
Defined.

(** ** Stretchy chains *)

Lemma foldl_Qcplus (a : Qc) (l : list Qc) : foldl Qcplus a l = (a + py_sum l)%Qc.
Proof.
  unfold py_sum. revert a. induction l as [|x l IH]; intros a; cbn [foldl].
  - ring.
  - rewrite (IH (a + x)%Qc), (IH (Q2Qc 0 + x)%Qc). ring.
Qed.

Lemma py_sum_cons (x : Qc) (l : list Qc) : py_sum (x :: l) = (x + py_sum l)%Qc.
Proof. unfold py_sum at 1. cbn [foldl]. rewrite foldl_Qcplus. ring. Qed.

Lemma py_sum_nonneg (l : list Qc) :
  Forall (fun x => (Q2Qc 0 <= x)%Qc) l -> (Q2Qc 0 <= py_sum l)%Qc.
Proof.
  induction 1 as [|x l Hx _ IH]; [apply Qcle_refl|].
  rewrite py_sum_cons.
  replace (Q2Qc 0) with (Q2Qc 0 + Q2Qc 0)%Qc by ring.
  by apply Qcplus_le_compat.
Qed.

Lemma py_sum_take_mono (l : list Qc) (i j : nat) :
  Forall (fun x => (Q2Qc 0 <= x)%Qc) l -> i <= j ->
  (py_sum (take i l) <= py_sum (take j l))%Qc.
Proof.
  intros Hl. revert i j. induction Hl as [|x l Hx Hl IH]; intros i j Hij.
  - rewrite !take_nil. apply Qcle_refl.
  - destruct i as [|i].
    + apply py_sum_nonneg, Forall_take. by constructor.
    + destruct j as [|j]; [lia|]. cbn [take]. rewrite !py_sum_cons.
      apply Qcplus_le_compat; [apply Qcle_refl | apply IH; lia].
Qed.

Lemma chain_lengths_lookup (bone_lengths : list Qc) (i : nat) :
  i <= length bone_lengths ->
  chain_lengths bone_lengths !! i = Some (py_sum (take i bone_lengths)).
Proof.
  intros Hi. unfold chain_lengths.
  rewrite list_lookup_fmap, lookup_seq_lt by lia. reflexivity.
Qed.

Lemma chain_lengths_last (bone_lengths : list Qc) :
  last (chain_lengths bone_lengths) = Some (py_sum bone_lengths).
Proof.
  rewrite last_lookup.
  replace (pred (length (chain_lengths bone_lengths))) with (length bone_lengths)
    by (unfold chain_lengths; rewrite length_fmap, length_seq; lia).
  rewrite chain_lengths_lookup by lia. by rewrite firstn_all.
Qed.

Lemma Qcdiv_cancel (x y : Qc) : y <> Q2Qc 0 -> (x / y * y)%Qc = x.
Proof. intros Hy. field. exact Hy. Qed.

Lemma Qcdiv_le_mono (x y t : Qc) :
  (Q2Qc 0 < t)%Qc -> (x <= y)%Qc -> (x / t <= y / t)%Qc.
Proof.
  intros Ht Hxy. apply (Qcmult_lt_0_le_reg_r _ _ t Ht).
  assert (t <> Q2Qc 0) as Hne by (intros ->; by apply Qclt_not_eq in Ht).
  by rewrite !Qcdiv_cancel.
Qed.

(** [get_pivot_projection] and [initialize]: with the falloff measured
    along the chain, a chain of total length zero makes the projection
    raise ZeroDivisionError; otherwise the projections of the nodes are
    fractions between 0 and 1 that do not decrease along the chain, 0 at
    the first node and 1 at the last. *)
Theorem chain_projection_along_the_chain (axis_projection : Vector -> outcome Qc)
    (self : StretchyChain) (bone_lengths : list Qc) (pos pos' : Vector) (i j : nat) :
  sc_falloff_length self = true ->
  sc_chain_lengths self = chain_lengths bone_lengths ->
  Forall (fun x => (Q2Qc 0 <= x)%Qc) bone_lengths ->
  i <= j <= length bone_lengths ->
  if decide (py_sum bone_lengths = Q2Qc 0) then
    get_pivot_projection axis_projection self pos i = Raised ZeroDivisionError
  else
    exists fi fj,
      get_pivot_projection axis_projection self pos i = Done fi /\
      get_pivot_projection axis_projection self pos' j = Done fj /\
      (Q2Qc 0 <= fi)%Qc /\ (fi <= fj)%Qc /\ (fj <= Q2Qc 1)%Qc /\
      (i = 0 -> fi = Q2Qc 0) /\ (j = length bone_lengths -> fj = Q2Qc 1).
Proof.
  intros Hmode Hlen Hpos [Hij Hj]. unfold get_pivot_projection.
  rewrite Hmode, Hlen, chain_lengths_last, !chain_lengths_lookup by lia.
  unfold py_div. destruct (decide (py_sum bone_lengths = Q2Qc 0)) as [Hz|Hz]; [done|].
  assert (Q2Qc 0 < py_sum bone_lengths)%Qc as Htotal.
  { destruct (Qcle_lt_or_eq _ _ (py_sum_nonneg _ Hpos)) as [?|?]; [done|congruence]. }
  eexists _, _. split_and!; try reflexivity.
  - replace (Q2Qc 0) with (py_sum (take 0 bone_lengths) / py_sum bone_lengths)%Qc
      by (rewrite take_0; unfold py_sum; cbn [foldl]; field; exact Hz).
    apply Qcdiv_le_mono; [done|]. apply py_sum_take_mono; [done|lia].
  - apply Qcdiv_le_mono; [done|]. by apply py_sum_take_mono.
  - replace (Q2Qc 1) with (py_sum (take (length bone_lengths) bone_lengths)
                            / py_sum bone_lengths)%Qc
      by (rewrite firstn_all; field; exact Hz).
    apply Qcdiv_le_mono; [done|]. apply py_sum_take_mono; [done|lia].
  - intros ->. rewrite take_0. unfold py_sum at 1. cbn [foldl]. field. exact Hz.
  - intros ->. rewrite firstn_all. field. exact Hz.
Qed.

(** A chain of three bones of lengths 1, 3 and 4 with its middle control
    at the third bone, which is half way along the chain. *)
Definition uneven_chain : StretchyChain :=
  {| sc_rig := 0; sc_num_orgs := 3; sc_pivot_pos := 2;
     sc_falloff := fun _ => Q2Qc 0; sc_falloff_spherical := fun _ => false;
     sc_falloff_length := true;
     sc_chain_lengths := chain_lengths [Q2Qc 1; Q2Qc 3; Q2Qc 4];
     sc_middle_pivot_factor := Q2Qc (1 # 2);
     sc_control_nodes := [10; 11; 12; 13] |}.

Lemma chain_projection_along_the_chain_witness :
  if decide (py_sum [Q2Qc 1; Q2Qc 3; Q2Qc 4] = Q2Qc 0) then
    get_pivot_projection (fun _ => Done (Q2Qc 0)) uneven_chain vzero 1
    = Raised ZeroDivisionError
  else
    exists fi fj,
      get_pivot_projection (fun _ => Done (Q2Qc 0)) uneven_chain vzero 1 = Done fi /\
      get_pivot_projection (fun _ => Done (Q2Qc 0)) uneven_chain vzero 2 = Done fj /\
      (Q2Qc 0 <= fi)%Qc /\ (fi <= fj)%Qc /\ (fj <= Q2Qc 1)%Qc /\
      (1 = 0 -> fi = Q2Qc 0) /\ (2 = length [Q2Qc 1; Q2Qc 3; Q2Qc 4] -> fj = Q2Qc 1).
Proof.
  apply (chain_projection_along_the_chain (fun _ => Done (Q2Qc 0)) uneven_chain
           [Q2Qc 1; Q2Qc 3; Q2Qc 4] vzero vzero 1 2).
  - reflexivity.
  - reflexivity.
  - repeat constructor; apply Qcleb_le; reflexivity.
  - simpl. lia.
Defined.

(** The [copy_local] table of a parent generator; a generator of another
    class has none. *)
Definition copy_local_of (p : ParentGen) : gmap Target CopyLocal :=
  match p with
  | ControlBoneParentOffset _ d => off_copy_local d
  | ControlBoneParentOrg _ => ∅
  end.

(** The control node [k] of the chain is one that [make_control_node] has
    told to make a reparent bone. *)
Definition requests_reparent (self : StretchyChain) (k : nat) : Prop :=
  exists i, sc_control_nodes self !! i = Some k /\
    forall node, cbn_needs_reparent (stretchy_make_control_node self node i) = true.

Definition targets_ok (self : StretchyChain) (parent p : ParentGen) : Prop :=
  (exists q d, p = ControlBoneParentOffset q d) /\
  forall target, is_Some (copy_local_of p !! target) ->
    is_Some (copy_local_of parent !! target) \/
    exists k, target = Deferred (LazyRef k ["reparent_bone"]) /\ requests_reparent self k.

Lemma targets_ok_wrap (self : StretchyChain) (parent : ParentGen) (name : string) :
  targets_ok self parent (offset_wrap (sc_rig self) parent name).
Proof.
  split.
  - destruct parent; simpl; eauto.
  - intros target. destruct parent; simpl; [|by left].
    rewrite lookup_empty. by intros [? ?].
Qed.

Lemma targets_ok_add (self : StretchyChain) (parent p : ParentGen) (k : nat) (x : Qc) :
  targets_ok self parent p -> requests_reparent self k ->
  exists p', add_reparent_bone_location p k x = Done p' /\ targets_ok self parent p'.
Proof.
  intros [(q & d & ->) Hok] Hk. simpl. eexists. split; [reflexivity|]. split; [eauto|].
  intros target. unfold add_copy_local_location.
  destruct (default _ _) as [[? ?] ?]. simpl.
  destruct (decide (target = Deferred (LazyRef k ["reparent_bone"]))) as [->|Hne].
  - intros _. right. eauto.
  - rewrite lookup_insert_ne by done. apply Hok.
Qed.

Section FalloffFacts.

Variable float_pow : Qc -> Qc -> outcome Qc.

(** How [apply_falloff_curve] can fail: a power raises, or a power is zero
    and [1/p] divides by it. *)
Definition falloff_failure (e : exn_ext) : Prop :=
  (exists x y, float_pow x y = Raised e) \/
  (e = ZeroDivisionError /\ exists x y, float_pow x y = Done (Q2Qc 0)).

Lemma apply_falloff_curve_raises (self : StretchyChain) (factor : Qc) (idx : nat)
    (e : exn_ext) :
  apply_falloff_curve float_pow self factor idx = Raised e -> falloff_failure e.
Proof.
  unfold apply_falloff_curve, falloff_failure, py_div.
  destruct (sc_falloff_spherical self idx); [destruct (Qcleb _ _)|];
    repeat match goal with
           | |- context [float_pow ?x ?y] =>
               let Hp := fresh "Hp" in
               destruct (float_pow x y) as [?|?] eqn:Hp; simpl;
               [|intros [= <-]; left; eauto]
           | |- context [decide (?p = Q2Qc 0)] =>
               destruct (decide (p = Q2Qc 0)) as [->|?]; simpl;
               [intros [= <-]; right; eauto|]
           end;
    discriminate.
Qed.

Lemma add_falloff_target (self : StretchyChain) (parent p : ParentGen) (k : nat)
    (factor : Qc) (idx : nat) :
  targets_ok self parent p -> requests_reparent self k ->
  match influence ← apply_falloff_curve float_pow self factor idx;
        add_reparent_bone_location p k influence with
  | Done p' => targets_ok self parent p'
  | Raised e => falloff_failure e
  end.
Proof.
  intros Hp Hk.
  destruct (apply_falloff_curve float_pow self factor idx) as [x|e] eqn:Hx; simpl.
  - by destruct (targets_ok_add self parent p k x Hp Hk) as (p' & -> & ?).
  - by apply apply_falloff_curve_raises in Hx.
Qed.

End FalloffFacts.

(** [extend_control_node_parent] and [make_control_node]: every target
    that the chain adds to the parent of a node is the reparent bone of one
    of its control nodes that [make_control_node] has asked to have one.
    The call raises nothing but what the projection raises, what a power
    raises in [apply_falloff_curve] ([OverflowError] for a large weight),
    and ZeroDivisionError, either from [1/p] for a power [p] that is zero
    or, for the influence of the middle control, when the factor of the
    middle control is 0 (node before it) or 1 (node after it). *)
Theorem stretchy_parent_targets_have_reparent_bones
    (axis_projection : Vector -> outcome Qc) (float_pow : Qc -> Qc -> outcome Qc)
    (self : StretchyChain) (parent : ParentGen)
    (node_rig node_index : nat) (node_name : string) (node_point : Vector) :
  length (sc_control_nodes self) = sc_num_orgs self + 1 ->
  sc_pivot_pos self < sc_num_orgs self ->
  match extend_control_node_parent axis_projection float_pow self parent
          node_rig node_index node_name node_point with
  | Done p' =>
      forall target, is_Some (copy_local_of p' !! target) ->
        is_Some (copy_local_of parent !! target) \/
        exists i k,
          sc_control_nodes self !! i = Some k /\
          target = Deferred (LazyRef k ["reparent_bone"]) /\
          forall node, cbn_needs_reparent (stretchy_make_control_node self node i) = true
  | Raised e =>
      get_pivot_projection axis_projection self node_point node_index = Raised e \/
      falloff_failure float_pow e \/
      e = ZeroDivisionError /\ sc_pivot_pos self <> 0 /\
      (node_index < sc_pivot_pos self /\ sc_middle_pivot_factor self = Q2Qc 0 \/
       sc_pivot_pos self < node_index /\ sc_middle_pivot_factor self = Q2Qc 1)
  end.
Proof.
  intros Hlen Hpivot.
  assert (forall p', targets_ok self parent p' ->
            forall target, is_Some (copy_local_of p' !! target) ->
              is_Some (copy_local_of parent !! target) \/
              exists i k,
                sc_control_nodes self !! i = Some k /\
                target = Deferred (LazyRef k ["reparent_bone"]) /\
                forall node, cbn_needs_reparent (stretchy_make_control_node self node i) = true)
    as Hdone.
  { intros p' [_ Hok] target Ht. destruct (Hok target Ht) as [?|(k & -> & i & ? & ?)]; eauto 6. }
  unfold extend_control_node_parent.
  destruct (_ || _ || _) eqn:Hskip.
  { intros target Ht. by left. }
  clear Hskip.
  pose proof (targets_ok_wrap self parent node_name) as Hwrap.
  destruct (get_pivot_projection _ _ _ _) as [factor|e]; simpl; [|by left].
  (* the first control *)
  set (stage1 := if use_falloff_curve self 0 then _ else _).
  assert (Hstage1 : match stage1 with
                    | Done p1 => targets_ok self parent p1
                    | Raised e => falloff_failure float_pow e
                    end).
  { unfold stage1. destruct (use_falloff_curve self 0) eqn:Huse; [|done].
    unfold control_node_at.
    destruct (sc_control_nodes self !! 0) as [first|] eqn:Hfirst.
    2:{ apply lookup_ge_None in Hfirst. lia. }
    simpl. apply add_falloff_target; [done|]. exists 0. split; [done|].
    intros node. unfold stretchy_make_control_node. simpl. exact Huse. }
  destruct stage1 as [p1|e]; simpl; [|by right; left]. clear Hwrap.
  (* the last control *)
  set (stage2 := if use_falloff_curve self 2 then _ else _).
  assert (Hstage2 : match stage2 with
                    | Done p2 => targets_ok self parent p2
                    | Raised e => falloff_failure float_pow e
                    end).
  { unfold stage2. destruct (use_falloff_curve self 2) eqn:Huse; [|done].
    rewrite last_lookup, Hlen.
    replace (pred (sc_num_orgs self + 1)) with (sc_num_orgs self) by lia.
    destruct (sc_control_nodes self !! sc_num_orgs self) as [final|] eqn:Hfinal.
    2:{ apply lookup_ge_None in Hfinal. lia. }
    simpl. apply add_falloff_target; [done|]. exists (sc_num_orgs self). split; [done|].
    intros node. unfold stretchy_make_control_node.
    rewrite (bool_decide_eq_true_2 (sc_num_orgs self = sc_num_orgs self)) by done.
    rewrite orb_true_r, (bool_decide_eq_false_2 (sc_num_orgs self = 0)) by lia.
    simpl. exact Huse. }
  destruct stage2 as [p2|e]; simpl; [|by right; left]. clear Hstage1.
  (* the middle control *)
  destruct (negb _ && negb _ && use_falloff_curve self 1) eqn:Hmiddle; [|by apply Hdone].
  apply andb_true_iff in Hmiddle as [[Hp Hi]%andb_true_iff Huse].
  apply negb_true_iff, bool_decide_eq_false in Hp, Hi.
  assert (exists middle, control_node_at self (sc_pivot_pos self) = Done middle /\
                         requests_reparent self middle) as (middle & Hmid & Hreq).
  { unfold control_node_at.
    destruct (sc_control_nodes self !! sc_pivot_pos self) as [middle|] eqn:Hmid.
    2:{ apply lookup_ge_None in Hmid. lia. }
    eexists. split; [done|]. exists (sc_pivot_pos self). split; [done|].
    intros node. unfold stretchy_make_control_node.
    rewrite (bool_decide_eq_false_2 (sc_pivot_pos self = 0)) by done.
    rewrite (bool_decide_eq_false_2 (sc_pivot_pos self = sc_num_orgs self)) by lia.
    rewrite (bool_decide_eq_true_2 (sc_pivot_pos self = sc_pivot_pos self)) by done.
    simpl. exact Huse. }
  rewrite Hmid.
  destruct (bool_decide (node_index < sc_pivot_pos self)) eqn:Hlt;
    [apply bool_decide_eq_true in Hlt | apply bool_decide_eq_false in Hlt];
    unfold py_div; destruct (decide (_ = Q2Qc 0)) as [Hz|Hz]; simpl.
  - right. right. eauto.
  - pose proof (add_falloff_target float_pow self parent p2 middle
                  (clamp (factor / sc_middle_pivot_factor self)%Qc) 1 Hstage2 Hreq) as Hlast.
    destruct (_ ≫= _) as [p3|e]; [by apply Hdone|by right; left].
  - right. right. split_and!; [done..|]. right. split; [lia|].
    rewrite <- (Qcplus_0_r (sc_middle_pivot_factor self)), <- Hz. ring.
  - pose proof (add_falloff_target float_pow self parent p2 middle
                  (clamp ((Q2Qc 1 - factor) / (Q2Qc 1 - sc_middle_pivot_factor self))%Qc) 1
                  Hstage2 Hreq) as Hlast.
    destruct (_ ≫= _) as [p3|e]; [by apply Hdone|by right; left].
Qed.

(** [x ** y] for the exponents of the examples, natural numbers: 2 to a
    power overflows from the exponent 1024 on. *)
Definition natural_pow (x y : Qc) : outcome Qc :=
  if bool_decide (x = Q2Qc 2) && Qcleb (Q2Qc 1024) y then Raised OverflowError
  else Done (Qcpower x (Z.to_nat (Qfloor y))).

Lemma stretchy_parent_targets_have_reparent_bones_witness :
  match extend_control_node_parent (fun _ => Done (Q2Qc 0)) natural_pow uneven_chain
          (ControlBoneParentOrg "ORG-brow") 0 1 "brow.001" vzero with
  | Done p' =>
      forall target, is_Some (copy_local_of p' !! target) ->
        is_Some (copy_local_of (ControlBoneParentOrg "ORG-brow") !! target) \/
        exists i k,
          sc_control_nodes uneven_chain !! i = Some k /\
          target = Deferred (LazyRef k ["reparent_bone"]) /\
          forall node,
            cbn_needs_reparent (stretchy_make_control_node uneven_chain node i) = true
  | Raised e =>
      get_pivot_projection (fun _ => Done (Q2Qc 0)) uneven_chain vzero 1 = Raised e \/
      falloff_failure natural_pow e \/
      e = ZeroDivisionError /\ sc_pivot_pos uneven_chain <> 0 /\
      (1 < sc_pivot_pos uneven_chain /\ sc_middle_pivot_factor uneven_chain = Q2Qc 0 \/
       sc_pivot_pos uneven_chain < 1 /\ sc_middle_pivot_factor uneven_chain = Q2Qc 1)
  end.
Proof.
  apply (stretchy_parent_targets_have_reparent_bones (fun _ => Done (Q2Qc 0)) natural_pow
           uneven_chain (ControlBoneParentOrg "ORG-brow") 0 1 "brow.001" vzero).
  - reflexivity.
  - simpl. lia.
Defined.

(** The same chain with falloff weights of 1024: [2 ** weight] overflows,
    and the parent of the node is not built. *)
Definition heavy_chain : StretchyChain :=
  {| sc_rig := 0; sc_num_orgs := 3; sc_pivot_pos := 2;
     sc_falloff := fun _ => Q2Qc 1024; sc_falloff_spherical := fun _ => false;
     sc_falloff_length := true;
     sc_chain_lengths := chain_lengths [Q2Qc 1; Q2Qc 3; Q2Qc 4];
     sc_middle_pivot_factor := Q2Qc (1 # 2);
     sc_control_nodes := [10; 11; 12; 13] |}.

Example heavy_chain_overflows :
  extend_control_node_parent (fun _ => Done (Q2Qc 0)) natural_pow heavy_chain
    (ControlBoneParentOrg "ORG-brow") 0 1 "brow.001" vzero
  = Raised OverflowError.
Proof. by vm_compute. Qed.

(** With weights of 0 the node after the first bone, an eighth of the way
    along the chain, follows the first control by 7/8, the last by 1/8 and
    the middle one, which is half way, by 1/4. *)
Example uneven_chain_second_node :
  exists p,
    extend_control_node_parent (fun _ => Done (Q2Qc 0)) natural_pow uneven_chain
      (ControlBoneParentOrg "ORG-brow") 0 1 "brow.001" vzero = Done p /\
    copy_local_of p !! Deferred (LazyRef 10 ["reparent_bone"]) = Some (Q2Qc (7 # 8), [], []) /\
    copy_local_of p !! Deferred (LazyRef 13 ["reparent_bone"]) = Some (Q2Qc (1 # 8), [], []) /\
    copy_local_of p !! Deferred (LazyRef 12 ["reparent_bone"]) = Some (Q2Qc (1 # 4), [], []).
Proof.
  eexists. split; [by vm_compute|].
  split_and!; vm_compute; do 3 f_equal; apply Qc_is_canon; reflexivity.
Qed.
